(** * Resethiq integrity engine: evidence kernel

    A shallow embedding of the cryptographic evidence kernel of the
    Resethiq engine (Merkle engine, streaming fingerprinter, canonical
    serializer, attestation assembler, verifier, receipts and
    transparency log) together with the properties its specification
    states about it.

    Conventions of the embedding.
    - A JavaScript string is a list of code units, restricted to the
      code units 0..255 ([jsstring]); a [Buffer] is a list of bytes.
    - JavaScript numbers are [JSNumber]: the three non-finite values and
      the finite ones, carried as rationals (every finite double is one).
    - Exceptions are explicit: a function that can throw returns a
      [result].
    - What the Node.js runtime supplies (hash functions, Ed25519, the
      number/string conversions) is the interface [Runtime]. *)

From Stdlib Require Import Strings.Ascii Strings.String Strings.Byte.
From Stdlib Require Import Arith ZArith QArith Qround Lia Bool.
From Stdlib Require Import List Permutation Sorted.
From Equations Require Import Equations.
Import ListNotations.

Set Warnings "-register-all".
Set Implicit Arguments.
Unset Strict Implicit.
Set Equations Transparent.

(** ** Strings, buffers, numbers *)

Definition jsstring := list ascii.
Definition Buffer := list byte.

Definition lit (s : string) : jsstring := list_ascii_of_string s.
Arguments lit s%_string.

Definition code (c : ascii) : N := N_of_ascii c.

Fixpoint str_eqb (a b : jsstring) : bool :=
  match a, b with
  | [], [] => true
  | x :: a', y :: b' => Ascii.eqb x y && str_eqb a' b'
  | _, _ => false
  end.

(** [Buffer.from(s)] / [Buffer.from(s, "utf8")] on code units below 256:
    one byte below 0x80, two bytes from 0x80 on. *)
Definition utf8_unit (c : ascii) : Buffer :=
  let n := code c in
  if (n <? 128)%N then [byte_of_ascii c]
  else match Byte.of_N (192 + n / 64), Byte.of_N (128 + n mod 64) with
       | Some b1, Some b2 => [b1; b2]
       | _, _ => []
       end.

Definition utf8 (s : jsstring) : Buffer := flat_map utf8_unit s.

(** Lowercase hexadecimal, [buf.toString("hex")]. *)
Definition hexdigit (n : N) : ascii :=
  if (n <? 10)%N then ascii_of_N (48 + n) else ascii_of_N (87 + n).

Definition hexval (c : ascii) : option N :=
  let n := code c in
  if ((48 <=? n) && (n <=? 57))%N then Some (n - 48)%N
  else if ((97 <=? n) && (n <=? 102))%N then Some (n - 87)%N
  else if ((65 <=? n) && (n <=? 70))%N then Some (n - 55)%N
  else None.

Definition toHex (b : Buffer) : jsstring :=
  flat_map (fun x => [hexdigit (Byte.to_N x / 16); hexdigit (Byte.to_N x mod 16)]) b.

(** [Buffer.from(s, "hex")]: decodes pairs of hex digits and stops at the
    first pair that is not one (a trailing single character is dropped). *)
Fixpoint fromHex (s : jsstring) : Buffer :=
  match s with
  | c1 :: c2 :: rest =>
      match hexval c1, hexval c2 with
      | Some a, Some b =>
          match Byte.of_N (16 * a + b) with
          | Some x => x :: fromHex rest
          | None => []
          end
      | _, _ => []
      end
  | _ => []
  end.

Inductive JSNumber : Type :=
| NaN
| PosInfinity
| NegInfinity
| Finite (q : Q).

Definition Number_isFinite (n : JSNumber) : bool :=
  match n with Finite _ => true | _ => false end.

(** [a <= b] on numbers; any comparison with NaN is false. *)
Definition num_leb (a b : JSNumber) : bool :=
  match a, b with
  | NaN, _ | _, NaN => false
  | NegInfinity, _ => true
  | _, PosInfinity => true
  | Finite x, Finite y => Qle_bool x y
  | _, _ => false
  end.

Definition ofZ (z : Z) : JSNumber := Finite (inject_Z z).

(** ToIntegerOrInfinity on a finite number: truncation towards zero. *)
Definition Qtrunc (q : Q) : Z :=
  if Qle_bool 0 q then Qfloor q else Qceiling q.

(** ** Exceptions *)

Inductive JSError : Type :=
| Error (msg : jsstring)
| TypeError
| RangeError.

Inductive result (A : Type) : Type :=
| Ok (a : A)
| Throw (e : JSError).
Arguments Ok {A} a.
Arguments Throw {A} e.

Definition bind {A B} (r : result A) (k : A -> result B) : result B :=
  match r with
  | Ok a => k a
  | Throw e => Throw e
  end.

Notation "x <- r ;; k" := (bind r (fun x => k))
  (at level 61, r at next level, right associativity).

(** [xs.map(f)] for an [f] that can throw: the first exception ends it. *)
Fixpoint mapM {A B} (f : A -> result B) (xs : list A) : result (list B) :=
  match xs with
  | [] => Ok []
  | x :: rest => y <- f x ;; ys <- mapM f rest ;; Ok (y :: ys)
  end.

(** ** The runtime interface *)

Class Runtime : Type := {
  blake2b512 : Buffer -> Buffer;
  sha512 : Buffer -> Buffer;
  sha256 : Buffer -> Buffer;
  (** [crypto.sign(null, message, privateKeyPem)] *)
  crypto_sign : Buffer -> jsstring -> result Buffer;
  (** [crypto.verify(null, message, publicKeyPem, signature)] *)
  crypto_verify : Buffer -> jsstring -> Buffer -> result bool;
  base64_encode : Buffer -> jsstring;
  base64_decode : jsstring -> Buffer;
  (** [Number::toString] of a finite number, as [JSON.stringify] prints it *)
  Number_toString : Q -> jsstring;
  (** [Number(s)] on a string *)
  StringToNumber : jsstring -> JSNumber
}.

(** ** Arrays indexed by a JavaScript integer *)

Definition at_ {A} (l : list A) (i : Z) : option A :=
  if (i <? 0)%Z then None else nth_error l (Z.to_nat i).

(** [a ?? b] *)
Definition nullish {A} (a : option A) (b : option A) : option A :=
  match a with Some _ => a | None => b end.

(** ** Merkle engine (src/core/merkle.ts) *)

Section Merkle.
Context {rt : Runtime}.

Definition h (data : Buffer) : Buffer := blake2b512 data.

Definition Level := list Buffer.

(** The inner [for (i = 0; i < level.length; i += 2)] loop: pairs are
    combined left to right, a last unpaired node is paired with itself
    ([level[i + 1] ?? level[i]]). *)
Fixpoint nextLevel (level : Level) : Level :=
  match level with
  | [] => []
  | [lft] => [h (lft ++ lft)]
  | lft :: rgt :: rest => h (lft ++ rgt) :: nextLevel rest
  end.

Lemma nextLevel_length_lt (level : Level) :
  (1 < length level -> length (nextLevel level) < length level)%nat.
Proof.
  induction level as [level IH] using (well_founded_induction
    (Wf_nat.well_founded_ltof _ (@length Buffer))).
  destruct level as [|a [|b rest]]; simpl; try lia.
  intros _. destruct rest as [|c [|d rest']]; simpl; try lia.
  assert (Hlt : Wf_nat.ltof _ (@length Buffer) (c :: d :: rest') (a :: b :: c :: d :: rest'))
    by (unfold Wf_nat.ltof; simpl; lia).
  specialize (IH _ Hlt). simpl in IH. lia.
Qed.

(** The [while (level.length > 1)] loop of [merkleRootFromLeafHex]. *)
Equations rootLoop (level : Level) : Level by wf (length level) lt :=
  rootLoop level with lt_dec 1 (length level) := {
    | left Hgt => rootLoop (nextLevel level)
    | right _ => level }.
Next Obligation. now apply nextLevel_length_lt. Qed.

Record RootResult : Type := { root_hex : jsstring; leaf_count : nat }.

Definition empty_sentinel : jsstring := lit "resethiq:empty".

Definition merkleRootFromLeafHex (leafHex : list jsstring) : RootResult :=
  match leafHex with
  | [] => {| root_hex := toHex (h (utf8 empty_sentinel)); leaf_count := 0 |}
  | _ =>
      let level := rootLoop (map fromHex leafHex) in
      {| root_hex := toHex (nth 0 level []); leaf_count := length leafHex |}
  end.

(** The [while] loop of [buildLevels], after [levels.push(level)] of the
    leaf level: every further level is pushed as it is built. *)
Equations levelsLoop (level : Level) : list Level by wf (length level) lt :=
  levelsLoop level with lt_dec 1 (length level) := {
    | left Hgt => nextLevel level :: levelsLoop (nextLevel level)
    | right _ => [] }.
Next Obligation. now apply nextLevel_length_lt. Qed.

Definition buildLevels (leafHex : list jsstring) : list Level :=
  let level := map fromHex leafHex in
  match level with
  | [] => [[h (utf8 empty_sentinel)]]
  | _ => level :: levelsLoop level
  end.

Record MerkleProof : Type := {
  index : Z;
  leaf_hex : jsstring;
  siblings_hex : list jsstring
}.

(** The [for (level = 0; level < levels.length - 1; level++)] loop of
    [merkleProof]; [sibling.toString] on [undefined] is a TypeError. *)
Fixpoint siblingsLoop (levels : list Level) (idx : Z) : result (list jsstring) :=
  match levels with
  | [] => Ok []
  | [_] => Ok []
  | nodes :: rest =>
      let isRight := (Z.rem idx 2 =? 1)%Z in
      let pairIdx := if isRight then (idx - 1)%Z else (idx + 1)%Z in
      match nullish (at_ nodes pairIdx) (at_ nodes idx) with
      | None => Throw TypeError
      | Some sibling =>
          siblings <- siblingsLoop rest (idx / 2)%Z ;;
          Ok (toHex sibling :: siblings)
      end
  end.

Definition merkleProof (leafHex : list jsstring) (index : Z) : result MerkleProof :=
  if (length leafHex =? 0)%nat then
    Throw (Error (lit "Cannot build proof for empty tree"))
  else if ((index <? 0) || (Z.of_nat (length leafHex) <=? index))%Z then
    Throw (Error (lit "Proof index out of range"))
  else
    siblings <- siblingsLoop (buildLevels leafHex) index ;;
    Ok {| index := index;
          leaf_hex := nth (Z.to_nat index) leafHex [];
          siblings_hex := siblings |}.

(** The [for (const sibHex of proof.siblings_hex)] loop of [verifyProof]. *)
Fixpoint verifyLoop (node : Buffer) (idx : Z) (siblings : list jsstring) : Buffer :=
  match siblings with
  | [] => node
  | sibHex :: rest =>
      let sib := fromHex sibHex in
      let isRight := (Z.rem idx 2 =? 1)%Z in
      let node' := if isRight then h (sib ++ node) else h (node ++ sib) in
      verifyLoop node' (idx / 2)%Z rest
  end.

Definition verifyProof (rootHex : jsstring) (proof : MerkleProof) : bool :=
  let node := verifyLoop (fromHex (leaf_hex proof)) (index proof) (siblings_hex proof) in
  str_eqb (toHex node) rootHex.

End Merkle.

(** ** Streaming fingerprinter ([streamDigestsAndLeaves] of the CLI) *)

Section Fingerprinter.
Context {rt : Runtime}.

(** A relative index of [subarray]: truncated, counted from the end when
    negative, clamped to the buffer. *)
Definition rel_index (len : nat) (q : Q) : nat :=
  let k := Qtrunc q in
  if (k <? 0)%Z then Z.to_nat (Z.max (Z.of_nat len + k) 0)
  else Z.to_nat (Z.min k (Z.of_nat len)).

(** [buf.subarray(start, end)] and [buf.subarray(start)] *)
Definition subarray (buf : Buffer) (start stop : Q) : Buffer :=
  let s := rel_index (length buf) start in
  let e := rel_index (length buf) stop in
  firstn (e - s) (skipn s buf).

Definition subarray_from (buf : Buffer) (start : Q) : Buffer :=
  skipn (rel_index (length buf) start) buf.

(** [leafHash]: BLAKE2b-512 of one chunk, in hex. *)
Definition leafHash (chunk : Buffer) : jsstring := toHex (blake2b512 chunk).

(** What the input path refers to: whether [stat] says it is a regular
    file, its [stat.size], the [data] events of its read stream in order,
    and the [error] event that ends the stream in place of [end], if any. *)
Record InputFile : Type := {
  is_file : bool;
  file_size : nat;
  data_events : list Buffer;
  stream_error : option JSError
}.

(** The mutable locals of [streamDigestsAndLeaves]. An incremental hasher
    is carried as the bytes it was fed so far. *)
Record StreamState : Type := {
  st_bytes : nat;
  st_buf : Buffer;
  st_chunks : nat;
  st_leafHexes : list jsstring;
  st_fileBlake2b : Buffer;
  st_fileSha512 : Buffer
}.

Definition initial_state : StreamState :=
  {| st_bytes := 0; st_buf := []; st_chunks := 0; st_leafHexes := [];
     st_fileBlake2b := []; st_fileSha512 := [] |}.

(** The loop [while (buf.length >= chunkSize)] inside the [data] handler.
    [fuel] bounds the number of iterations; [None] means the loop is
    still running when the fuel is spent. *)
Fixpoint drain (fuel : nat) (chunkSize : Q) (buf : Buffer)
    (leafHexes : list jsstring) (chunks : nat)
    : option (Buffer * list jsstring * nat) :=
  if Qle_bool chunkSize (inject_Z (Z.of_nat (length buf))) then
    match fuel with
    | O => None
    | S fuel' =>
        let out := subarray buf 0 chunkSize in
        let buf' := subarray_from buf chunkSize in
        drain fuel' chunkSize buf' (leafHexes ++ [leafHash out]) (S chunks)
    end
  else Some (buf, leafHexes, chunks).

(** The [rs.on("data", ...)] handler. *)
Definition onData (fuel : nat) (chunkSize : Q) (st : StreamState) (chunk : Buffer)
    : option StreamState :=
  match drain fuel chunkSize (st_buf st ++ chunk) (st_leafHexes st) (st_chunks st) with
  | None => None
  | Some (buf', leaves', chunks') =>
      Some {| st_bytes := st_bytes st + length chunk;
              st_buf := buf';
              st_chunks := chunks';
              st_leafHexes := leaves';
              st_fileBlake2b := st_fileBlake2b st ++ chunk;
              st_fileSha512 := st_fileSha512 st ++ chunk |}
  end.

Fixpoint runStream (fuel : nat) (chunkSize : Q) (st : StreamState) (events : list Buffer)
    : option StreamState :=
  match events with
  | [] => Some st
  | chunk :: rest =>
      match onData fuel chunkSize st chunk with
      | None => None
      | Some st' => runStream fuel chunkSize st' rest
      end
  end.

Record FileDigests : Type := { blake2b_512 : jsstring; sha512_hex : jsstring }.

Record MerkleCommitment : Type := {
  algorithm : jsstring;
  root : jsstring;
  mc_leaf_count : nat;
  chunk_size : Q
}.

Record Fingerprint : Type := {
  bytes : nat;
  chunks_count : nat;
  leaf_hexes : list jsstring;
  file_digests : FileDigests;
  merkle : MerkleCommitment
}.

(** After the stream has ended: the final short leaf, the Merkle root and
    the returned object. *)
Definition finishStream (chunkSize : Q) (st : StreamState) : Fingerprint :=
  let '(leafHexes, chunks) :=
    if (0 <? length (st_buf st))%nat
    then (st_leafHexes st ++ [leafHash (st_buf st)], S (st_chunks st))
    else (st_leafHexes st, st_chunks st) in
  let m := merkleRootFromLeafHex leafHexes in
  {| bytes := st_bytes st;
     chunks_count := chunks;
     leaf_hexes := leafHexes;
     file_digests :=
       {| blake2b_512 := toHex (blake2b512 (st_fileBlake2b st));
          sha512_hex := toHex (sha512 (st_fileSha512 st)) |};
     merkle :=
       {| algorithm := lit "blake2b512";
          root := root_hex m;
          mc_leaf_count := leaf_count m;
          chunk_size := chunkSize |} |}.

(** [streamDigestsAndLeaves(filePath, chunkSize)], on the file the path
    refers to. [None]: some [while] loop outlived [fuel] iterations. *)
Definition streamDigestsAndLeaves (fuel : nat) (file : InputFile) (chunkSize : Q)
    : option (result Fingerprint) :=
  if negb (is_file file) then Some (Throw (Error (lit "Input is not a file")))
  else
    match runStream fuel chunkSize initial_state (data_events file) with
    | None => None
    | Some st =>
        match stream_error file with
        | Some e => Some (Throw e)
        | None => Some (Ok (finishStream chunkSize st))
        end
    end.

End Fingerprinter.
(** ** JSON-like values and their serializations
    (src/integrity/kernel/hashing.ts and the runtime's [JSON.stringify]) *)

(** A JSON-like value. The members of an object are listed in the order
    [Object.keys] enumerates them; a well-formed object has no key twice
    ([wf_json] below). *)
Inductive JSON : Type :=
| JNull
| JBool (b : bool)
| JNum (n : JSNumber)
| JStr (s : jsstring)
| JArr (elems : list JSON)
| JObj (members : list (jsstring * JSON)).

(** [x[k]] on the members of an object; [None] is [undefined]. *)
Fixpoint lookup (k : jsstring) (members : list (jsstring * JSON)) : option JSON :=
  match members with
  | [] => None
  | (k', v) :: rest => if str_eqb k' k then Some v else lookup k rest
  end.

Definition Object_keys (members : list (jsstring * JSON)) : list jsstring :=
  map fst members.

(** [parts.join(sep)] on an array of strings *)
Fixpoint join (sep : jsstring) (parts : list jsstring) : jsstring :=
  match parts with
  | [] => []
  | [p] => p
  | p :: rest => p ++ sep ++ join sep rest
  end.

(** Code-unit order of two strings, the order of the default [sort()]. *)
Fixpoint str_leb (a b : jsstring) : bool :=
  match a, b with
  | [], _ => true
  | _ :: _, [] => false
  | x :: a', y :: b' =>
      if (code x <? code y)%N then true
      else if (code y <? code x)%N then false
      else str_leb a' b'
  end.

Fixpoint insert_sorted (k : jsstring) (l : list jsstring) : list jsstring :=
  match l with
  | [] => [k]
  | x :: rest => if str_leb k x then k :: l else x :: insert_sorted k rest
  end.

(** [keys.sort()] with the default comparator. *)
Definition sort_keys (keys : list jsstring) : list jsstring :=
  fold_right insert_sorted [] keys.

(** [JSON.stringify] of a string: quoted, with the minimal escapes. *)
Definition dquote : ascii := ascii_of_N 34.
Definition backslash : ascii := ascii_of_N 92.

Definition escape_unit (c : ascii) : jsstring :=
  let n := code c in
  if (n =? 34)%N then [backslash; dquote]
  else if (n =? 92)%N then lit "\\"
  else if (n =? 8)%N then lit "\b"
  else if (n =? 12)%N then lit "\f"
  else if (n =? 10)%N then lit "\n"
  else if (n =? 13)%N then lit "\r"
  else if (n =? 9)%N then lit "\t"
  else if (n <? 32)%N then lit "\u00" ++ [hexdigit (n / 16); hexdigit (n mod 16)]
  else [c].

Definition quoteJSON (s : jsstring) : jsstring :=
  dquote :: flat_map escape_unit s ++ [dquote].

Section Serializers.
Context {rt : Runtime}.

(** [JSON.stringify] of a number: non-finite numbers print as [null]. *)
Definition stringify_number (n : JSNumber) : jsstring :=
  match n with
  | Finite q => Number_toString q
  | _ => lit "null"
  end.

(** [JSON.stringify(x)] without indentation: members in enumeration
    order, no whitespace. *)
Fixpoint JSON_stringify (x : JSON) : jsstring :=
  match x with
  | JNull => lit "null"
  | JBool b => if b then lit "true" else lit "false"
  | JNum n => stringify_number n
  | JStr s => quoteJSON s
  | JArr elems => lit "[" ++ join (lit ",") (map JSON_stringify elems) ++ lit "]"
  | JObj members =>
      lit "{" ++
      join (lit ",")
        (map (fun kv => quoteJSON (fst kv) ++ lit ":" ++ JSON_stringify (snd kv))
             members) ++
      lit "}"
  end.

(** [stableStringify]: objects sorted by key, arrays in order. The local
    [member ps k] is [stableStringify(x[k])] for a key [k] of [x]. *)
Fixpoint stableStringify (x : JSON) : jsstring :=
  match x with
  | JNull => lit "null"
  | JBool b => if b then lit "true" else lit "false"
  | JNum n => stringify_number n
  | JStr s => quoteJSON s
  | JArr elems => lit "[" ++ join (lit ",") (map stableStringify elems) ++ lit "]"
  | JObj members =>
      let fix member (ps : list (jsstring * JSON)) (k : jsstring) : jsstring :=
        match ps with
        | [] => []
        | (k', v) :: rest =>
            if str_eqb k' k then stableStringify v else member rest k
        end in
      let keys := sort_keys (Object_keys members) in
      lit "{" ++
      join (lit ",") (map (fun k => quoteJSON k ++ lit ":" ++ member members k) keys) ++
      lit "}"
  end.

(** [hashHex(buf)]: SHA-256, in hex. *)
Definition hashHex (buf : Buffer) : jsstring := toHex (sha256 buf).

(** [hashJSON(obj)] *)
Definition hashJSON (obj : JSON) : jsstring :=
  let s := stableStringify obj in
  hashHex (utf8 s).

(** [sha512Hex(input)] of core/sign, on a string input *)
Definition sha512Hex (input : jsstring) : jsstring := toHex (sha512 (utf8 input)).

End Serializers.

(** ** Receipts (src/integrity/kernel/receipt.ts) *)

(** [o[k] = v]: an existing key keeps its place, a new one goes last. *)
Fixpoint set_member (k : jsstring) (v : JSON) (members : list (jsstring * JSON))
    : list (jsstring * JSON) :=
  match members with
  | [] => [(k, v)]
  | (k', v') :: rest =>
      if str_eqb k' k then (k', v) :: rest else (k', v') :: set_member k v rest
  end.

(** Object spread [{ ...o, ...src }]: the members of [src] are assigned
    in order. *)
Definition spread (o src : list (jsstring * JSON)) : list (jsstring * JSON) :=
  fold_left (fun acc kv => set_member (fst kv) (snd kv) acc) src o.

Section Receipts.
Context {rt : Runtime}.

(** [createReceipt(data)], on the members of [data]; the result is the
    list of members of the returned receipt. [receipt_base] is the local
    [base = { receipt_version: "1", ...data }]. *)
Definition receipt_base (data : list (jsstring * JSON)) : list (jsstring * JSON) :=
  spread [(lit "receipt_version", JStr (lit "1"))] data.

Definition createReceipt (data : list (jsstring * JSON)) : list (jsstring * JSON) :=
  let base := receipt_base data in
  let receipt_hash := hashJSON (JObj base) in
  set_member (lit "receipt_hash") (JStr receipt_hash) (spread [] base).

End Receipts.
(** ** [stableStringify] on object graphs

    A [JSON] tree cannot hold an object that contains itself. For inputs
    that can, values refer to objects through addresses into a heap, and
    the call stack of the recursion is bounded: a call made when the
    stack is used up throws the runtime's RangeError. A member or an
    element can also be [undefined]. *)

Inductive HValue : Type :=
| HUndefined
| HNull
| HBool (b : bool)
| HNum (n : JSNumber)
| HStr (s : jsstring)
| HRef (address : nat).

Inductive HObject : Type :=
| HArray (elems : list HValue)
| HRecord (members : list (jsstring * HValue)).

Definition Heap := list HObject.

Fixpoint lookupH (k : jsstring) (members : list (jsstring * HValue)) : option HValue :=
  match members with
  | [] => None
  | (k', v) :: rest => if str_eqb k' k then Some v else lookupH k rest
  end.

Section HeapSerializer.
Context {rt : Runtime}.

(** [stableStringify(x)] with [stack] frames left. [stableStringify] of
    [undefined] is the TypeError of [Object.keys(undefined)]. *)
Fixpoint stableStringifyH (stack : nat) (hp : Heap) (x : HValue) : result jsstring :=
  match stack with
  | O => Throw RangeError
  | S stack' =>
      match x with
      | HUndefined => Throw TypeError
      | HNull => Ok (lit "null")
      | HBool b => Ok (if b then lit "true" else lit "false")
      | HNum n => Ok (stringify_number n)
      | HStr s => Ok (quoteJSON s)
      | HRef a =>
          match nth_error hp a with
          | None => Throw TypeError
          | Some (HArray elems) =>
              parts <- mapM (stableStringifyH stack' hp) elems ;;
              Ok (lit "[" ++ join (lit ",") parts ++ lit "]")
          | Some (HRecord members) =>
              let keys := sort_keys (map fst members) in
              parts <- mapM (fun k =>
                               s <- match lookupH k members with
                                    | Some v => stableStringifyH stack' hp v
                                    | None => Throw TypeError
                                    end ;;
                               Ok (quoteJSON k ++ lit ":" ++ s))
                            keys ;;
              Ok (lit "{" ++ join (lit ",") parts ++ lit "}")
          end
      end
  end.

End HeapSerializer.
(** ** Transparency log (src/integrity/kernel/transparencyLog.ts) *)

Definition tab : ascii := ascii_of_N 9.
Definition newline : ascii := ascii_of_N 10.

(** White space and line terminators among the code units below 256, as
    [String.prototype.trim] strips them. *)
Definition isWhiteSpace (c : ascii) : bool :=
  let n := code c in
  ((9 <=? n) && (n <=? 13) || (n =? 32) || (n =? 160))%N.

Fixpoint trimStart (s : jsstring) : jsstring :=
  match s with
  | [] => []
  | c :: rest => if isWhiteSpace c then trimStart rest else s
  end.

Definition trimEnd (s : jsstring) : jsstring := rev (trimStart (rev s)).

(** [s.trim()] *)
Definition trim (s : jsstring) : jsstring := trimEnd (trimStart s).

(** [s.split(sep)] for a separator of one code unit: the pieces between
    the separators, one (empty) piece for the empty string. *)
Fixpoint split_on (sep : ascii) (s : jsstring) : list jsstring :=
  match s with
  | [] => [[]]
  | c :: rest =>
      if Ascii.eqb c sep then [] :: split_on sep rest
      else match split_on sep rest with
           | piece :: pieces => (c :: piece) :: pieces
           | [] => [[c]]
           end
  end.

(** [Boolean(s)] on a string: the empty string is falsy. *)
Definition truthy (s : jsstring) : bool :=
  match s with [] => false | _ :: _ => true end.

Definition GENESIS : jsstring := lit "GENESIS".

Record LogAppendResult : Type := {
  entry_hash : jsstring;
  prev_hash : jsstring
}.

Section TransparencyLog.
Context {rt : Runtime}.

(** The [try] block: the hash the new entry chains to. [existing] is the
    content of the log file, [None] when reading it fails (first write). *)
Definition previous_hash (existing : option jsstring) : jsstring :=
  match existing with
  | None => GENESIS
  | Some content =>
      let lines := filter truthy (split_on newline (trim content)) in
      if (0 <? length lines)%nat then
        let last_line := last lines [] in
        let parts := split_on tab last_line in
        match nth_error parts 3 with
        | Some p => p
        | None => GENESIS
        end
      else GENESIS
  end.

Definition log_line (timestamp receipt_hash prev entry : jsstring) : jsstring :=
  timestamp ++ tab :: receipt_hash ++ tab :: prev ++ tab :: entry ++ [newline].

(** [appendTransparencyLog({baseDir, receipt_hash, timestampISO})] on the
    log file of [baseDir]: the content of the file afterwards, and the
    returned hashes. [now] is [new Date().toISOString()]. *)
Definition appendTransparencyLog (existing : option jsstring)
    (receipt_hash : jsstring) (timestampISO : option jsstring) (now : jsstring)
    : jsstring * LogAppendResult :=
  let timestamp := match timestampISO with Some t => t | None => now end in
  let prev := previous_hash existing in
  let payload := utf8 (prev ++ newline :: receipt_hash ++ newline :: timestamp) in
  let entry := hashHex payload in
  let line := log_line timestamp receipt_hash prev entry in
  (match existing with Some content => content | None => [] end ++ line,
   {| entry_hash := entry; prev_hash := prev |}).

End TransparencyLog.
(** ** Verifier (core/verify) *)

(** [x.k] on a parsed JSON value, for a key that is not an array index or
    a built-in property: [undefined] ([None]) off objects, a TypeError on
    [null]. *)
Definition get (x : JSON) (k : jsstring) : result (option JSON) :=
  match x with
  | JNull => Throw TypeError
  | JObj members => Ok (lookup k members)
  | _ => Ok None
  end.

(** [v ?? {}] *)
Definition or_empty (v : option JSON) : JSON :=
  match v with
  | None | Some JNull => JObj []
  | Some x => x
  end.

(** [s === v] for a string [s], and [n === v] for a count [n]. *)
Definition str_is (s : jsstring) (v : option JSON) : bool :=
  match v with
  | Some (JStr t) => str_eqb s t
  | _ => false
  end.

Definition count_is (n : nat) (v : option JSON) : bool :=
  match v with
  | Some (JNum (Finite q)) => Qeq_bool (inject_Z (Z.of_nat n)) q
  | _ => false
  end.

Record Checks : Type := {
  file_blake2b_match : bool;
  file_sha512_match : bool;
  merkle_root_match : bool;
  leaf_count_match : bool;
  signed_message_sha512_match : bool;
  signature_valid : bool
}.

(** [Object.values(checks)] *)
Definition Object_values (c : Checks) : list bool :=
  [file_blake2b_match c; file_sha512_match c; merkle_root_match c;
   leaf_count_match c; signed_message_sha512_match c; signature_valid c].

Record Expected : Type := { exp_file_digests : JSON; exp_merkle : JSON }.

Record Actual : Type := {
  act_file_digests : FileDigests;
  act_merkle_root : jsstring;
  act_leaf_count : nat
}.

(** The object that [verifyBundle] returns; [vr_bytes] is its member
    [bytes]. *)
Record VerifyResult : Type := {
  ok : bool;
  vr_bytes : nat;
  expected : Expected;
  actual : Actual;
  checks : Checks
}.

Section Verifier.
Context {rt : Runtime}.

(** [String(v)] on an element of an array, as [Array.prototype.join]
    applies it, and [Number(v)] on a parsed value or [undefined]. *)
Fixpoint element_string (v : JSON) : jsstring :=
  match v with
  | JNull => []
  | JBool b => if b then lit "true" else lit "false"
  | JNum NaN => lit "NaN"
  | JNum PosInfinity => lit "Infinity"
  | JNum NegInfinity => lit "-Infinity"
  | JNum (Finite q) => Number_toString q
  | JStr s => s
  | JArr elems => join (lit ",") (map element_string elems)
  | JObj _ => lit "[object Object]"
  end.

Definition ToNumber (v : option JSON) : JSNumber :=
  match v with
  | None => NaN
  | Some JNull => Finite 0
  | Some (JBool b) => if b then Finite 1 else Finite 0
  | Some (JNum n) => n
  | Some (JStr s) => StringToNumber s
  | Some (JArr elems) => StringToNumber (element_string (JArr elems))
  | Some (JObj _) => NaN
  end.

(** [verifyEd25519(publicKeyPem, message, signatureB64)] of core/sign *)
Definition verifyEd25519 (publicKeyPem : jsstring) (message : Buffer)
    (signatureB64 : jsstring) : result bool :=
  crypto_verify message publicKeyPem (base64_decode signatureB64).

(** The [sigOk] conjunction, left to right with short circuit. *)
Definition signature_ok (sig claims : JSON) : result bool :=
  alg <- get sig (lit "algorithm") ;;
  if str_is (lit "ed25519") alg then
    pem <- get sig (lit "public_key_pem") ;;
    match pem with
    | Some (JStr publicKeyPem) =>
        b64 <- get sig (lit "signature_b64") ;;
        match b64 with
        | Some (JStr signatureB64) =>
            verifyEd25519 publicKeyPem (utf8 (JSON_stringify claims)) signatureB64
        | _ => Ok false
        end
    | _ => Ok false
    end
  else Ok false.

(** [verifyBundle({bundlePath, filePath})]. [bundle] is the outcome of
    reading and parsing the bundle file, [file] what [filePath] refers to.
    [None]: a chunking loop outlived [fuel] iterations. *)
Definition verifyBundle (fuel : nat) (bundle : result JSON) (file : InputFile)
    : option (result VerifyResult) :=
  match
    (a <- bundle ;;
     claims_v <- get a (lit "claims") ;;
     let claims := or_empty claims_v in
     merkle_v <- get claims (lit "merkle") ;;
     let merkle := or_empty merkle_v in
     digests_v <- get claims (lit "file_digests") ;;
     let expectedFile := or_empty digests_v in
     sig_v <- get a (lit "signature") ;;
     let sig := or_empty sig_v in
     chunk_v <- get merkle (lit "chunk_size") ;;
     let chunkSize := ToNumber chunk_v in
     if negb (Number_isFinite chunkSize) || num_leb chunkSize (Finite 0) then
       Throw (Error (lit "Invalid chunk_size in bundle"))
     else Ok (claims, merkle, expectedFile, sig, chunkSize))
  with
  | Throw e => Some (Throw e)
  | Ok (claims, merkle, expectedFile, sig, chunkSize) =>
      let q := match chunkSize with Finite q => q | _ => 0 end in
      match runStream fuel q initial_state (data_events file) with
      | None => None
      | Some st0 =>
          match stream_error file with
          | Some e => Some (Throw e)
          | None =>
              let leafHexes :=
                if (0 <? length (st_buf st0))%nat
                then st_leafHexes st0 ++ [leafHash (st_buf st0)]
                else st_leafHexes st0 in
              let actualFile :=
                {| blake2b_512 := toHex (blake2b512 (st_fileBlake2b st0));
                   sha512_hex := toHex (sha512 (st_fileSha512 st0)) |} in
              let merkleRes := merkleRootFromLeafHex leafHexes in
              let signed_message_sha512 := sha512Hex (JSON_stringify claims) in
              Some
                (sigOk <- signature_ok sig claims ;;
                 exp_b <- get expectedFile (lit "blake2b_512") ;;
                 exp_s <- get expectedFile (lit "sha512") ;;
                 exp_root <- get merkle (lit "root") ;;
                 exp_count <- get merkle (lit "leaf_count") ;;
                 exp_msg <- get sig (lit "signed_message_sha512") ;;
                 let checks :=
                   {| file_blake2b_match := str_is (blake2b_512 actualFile) exp_b;
                      file_sha512_match := str_is (sha512_hex actualFile) exp_s;
                      merkle_root_match := str_is (root_hex merkleRes) exp_root;
                      leaf_count_match := count_is (leaf_count merkleRes) exp_count;
                      signed_message_sha512_match := str_is signed_message_sha512 exp_msg;
                      signature_valid := sigOk |} in
                 let ok := forallb (fun b => b) (Object_values checks) in
                 Ok {| ok := ok;
                       vr_bytes := st_bytes st0;
                       expected := {| exp_file_digests := expectedFile; exp_merkle := merkle |};
                       actual := {| act_file_digests := actualFile;
                                    act_merkle_root := root_hex merkleRes;
                                    act_leaf_count := leaf_count merkleRes |};
                       checks := checks |})
          end
      end
  end.

End Verifier.
(** ** Attestation assembler and command line (the CLI entry point) *)

Record Keypair : Type := { publicKeyPem : jsstring; privateKeyPem : jsstring }.

Record SampledProof : Type := {
  sp_index : Z;
  sp_leaf_hex : jsstring;
  sp_siblings_hex : list jsstring;
  verifies : bool
}.

Record Signature : Type := {
  sig_algorithm : jsstring;
  public_key_pem : jsstring;
  signed_message_sha512 : jsstring;
  signature_b64 : jsstring
}.

Record Proofs : Type := {
  proofs_type : jsstring;
  merkle_root : jsstring;
  proofs_algorithm : jsstring;
  sampled : list SampledProof
}.

Record Attestation : Type := {
  schema : jsstring;
  manifest : JSON;
  claims : JSON;
  proofs : Proofs;
  signature : Signature
}.

(** What the process finds around it: the file system, the key store, the
    clock and the identity of the runtime. *)
Record World : Type := {
  (** what a path refers to; [None]: [stat] fails *)
  files : jsstring -> option InputFile;
  (** [JSON.parse] of the content read at a path *)
  bundles : jsstring -> result JSON;
  mkdir : jsstring -> result unit;
  loadOrCreateEd25519Keypair : jsstring -> result Keypair;
  (** [writeFile(path, JSON.stringify(attestation, null, 2))] *)
  writeFile : jsstring -> Attestation -> result unit;
  renderAttestationPDF : jsstring -> jsstring -> result unit;
  path_basename : jsstring -> jsstring;
  path_join : jsstring -> jsstring -> jsstring;
  randomUUID : jsstring;
  now_ISO : jsstring;
  process_version : jsstring;
  process_platform : jsstring;
  process_arch : jsstring
}.

Inductive CliOutput : Type :=
| HashOutput (filePath : jsstring) (r : Fingerprint)
| AttestOutput (outPath : jsstring) (a : Attestation).

(** How a run of [main] ends: [process.exit(code)], or a normal return
    after printing. *)
Inductive Outcome : Type :=
| Exit (code : Z)
| Completed (out : CliOutput).

(** [args.indexOf(name)] and [getFlag(args, name, def)] *)
Fixpoint indexOf (args : list jsstring) (name : jsstring) : option nat :=
  match args with
  | [] => None
  | a :: rest =>
      if str_eqb a name then Some 0%nat
      else match indexOf rest name with
           | Some i => Some (S i)
           | None => None
           end
  end.

Definition getFlag (args : list jsstring) (name : jsstring) (def : option jsstring)
    : option jsstring :=
  match indexOf args name with
  | Some i => nth_error args (i + 1)
  | None => def
  end.

(** [new Set(xs)] keeps the first occurrence of every value, in order. *)
Fixpoint Set_of (xs : list Z) : list Z :=
  match xs with
  | [] => []
  | x :: rest => x :: filter (fun y => negb (y =? x)%Z) (Set_of rest)
  end.

(** The deterministic sample indices of the attest branch. *)
Definition sampleIndices (leafCount : nat) : list Z :=
  let n := Z.of_nat leafCount in
  Set_of
    (filter (fun i => ((0 <=? i) && (i <? n))%Z)
       [0; n / 4; n / 2; (3 * n) / 4; Z.max 0 (n - 1)]%Z).

Section Cli.
Context {rt : Runtime}.

Definition usage : Outcome := Exit 1.

(** [Number(v)] on the value of a flag *)
Definition NumberOfFlag (v : option jsstring) : JSNumber :=
  match v with
  | Some s => StringToNumber s
  | None => NaN
  end.

(** The chunk-size check of [main]: [true] when the value is refused. *)
Definition invalid_chunk (chunkSize : JSNumber) : bool :=
  negb (Number_isFinite chunkSize) || num_leb chunkSize (Finite 0).

Definition sampledProofs (core : Fingerprint) : result (list SampledProof) :=
  mapM (fun i =>
          p <- merkleProof (leaf_hexes core) i ;;
          Ok {| sp_index := index p;
                sp_leaf_hex := leaf_hex p;
                sp_siblings_hex := siblings_hex p;
                verifies := verifyProof (root (merkle core)) p |})
       (sampleIndices (length (leaf_hexes core))).

Definition manifest_of (w : World) (filePath : jsstring) (size : nat) : JSON :=
  JObj [
    (lit "schema", JStr (lit "resethiq.manifest.v1"));
    (lit "engine", JObj [
       (lit "name", JStr (lit "Resethiq Integrity Engine"));
       (lit "version", JStr (lit "0.1.0"))]);
    (lit "run", JObj [
       (lit "run_id", JStr (randomUUID w));
       (lit "created_at", JStr (now_ISO w))]);
    (lit "subject", JObj [
       (lit "filename", JStr (path_basename w filePath));
       (lit "bytes", JNum (ofZ (Z.of_nat size)))]);
    (lit "environment", JObj [
       (lit "node", JStr (process_version w));
       (lit "platform", JStr (process_platform w));
       (lit "arch", JStr (process_arch w))])
  ].

Definition file_digests_json (d : FileDigests) : JSON :=
  JObj [(lit "blake2b_512", JStr (blake2b_512 d));
        (lit "sha512", JStr (sha512_hex d))].

Definition merkle_json (m : MerkleCommitment) : JSON :=
  JObj [(lit "algorithm", JStr (algorithm m));
        (lit "root", JStr (root m));
        (lit "leaf_count", JNum (ofZ (Z.of_nat (mc_leaf_count m))));
        (lit "chunk_size", JNum (Finite (chunk_size m)))].

Definition signedPayload_of (manifest_sha512 : jsstring) (core : Fingerprint) : JSON :=
  JObj [(lit "schema", JStr (lit "resethiq.signed_payload.v1"));
        (lit "manifest_sha512", JStr manifest_sha512);
        (lit "file_digests", file_digests_json (file_digests core));
        (lit "merkle", merkle_json (merkle core))].

(** [signEd25519(privateKeyPem, message)] of core/sign *)
Definition signEd25519 (privateKeyPem : jsstring) (message : Buffer) : result jsstring :=
  s <- crypto_sign message privateKeyPem ;; Ok (base64_encode s).

(** The attest branch from the sampling on, given the fingerprint. *)
Definition attest_core (w : World) (filePath outDir : jsstring)
    (keyDir : option jsstring) (size : nat) (core : Fingerprint) : result Outcome :=
  sampledProofs <- sampledProofs core ;;
  let manifest := manifest_of w filePath size in
  let manifest_sha512 := sha512Hex (JSON_stringify manifest) in
  let signedPayload := signedPayload_of manifest_sha512 core in
  let signed_message_sha512 := sha512Hex (JSON_stringify signedPayload) in
  kp <- match keyDir with
        | Some dir => loadOrCreateEd25519Keypair w dir
        | None => Throw TypeError
        end ;;
  signature_b64 <- signEd25519 (privateKeyPem kp) (utf8 (JSON_stringify signedPayload)) ;;
  let attestation :=
    {| schema := lit "resethiq.attestation.v1";
       manifest := manifest;
       claims := signedPayload;
       proofs := {| proofs_type := lit "merkle_inclusion_v1";
                    merkle_root := root (merkle core);
                    proofs_algorithm := lit "blake2b512";
                    sampled := sampledProofs |};
       signature := {| sig_algorithm := lit "ed25519";
                       public_key_pem := publicKeyPem kp;
                       signed_message_sha512 := signed_message_sha512;
                       signature_b64 := signature_b64 |} |} in
  let outPath := path_join w outDir (lit "attestation.json") in
  _ <- writeFile w outPath attestation ;;
  _ <- renderAttestationPDF w outPath (path_join w outDir (lit "report.pdf")) ;;
  Ok (Completed (AttestOutput outPath attestation)).

(** The read stream of a path: a missing file is a stream that ends in
    an error. *)
Definition open_file (w : World) (filePath : jsstring) : InputFile :=
  match files w filePath with
  | Some file => file
  | None => {| is_file := false; file_size := 0; data_events := [];
               stream_error := Some (Error (lit "ENOENT")) |}
  end.

(** The body of [main], exceptions included. *)
Definition main_body (fuel : nat) (w : World) (args : list jsstring)
    : option (result Outcome) :=
  match nth_error args 0 with
  | None | Some [] => Some (Ok usage)
  | Some cmd =>
      if str_eqb cmd (lit "verify") then
        match getFlag args (lit "--bundle") None, getFlag args (lit "--file") None with
        | Some ((_ :: _) as bundlePath), Some ((_ :: _) as filePath) =>
            match verifyBundle fuel (bundles w bundlePath) (open_file w filePath) with
            | None => None
            | Some (Throw e) => Some (Throw e)
            | Some (Ok res) => Some (Ok (Exit (if ok res then 0 else 3)))
            end
        | _, _ => Some (Ok usage)
        end
      else
        match nth_error args 1 with
        | None | Some [] => Some (Ok usage)
        | Some filePath =>
            let chunkSize :=
              NumberOfFlag (getFlag args (lit "--chunk") (Some (lit "4194304"))) in
            if invalid_chunk chunkSize then Some (Ok (Exit 1))
            else
              let q := match chunkSize with Finite q => q | _ => 0 end in
              if str_eqb cmd (lit "hash") then
                match files w filePath with
                | None => Some (Throw (Error (lit "ENOENT")))
                | Some file =>
                    match streamDigestsAndLeaves fuel file q with
                    | None => None
                    | Some (Throw e) => Some (Throw e)
                    | Some (Ok r) => Some (Ok (Completed (HashOutput filePath r)))
                    end
                end
              else if str_eqb cmd (lit "attest") then
                let keyDir := getFlag args (lit "--keys") (Some (lit "keys")) in
                match
                  match getFlag args (lit "--out") (Some (lit "out")) with
                  | Some outDir => _ <- mkdir w outDir ;; Ok outDir
                  | None => Throw TypeError
                  end
                with
                | Throw e => Some (Throw e)
                | Ok outDir =>
                    match files w filePath with
                    | None => Some (Throw (Error (lit "ENOENT")))
                    | Some file =>
                        match streamDigestsAndLeaves fuel file q with
                        | None => None
                        | Some (Throw e) => Some (Throw e)
                        | Some (Ok core) =>
                            Some (attest_core w filePath outDir keyDir (file_size file) core)
                        end
                    end
                end
              else Some (Ok usage)
        end
  end.

(** [main().catch(e => process.exit(2))] *)
Definition main (fuel : nat) (w : World) (args : list jsstring) : option Outcome :=
  match main_body fuel w args with
  | None => None
  | Some (Ok out) => Some out
  | Some (Throw _) => Some (Exit 2)
  end.

End Cli.
(** ** The attestation document as the attest branch writes it *)

Definition sampled_json (p : SampledProof) : JSON :=
  JObj [(lit "index", JNum (ofZ (sp_index p)));
        (lit "leaf_hex", JStr (sp_leaf_hex p));
        (lit "siblings_hex", JArr (map JStr (sp_siblings_hex p)));
        (lit "verifies", JBool (verifies p))].

(** The object literal [attestation] of the attest branch, which
    [JSON.stringify] writes to [attestation.json]. *)
Definition attestation_json (a : Attestation) : JSON :=
  JObj [
    (lit "schema", JStr (schema a));
    (lit "manifest", manifest a);
    (lit "canonicalization", JObj [
       (lit "spec_id", JStr (lit "cdr-stream-v1"));
       (lit "description",
        JStr (lit "Deterministic fixed-size chunking over byte-stream; schema-aware canonicalization comes in v2."))]);
    (lit "claims", claims a);
    (lit "proofs", JObj [
       (lit "type", JStr (proofs_type (proofs a)));
       (lit "merkle_root", JStr (merkle_root (proofs a)));
       (lit "algorithm", JStr (proofs_algorithm (proofs a)));
       (lit "sampled", JArr (map sampled_json (sampled (proofs a))))]);
    (lit "signature", JObj [
       (lit "algorithm", JStr (sig_algorithm (signature a)));
       (lit "public_key_pem", JStr (public_key_pem (signature a)));
       (lit "signed_message_sha512", JStr (signed_message_sha512 (signature a)));
       (lit "signature_b64", JStr (signature_b64 (signature a)))])
  ].
(** ** Row-chunked Merkle attestation (src/integrity/engines/e2_merkle.ts) *)

(** A parsed CSV row: an array of cells, or an object from column names
    to cells. [None] is a cell that is [undefined] or [null]. *)
Inductive CsvRow : Type :=
| ArrayRow (cells : list (option jsstring))
| ObjectRow (columns : list (jsstring * option jsstring)).

Definition unit_separator : ascii := ascii_of_N 31.

(** [v ?? ""] *)
Definition cell_text (v : option jsstring) : jsstring :=
  match v with Some s => s | None => [] end.

Fixpoint row_get (k : jsstring) (columns : list (jsstring * option jsstring))
    : option jsstring :=
  match columns with
  | [] => None
  | (k', v) :: rest => if str_eqb k' k then v else row_get k rest
  end.

(** [normalizeRow(row)] (and [rowToStableString] of the contamination
    engine, which has the same body). *)
Definition normalizeRow (row : CsvRow) : jsstring :=
  match row with
  | ArrayRow cells => join [unit_separator] (map cell_text cells)
  | ObjectRow columns =>
      let keys := sort_keys (map fst columns) in
      join [unit_separator]
        (map (fun k => k ++ lit "=" ++ cell_text (row_get k columns)) keys)
  end.

Record MerkleLeaf : Type := {
  chunk_id : nat;
  start_row : Z;
  end_row : Z;
  leaf_hash : jsstring
}.

(** The locals that the row callback of [runEngine2MerkleAttest] updates. *)
Record ChunkingState : Type := {
  cs_leaves : list MerkleLeaf;
  cs_rows : Z;
  cs_currentChunkStart : Z;
  cs_currentChunkRows : list jsstring;
  cs_chunk_id : nat
}.

Definition chunking_start : ChunkingState :=
  {| cs_leaves := []; cs_rows := 0; cs_currentChunkStart := 0;
     cs_currentChunkRows := []; cs_chunk_id := 0 |}.

Section Engine2.
Context {rt : Runtime}.

(** [merkleParent(aHex, bHex)] *)
Definition merkleParent (aHex bHex : jsstring) : jsstring :=
  hashHex (fromHex aHex ++ fromHex bHex).

(** The [for] loop of [buildMerkleRoot]; the last node of an odd level is
    paired with itself. *)
Fixpoint nextLevelHex (level : list jsstring) : list jsstring :=
  match level with
  | [] => []
  | [lft] => [merkleParent lft lft]
  | lft :: rgt :: rest => merkleParent lft rgt :: nextLevelHex rest
  end.

Lemma nextLevelHex_length_lt (level : list jsstring) :
  (1 < length level -> length (nextLevelHex level) < length level)%nat.
Proof.
  induction level as [level IH] using (well_founded_induction
    (Wf_nat.well_founded_ltof _ (@length jsstring))).
  destruct level as [|a [|b rest]]; simpl; try lia.
  intros _. destruct rest as [|c [|d rest']]; simpl; try lia.
  assert (Hlt : Wf_nat.ltof _ (@length jsstring) (c :: d :: rest') (a :: b :: c :: d :: rest'))
    by (unfold Wf_nat.ltof; simpl; lia).
  specialize (IH _ Hlt). simpl in IH. lia.
Qed.

Equations rootLoopHex (level : list jsstring) : list jsstring by wf (length level) lt :=
  rootLoopHex level with lt_dec 1 (length level) := {
    | left Hgt => rootLoopHex (nextLevelHex level)
    | right _ => level }.
Next Obligation. now apply nextLevelHex_length_lt. Qed.

(** [buildMerkleRoot(leafHashesHex)] *)
Definition buildMerkleRoot (leafHashesHex : list jsstring) : jsstring :=
  match leafHashesHex with
  | [] => hashHex (utf8 (lit "EMPTY"))
  | _ => nth 0 (rootLoopHex leafHashesHex) []
  end.

(** [finalizeChunk(start_row, end_row)]: the leaf is the SHA-256, in hex,
    of the SHA-256 of the rows joined by line feeds. *)
Definition finalizeChunk (st : ChunkingState) (start_row end_row : Z) : ChunkingState :=
  let payload := join [newline] (cs_currentChunkRows st) in
  let leaf_hash := hashHex (sha256 (utf8 payload)) in
  {| cs_leaves := cs_leaves st ++
                  [{| chunk_id := cs_chunk_id st; start_row := start_row;
                      end_row := end_row; leaf_hash := leaf_hash |}];
     cs_rows := cs_rows st;
     cs_currentChunkStart := cs_currentChunkStart st;
     cs_currentChunkRows := [];
     cs_chunk_id := S (cs_chunk_id st) |}.

(** The [onRow(row, idx)] callback. *)
Definition onRow (chunk_rows : Q) (st : ChunkingState) (row : CsvRow) (idx : Z)
    : ChunkingState :=
  let st1 :=
    {| cs_leaves := cs_leaves st; cs_rows := idx + 1;
       cs_currentChunkStart := cs_currentChunkStart st;
       cs_currentChunkRows := cs_currentChunkRows st ++ [normalizeRow row];
       cs_chunk_id := cs_chunk_id st |} in
  if Qle_bool chunk_rows (inject_Z (Z.of_nat (length (cs_currentChunkRows st1)))) then
    let st2 := finalizeChunk st1 (cs_currentChunkStart st1) idx in
    {| cs_leaves := cs_leaves st2; cs_rows := cs_rows st2;
       cs_currentChunkStart := idx + 1;
       cs_currentChunkRows := cs_currentChunkRows st2;
       cs_chunk_id := cs_chunk_id st2 |}
  else st1.

(** [streamCsvRows] hands the rows to the callback with the running
    index, starting at [idx]. *)
Fixpoint feedRows (chunk_rows : Q) (st : ChunkingState) (rows : list CsvRow) (idx : Z)
    : ChunkingState :=
  match rows with
  | [] => st
  | row :: rest => feedRows chunk_rows (onRow chunk_rows st row idx) rest (idx + 1)
  end.

(** The leaves, the row count and the root of [runEngine2MerkleAttest]. *)
Definition chunkRows (chunk_rows : Q) (rows : list CsvRow) : list MerkleLeaf * Z * jsstring :=
  let st := feedRows chunk_rows chunking_start rows 0 in
  let st' :=
    if (0 <? length (cs_currentChunkRows st))%nat
    then finalizeChunk st (cs_currentChunkStart st) (cs_rows st - 1)
    else st in
  (cs_leaves st', cs_rows st', buildMerkleRoot (map leaf_hash (cs_leaves st'))).

End Engine2.

(** ** Proof sampler (engine 8, src/unnamed/part_003) *)

Module ProofSampler.

(** [out.add(d)] on a [Set] kept in insertion order *)
Definition Set_add (d : Z) (out : list Z) : list Z :=
  if existsb (Z.eqb d) out then out else out ++ [d].

(** The [while (out.size < target)] loop. [draws] are the successive
    values of [Math.floor(Math.random() * n)]; [None]: the loop asks for
    a draw after the last one of [draws]. *)
Fixpoint sampleLoop (target : Q) (out : list Z) (draws : list Z) : option (list Z) :=
  if negb (Qle_bool target (inject_Z (Z.of_nat (length out)))) then
    match draws with
    | [] => None
    | d :: rest => sampleLoop target (Set_add d out) rest
    end
  else Some out.

(** [xs.sort((a, b) => a - b)] *)
Fixpoint insert_number (x : Z) (l : list Z) : list Z :=
  match l with
  | [] => [x]
  | y :: rest => if (x <? y)%Z then x :: l else y :: insert_number x rest
  end.

Definition sort_numbers (l : list Z) : list Z := fold_right insert_number [] l.

(** [sampleIndices(n, k)] *)
Definition sampleIndices (n : Z) (k : Q) (draws : list Z) : option (list Z) :=
  if (n <=? 0)%Z then Some []
  else
    let target := if Qle_bool k (inject_Z n) then k else inject_Z n in
    match sampleLoop target [] draws with
    | Some out => Some (sort_numbers out)
    | None => None
    end.

Section Sampler.
Context {rt : Runtime}.

(** The [idxs.map(...)] of [runEngine8ProofSampler]. *)
Definition sampled (leafHex : list jsstring) (rootHex : jsstring) (idxs : list Z)
    : result (list SampledProof) :=
  mapM (fun i =>
          p <- merkleProof leafHex i ;;
          Ok {| sp_index := i;
                sp_leaf_hex := leaf_hex p;
                sp_siblings_hex := siblings_hex p;
                verifies := verifyProof rootHex p |})
       idxs.

(** The object literal [bundle], which is written to [e8.proofs.json]. *)
Definition proofBundle (created_at run_id rootHex : jsstring)
    (proofs : list SampledProof) : JSON :=
  JObj [(lit "engine", JStr (lit "e8.proofs"));
        (lit "created_at", JStr created_at);
        (lit "run_id", JStr run_id);
        (lit "merkle_root", JStr rootHex);
        (lit "algorithm", JStr (lit "blake2b512"));
        (lit "sampled", JArr (map sampled_json proofs))].

(** [runEngine8ProofSampler] up to the bundle, on the leaves and the root
    of a chunk index. *)
Definition runEngine8ProofSampler (created_at run_id : jsstring)
    (leafHex : list jsstring) (rootHex : jsstring) (sampleCount : Q)
    (draws : list Z) : option (result JSON) :=
  match sampleIndices (Z.of_nat (length leafHex)) sampleCount draws with
  | None => None
  | Some idxs =>
      Some (proofs <- sampled leafHex rootHex idxs ;;
            Ok (proofBundle created_at run_id rootHex proofs))
  end.

End Sampler.
End ProofSampler.

(** ** Trust score (engine 7, src/integrity/engines/e7_trust.ts) and the
    risk level of the policy scan (engine 5) *)

Module Policy.

(** The [dataset_risk] of [runEngine5Policy], from the number of columns
    at risk HIGH and the number of hits. *)
Definition dataset_risk (highCols hits : nat) : jsstring :=
  if (1 <=? highCols)%nat then lit "HIGH"
  else if (5 <=? hits)%nat then lit "MEDIUM"
  else lit "LOW".

(** The object literal [report], which is written to [e5.policy.json]. *)
Definition policyReport (created_at run_id input_file : jsstring)
    (rows hits highCols : nat) (column_risk : JSON) (notes : list jsstring) : JSON :=
  JObj [(lit "engine", JStr (lit "e5.policy"));
        (lit "created_at", JStr created_at);
        (lit "run_id", JStr run_id);
        (lit "input_file", JStr input_file);
        (lit "scan", JObj [(lit "rows_scanned", JNum (ofZ (Z.of_nat rows)));
                           (lit "pii_hits_total", JNum (ofZ (Z.of_nat hits)))]);
        (lit "column_risk", column_risk);
        (lit "dataset_risk", JStr (dataset_risk highCols hits));
        (lit "notes", JArr (map JStr notes))].

End Policy.

Module Trust.

Inductive Severity : Type := LOW | MED | HIGH | CRITICAL.
Inductive Verdict : Type := PASS | WARN | FAIL.

(** [x?.k] on a parsed value or [undefined] *)
Definition chain (x : option JSON) (k : jsstring) : option JSON :=
  match x with
  | Some (JObj members) => lookup k members
  | _ => None
  end.

(** [v ?? d] *)
Definition coalesce (v : option JSON) (d : JSON) : JSON :=
  match v with
  | None | Some JNull => d
  | Some x => x
  end.

(** [v === true] *)
Definition is_true (v : option JSON) : bool :=
  match v with Some (JBool true) => true | _ => false end.

(** The truth value of a parsed value in a condition *)
Definition js_truthy (v : JSON) : bool :=
  match v with
  | JNull => false
  | JBool b => b
  | JNum (Finite q) => negb (Qeq_bool q 0)
  | JNum NaN => false
  | JNum _ => true
  | JStr s => truthy s
  | _ => true
  end.

Section TrustScore.
Context {rt : Runtime}.

(** [v > 0] *)
Definition greater_than_zero (v : JSON) : bool :=
  match ToNumber (Some v) with
  | Finite q => negb (Qle_bool q 0)
  | PosInfinity => true
  | _ => false
  end.

(** [deriveSeverity(args)]; an absent field is [None]. *)
Definition deriveSeverity (replayVerdict : option JSON) (proofsAllValid : bool)
    (policyRisk piiHits : option JSON) : Severity :=
  if str_is (lit "MISMATCH") replayVerdict then CRITICAL
  else if negb proofsAllValid then CRITICAL
  else
    let pii := coalesce piiHits (JNum (Finite 0)) in
    let pr := coalesce policyRisk (JStr (lit "LOW")) in
    if str_is (lit "HIGH") (Some pr) && greater_than_zero pii then HIGH
    else if str_is (lit "MED") (Some pr) then MED
    else LOW.

Record TrustResult : Type := {
  reproducibility : Z;
  merkle_proofs : Z;
  policy : Z;
  severity : Severity;
  verdict : Verdict
}.

(** [runEngine7Trust] up to the verdict. [e3v] is [None] without a
    verdict path; [e5] and [e8] are the parsed reports. The weighted sum
    is a floating-point value: its test [weighted >= 85] is the input
    [weighted_at_least_85]. *)
Definition runEngine7Trust (e3v : option JSON) (e5 e8 : JSON)
    (weighted_at_least_85 : bool) : TrustResult :=
  let e3_truthy := match e3v with Some v => js_truthy v | None => false end in
  let reproducibility :=
    if e3_truthy
    then (if str_is (lit "MATCH") (chain e3v (lit "verdict")) then 100 else 40)%Z
    else 70%Z in
  let merkle_proofs :=
    if is_true (chain (Some e8) (lit "all_verified")) then 100%Z else 20%Z in
  let policy :=
    if str_is (lit "HIGH") (chain (Some e5) (lit "dataset_risk")) then 30%Z
    else if str_is (lit "MED") (chain (Some e5) (lit "dataset_risk")) then 60%Z
    else 95%Z in
  let severity :=
    deriveSeverity
      (Some (coalesce (chain e3v (lit "verdict")) JNull))
      (is_true (chain (Some e8) (lit "all_verified")))
      (chain (Some e5) (lit "dataset_risk"))
      (Some (coalesce (chain (chain (Some e5) (lit "scan")) (lit "pii_hits_total"))
                      (JNum (Finite 0)))) in
  let verdict :=
    match severity with
    | CRITICAL => FAIL
    | HIGH => WARN
    | _ => if weighted_at_least_85 then PASS else WARN
    end in
  {| reproducibility := reproducibility;
     merkle_proofs := merkle_proofs;
     policy := policy;
     severity := severity;
     verdict := verdict |}.

End TrustScore.
End Trust.

(** ** Repeated rows (engine 4, src/integrity/engines/e4_contamination.ts) *)

Module Contamination.

(** A [Map<string, number>], its entries in insertion order. *)
Definition Counts := list (jsstring * Z).

Fixpoint map_get (k : jsstring) (m : Counts) : option Z :=
  match m with
  | [] => None
  | (k', v) :: rest => if str_eqb k' k then Some v else map_get k rest
  end.

Definition map_has (k : jsstring) (m : Counts) : bool :=
  match map_get k m with Some _ => true | None => false end.

(** [m.set(k, v)]: a key that is present keeps its place. *)
Fixpoint map_set (k : jsstring) (v : Z) (m : Counts) : Counts :=
  match m with
  | [] => [(k, v)]
  | (k', v') :: rest =>
      if str_eqb k' k then (k', v) :: rest else (k', v') :: map_set k v rest
  end.

Fixpoint map_delete (k : jsstring) (m : Counts) : Counts :=
  match m with
  | [] => []
  | (k', v') :: rest =>
      if str_eqb k' k then rest else (k', v') :: map_delete k rest
  end.

(** The loop [for (const [k, v] of counts.entries())]: every entry is
    visited once, and each visit deletes or updates the entry it is at. *)
Definition decrement_all (m : Counts) : Counts :=
  fold_left (fun acc kv =>
               let nv := (snd kv - 1)%Z in
               if (nv <=? 0)%Z then map_delete (fst kv) acc
               else map_set (fst kv) nv acc)
            m m.

Record HeavyHitters : Type := {
  counts : Counts;
  rows : Z;
  approxUnique : Z
}.

Definition heavy_start : HeavyHitters :=
  {| counts := []; rows := 0; approxUnique := 0 |}.

Section Engine4.
Context {rt : Runtime}.

(** [rowToStableString(row)]: the body of [normalizeRow], word for word. *)
Definition rowToStableString (row : CsvRow) : jsstring := normalizeRow row.

(** [sha256Hex(s)] *)
Definition sha256Hex (s : jsstring) : jsstring := toHex (sha256 (utf8 s)).

(** The [onRow(row, idx)] callback of [runEngine4Contamination]. *)
Definition onRow (K : Q) (st : HeavyHitters) (row : CsvRow) (idx : Z) : HeavyHitters :=
  let hx := sha256Hex (rowToStableString row) in
  if map_has hx (counts st) then
    {| counts := map_set hx (match map_get hx (counts st) with
                             | Some v => v | None => 0 end + 1)%Z (counts st);
       rows := idx + 1; approxUnique := approxUnique st |}
  else if negb (Qle_bool K (inject_Z (Z.of_nat (length (counts st))))) then
    {| counts := map_set hx 1 (counts st);
       rows := idx + 1; approxUnique := approxUnique st + 1 |}
  else
    {| counts := decrement_all (counts st);
       rows := idx + 1; approxUnique := approxUnique st |}.

Fixpoint feedRows (K : Q) (st : HeavyHitters) (rs : list CsvRow) (idx : Z)
    : HeavyHitters :=
  match rs with
  | [] => st
  | row :: rest => feedRows K (onRow K st row idx) rest (idx + 1)
  end.

(** [rows], [approxUnique], [duplicateEst] and the final counts. *)
Definition scanRows (K : Q) (rs : list CsvRow) : HeavyHitters * Z :=
  let st := feedRows K heavy_start rs 0 in
  (st, Z.max 0 (rows st - approxUnique st)).

End Engine4.
End Contamination.

(** ** Replay verdict (engine 3, second part of src/integrity/engines/e2_merkle.ts) *)

Module Repro.

(** [left === right] on two values that come from different documents:
    primitives are compared by value, and two objects or arrays are never
    the same object. [None] is [undefined]. *)
Definition strict_equal (a b : option JSON) : bool :=
  match a, b with
  | None, None => true
  | Some JNull, Some JNull => true
  | Some (JBool x), Some (JBool y) => Bool.eqb x y
  | Some (JNum (Finite x)), Some (JNum (Finite y)) => Qeq_bool x y
  | Some (JNum PosInfinity), Some (JNum PosInfinity) => true
  | Some (JNum NegInfinity), Some (JNum NegInfinity) => true
  | Some (JStr x), Some (JStr y) => str_eqb x y
  | _, _ => false
  end.

(** The fields of [manifest.dataset] that a replay compares. *)
Record Dataset : Type := {
  merkle_root : option JSON;
  input_digest_sha256 : jsstring;
  e2_chunk_index_hash_sha256 : jsstring;
  rows : option JSON;
  chunk_rows : JSON;
  leaf_count : nat
}.

(** [manifest.dataset[field]] *)
Definition left_value (d : Dataset) (field : jsstring) : option JSON :=
  if str_eqb field (lit "merkle_root") then merkle_root d
  else if str_eqb field (lit "input_digest_sha256") then Some (JStr (input_digest_sha256 d))
  else if str_eqb field (lit "e2_chunk_index_hash_sha256")
       then Some (JStr (e2_chunk_index_hash_sha256 d))
  else if str_eqb field (lit "rows") then rows d
  else if str_eqb field (lit "chunk_rows") then Some (chunk_rows d)
  else if str_eqb field (lit "leaf_count") then Some (JNum (ofZ (Z.of_nat (leaf_count d))))
  else None.

(** [other.dataset], which the first [cmp] evaluates: a [TypeError] when
    [other] is [null] or has no [dataset]. *)
Definition other_dataset (other : JSON) : result JSON :=
  d <- get other (lit "dataset") ;;
  match d with
  | None | Some JNull => Throw TypeError
  | Some x => Ok x
  end.

Definition compared_fields : list jsstring :=
  [lit "merkle_root"; lit "input_digest_sha256"; lit "e2_chunk_index_hash_sha256";
   lit "rows"; lit "chunk_rows"; lit "leaf_count"].

(** One call [cmp(field)]: the outcome, and the entry it adds to [delta]
    when the two sides differ. A side that is [undefined] is left out when
    the entry is written. *)
Definition cmp (d : Dataset) (other_d : JSON) (field : jsstring)
    : bool * list (jsstring * JSON) :=
  let lft := left_value d field in
  let rgt := match other_d with JObj members => lookup field members | _ => None end in
  let side (name : jsstring) (v : option JSON) :=
    match v with Some x => [(name, x)] | None => [] end in
  if strict_equal lft rgt then (true, [])
  else (false, [(field, JObj (side (lit "left") lft ++ side (lit "right") rgt))]).

(** The object literal [verdict], as [JSON.stringify] writes it to
    [e3.replay_verdict.json]: [delta] is [undefined], and so left out, on
    a match. *)
Definition replayVerdict (created_at run_id against_run_id : jsstring)
    (d : Dataset) (other : JSON) : result JSON :=
  other_d <- other_dataset other ;;
  let results := map (cmp d other_d) compared_fields in
  let compared := map (fun fr => (fst fr, JBool (fst (snd fr))))
                      (combine compared_fields results) in
  let delta := flat_map snd results in
  let every := forallb fst results in
  let verdictValue := if every then lit "MATCH" else lit "MISMATCH" in
  Ok (JObj ([(lit "engine", JStr (lit "e3.replay_verdict"));
             (lit "created_at", JStr created_at);
             (lit "run_id", JStr run_id);
             (lit "against_run_id", JStr against_run_id);
             (lit "verdict", JStr verdictValue);
             (lit "compared", JObj compared)]
            ++ (if every then [] else [(lit "delta", JObj delta)]))).

End Repro.

(** ** The trust report and the evidence bundle (engine 9, src/unnamed/part_004) *)

Module TrustReport.

Definition severity_string (s : Trust.Severity) : jsstring :=
  match s with
  | Trust.LOW => lit "LOW"
  | Trust.MED => lit "MED"
  | Trust.HIGH => lit "HIGH"
  | Trust.CRITICAL => lit "CRITICAL"
  end.

Definition verdict_string (v : Trust.Verdict) : jsstring :=
  match v with
  | Trust.PASS => lit "PASS"
  | Trust.WARN => lit "WARN"
  | Trust.FAIL => lit "FAIL"
  end.

(** The object literal [result] of [runEngine7Trust], which is written to
    [e7.trust_score.json]. [score] and [contamination] are the rounded
    floating-point values. *)
Definition trustResult (created_at run_id reasoning : jsstring)
    (score contamination : JSNumber) (t : Trust.TrustResult) : JSON :=
  JObj [(lit "engine", JStr (lit "e7.trust"));
        (lit "created_at", JStr created_at);
        (lit "run_id", JStr run_id);
        (lit "score", JNum score);
        (lit "verdict", JStr (verdict_string (Trust.verdict t)));
        (lit "severity", JStr (severity_string (Trust.severity t)));
        (lit "components",
         JObj [(lit "reproducibility", JNum (ofZ (Trust.reproducibility t)));
               (lit "merkle_proofs", JNum (ofZ (Trust.merkle_proofs t)));
               (lit "contamination", JNum contamination);
               (lit "policy", JNum (ofZ (Trust.policy t)))]);
        (lit "reasoning", JStr reasoning)].

End TrustReport.

Module EvidenceBundle.

(** The names of the files and the parsed documents that the bundle
    points to and embeds. The verdict of engine 3 and the checkpoint of
    engine 6 are optional. *)
Record Inputs : Type := {
  e2_name : jsstring; e2 : JSON;
  e3_manifest_name : jsstring; e3m : JSON;
  e3_verdict_file : option (jsstring * JSON);
  e4_name : jsstring; e4 : JSON;
  e5_name : jsstring; e5 : JSON;
  e6_file : option (jsstring * JSON);
  e7_name : jsstring; e7 : JSON;
  e8_name : jsstring; e8 : JSON;
  (** the parsed receipts, in the order of [Object.entries(receipt_paths)] *)
  receipts : list (jsstring * JSON)
}.

Definition name_or_null (f : option (jsstring * JSON)) : JSON :=
  match f with Some (name, _) => JStr name | None => JNull end.

Definition document_or_null (f : option (jsstring * JSON)) : JSON :=
  match f with Some (_, doc) => doc | None => JNull end.

Section Engine9.
Context {rt : Runtime}.

(** [String(e7?.verdict ?? "WARN")] *)
Definition verdict_of (e7 : JSON) : jsstring :=
  element_string (Trust.coalesce (Trust.chain (Some e7) (lit "verdict")) (JStr (lit "WARN"))).

(** [Number(e7?.score ?? 0)] *)
Definition trust_score_of (e7 : JSON) : JSNumber :=
  ToNumber (Some (Trust.coalesce (Trust.chain (Some e7) (lit "score")) (JNum (Finite 0)))).

(** The object literal [bundleCore]. *)
Definition bundleCore (created_at run_id : jsstring) (i : Inputs)
    : list (jsstring * JSON) :=
  [(lit "engine", JStr (lit "e9.bundle"));
   (lit "created_at", JStr created_at);
   (lit "run_id", JStr run_id);
   (lit "verdict", JStr (verdict_of (e7 i)));
   (lit "trust_score", JNum (trust_score_of (e7 i)));
   (lit "pointers",
    JObj [(lit "e2_chunk_index", JStr (e2_name i));
          (lit "e3_manifest", JStr (e3_manifest_name i));
          (lit "e3_verdict", name_or_null (e3_verdict_file i));
          (lit "e4_contamination", JStr (e4_name i));
          (lit "e5_policy", JStr (e5_name i));
          (lit "e6_streaming", name_or_null (e6_file i));
          (lit "e7_trust", JStr (e7_name i));
          (lit "e8_proofs", JStr (e8_name i))]);
   (lit "artifacts",
    JObj [(lit "e2", e2 i);
          (lit "e3_manifest", e3m i);
          (lit "e3_verdict", document_or_null (e3_verdict_file i));
          (lit "e4", e4 i);
          (lit "e5", e5 i);
          (lit "e6", document_or_null (e6_file i));
          (lit "e7", e7 i);
          (lit "e8", e8 i)]);
   (lit "receipts", JObj (receipts i))].

(** The object [bundle]: [{ ...bundleCore, bundle_hash }]. *)
Definition runEngine9Bundle (created_at run_id : jsstring) (i : Inputs) : JSON :=
  let core := bundleCore created_at run_id i in
  let bundle_hash := hashJSON (JObj core) in
  JObj (set_member (lit "bundle_hash") (JStr bundle_hash) (spread [] core)).

End Engine9.
End EvidenceBundle.

(** ** Facts about strings *)

Lemma str_eqb_refl (s : jsstring) : str_eqb s s = true.
Proof.
  induction s as [|c s IH]; simpl; [reflexivity|].
  now rewrite Ascii.eqb_refl, IH.
Qed.

Lemma str_eqb_eq (a b : jsstring) : str_eqb a b = true <-> a = b.
Proof.
  split; [|intros ->; apply str_eqb_refl].
  revert b; induction a as [|x a IH]; intros [|y b]; simpl; try discriminate; auto.
  rewrite andb_true_iff, Ascii.eqb_eq. intros [-> E]. f_equal. now apply IH.
Qed.

Lemma str_eqb_neq (a b : jsstring) : str_eqb a b = false <-> a <> b.
Proof.
  rewrite <- str_eqb_eq. destruct (str_eqb a b); split; congruence.
Qed.

Lemma code_inj (x y : ascii) : code x = code y -> x = y.
Proof.
  unfold code. intros E.
  rewrite <- (ascii_N_embedding x), <- (ascii_N_embedding y). now rewrite E.
Qed.

Lemma str_leb_total (a b : jsstring) : str_leb a b = true \/ str_leb b a = true.
Proof.
  revert b; induction a as [|x a IH]; intros [|y b]; simpl; auto.
  destruct (code x <? code y)%N eqn:Exy; auto.
  destruct (code y <? code x)%N eqn:Eyx; auto.
Qed.

Lemma str_leb_antisym (a b : jsstring) :
  str_leb a b = true -> str_leb b a = true -> a = b.
Proof.
  revert b; induction a as [|x a IH]; intros [|y b]; simpl; try discriminate; auto.
  destruct (code x <? code y)%N eqn:Exy, (code y <? code x)%N eqn:Eyx;
    try discriminate.
  - apply N.ltb_lt in Exy, Eyx. lia.
  - intros H1 H2. apply N.ltb_ge in Exy, Eyx.
    f_equal; [apply code_inj; lia | now apply IH].
Qed.

Lemma str_leb_trans (a b c : jsstring) :
  str_leb a b = true -> str_leb b c = true -> str_leb a c = true.
Proof.
  revert b c; induction a as [|x a IH]; intros [|y b] [|z c]; simpl;
    try discriminate; auto.
  destruct (code x <? code y)%N eqn:Exy, (code y <? code x)%N eqn:Eyx,
           (code y <? code z)%N eqn:Eyz, (code z <? code y)%N eqn:Ezy,
           (code x <? code z)%N eqn:Exz, (code z <? code x)%N eqn:Ezx;
    try discriminate; auto;
    repeat match goal with
           | H : (_ <? _)%N = true |- _ => apply N.ltb_lt in H
           | H : (_ <? _)%N = false |- _ => apply N.ltb_ge in H
           end; try lia.
  apply IH.
Qed.

Definition str_le (a b : jsstring) : Prop := str_leb a b = true.

Lemma insert_sorted_perm (k : jsstring) (l : list jsstring) :
  Permutation (k :: l) (insert_sorted k l).
Proof.
  induction l as [|x l IH]; simpl; [reflexivity|].
  destruct (str_leb k x); [reflexivity|].
  rewrite perm_swap. now apply perm_skip.
Qed.

Lemma sort_keys_perm (l : list jsstring) : Permutation l (sort_keys l).
Proof.
  induction l as [|x l IH]; simpl; [reflexivity|].
  rewrite <- insert_sorted_perm. now apply perm_skip.
Qed.

Lemma insert_sorted_sorted (k : jsstring) (l : list jsstring) :
  StronglySorted str_le l -> StronglySorted str_le (insert_sorted k l).
Proof.
  induction 1 as [|x l Hs IH Hall]; simpl.
  - repeat constructor.
  - destruct (str_leb k x) eqn:E.
    + constructor; [now constructor|].
      constructor; [exact E|].
      eapply Forall_impl; [|exact Hall].
      intros y Hy. eapply str_leb_trans; eauto.
    + constructor; [exact IH|].
      apply (Permutation_Forall (insert_sorted_perm k l)).
      constructor; [|exact Hall].
      destruct (str_leb_total k x) as [H|H]; [congruence|exact H].
Qed.

Lemma sort_keys_sorted (l : list jsstring) : StronglySorted str_le (sort_keys l).
Proof.
  induction l as [|x l IH]; simpl; [constructor|].
  now apply insert_sorted_sorted.
Qed.

(** A list of strings has one sorted arrangement. *)
Lemma sorted_perm_unique (l1 l2 : list jsstring) :
  StronglySorted str_le l1 -> StronglySorted str_le l2 ->
  Permutation l1 l2 -> l1 = l2.
Proof.
  intros H1; revert l2; induction H1 as [|a l1 Hs1 IH Hall1];
    intros l2 H2 Hperm.
  - now apply Permutation_nil in Hperm.
  - destruct H2 as [|b l2 Hs2 Hall2].
    + symmetry in Hperm. now apply Permutation_nil in Hperm.
    + assert (Hab : a = b).
      { assert (Ha : In a (b :: l2)) by (eapply Permutation_in; [exact Hperm|now left]).
        assert (Hb : In b (a :: l1))
          by (eapply Permutation_in; [symmetry; exact Hperm|now left]).
        destruct Ha as [->|Ha]; [reflexivity|].
        destruct Hb as [->|Hb]; [reflexivity|].
        rewrite Forall_forall in Hall1, Hall2.
        apply str_leb_antisym; [apply Hall1|apply Hall2]; assumption. }
      subst b. f_equal. apply IH; [exact Hs2|].
      eapply Permutation_cons_inv; exact Hperm.
Qed.

Lemma sort_keys_perm_eq (l1 l2 : list jsstring) :
  Permutation l1 l2 -> sort_keys l1 = sort_keys l2.
Proof.
  intros Hperm. apply sorted_perm_unique; try apply sort_keys_sorted.
  rewrite <- !sort_keys_perm. exact Hperm.
Qed.
(** ** Facts about the Merkle engine *)

Section MerkleFacts.
Context {rt : Runtime}.

Lemma fromHex_byte (x : byte) (rest : jsstring) :
  fromHex (hexdigit (Byte.to_N x / 16) :: hexdigit (Byte.to_N x mod 16) :: rest)
  = x :: fromHex rest.
Proof. destruct x; reflexivity. Qed.

Lemma fromHex_toHex (b : Buffer) : fromHex (toHex b) = b.
Proof.
  induction b as [|x b IH]; [reflexivity|].
  unfold toHex in *. cbn [flat_map app].
  now rewrite fromHex_byte, IH.
Qed.

Lemma rootLoop_step (level : Level) :
  rootLoop level =
  if lt_dec 1 (length level) then rootLoop (nextLevel level) else level.
Proof. rewrite rootLoop_equation_1. destruct (lt_dec 1 (length level)); reflexivity. Qed.

Lemma levelsLoop_step (level : Level) :
  levelsLoop level =
  if lt_dec 1 (length level)
  then nextLevel level :: levelsLoop (nextLevel level) else [].
Proof. rewrite levelsLoop_equation_1. destruct (lt_dec 1 (length level)); reflexivity. Qed.

Definition combine (idx : Z) (node sib : Buffer) : Buffer :=
  if (Z.rem idx 2 =? 1)%Z then h (sib ++ node) else h (node ++ sib).

Lemma nextLevel_nth (level : Level) (k : nat) :
  nth_error (nextLevel level) k =
  match nth_error level (2 * k) with
  | None => None
  | Some a =>
      Some (h (a ++ match nth_error level (2 * k + 1) with
                    | Some b => b
                    | None => a
                    end))
  end.
Proof.
  revert level; induction k as [|k IH]; intros [|a [|b rest]]; try reflexivity.
  - simpl. now destruct k.
  - replace (2 * S k)%nat with (S (S (2 * k))) by lia.
    cbn [nextLevel nth_error]. rewrite IH.
    replace (S (S (2 * k)) + 1)%nat with (S (S (2 * k + 1))) by lia.
    reflexivity.
Qed.

Lemma nextLevel_nonempty (level : Level) : level <> [] -> nextLevel level <> [].
Proof. destruct level as [|a [|b rest]]; simpl; congruence. Qed.

(** On leaves the root loop ends on exactly one node, the root: the
    [level[0]] of [merkleRootFromLeafHex] is always there. *)
Lemma rootLoop_singleton (level : Level) :
  level <> [] -> exists r, rootLoop level = [r].
Proof.
  induction level as [level IH] using (well_founded_induction
    (Wf_nat.well_founded_ltof _ (@length Buffer))).
  intros Hne. rewrite rootLoop_step.
  destruct (lt_dec 1 (length level)) as [Hgt|Hle].
  - apply IH; [now apply nextLevel_length_lt|now apply nextLevel_nonempty].
  - destruct level as [|a [|b rest]]; [congruence|eauto|simpl in Hle; lia].
Qed.

(** One level of the tree: the sibling that [merkleProof] records for the
    node at [idx] combines with it, in the orientation [verifyProof] picks
    from the parity of [idx], into the parent at [idx / 2]. *)
Lemma sibling_step (level : Level) (idx : Z) (node : Buffer) :
  (0 <= idx)%Z ->
  at_ level idx = Some node ->
  exists sib,
    nullish (at_ level (if (Z.rem idx 2 =? 1)%Z then idx - 1 else idx + 1)%Z)
            (at_ level idx) = Some sib /\
    at_ (nextLevel level) (idx / 2)%Z = Some (combine idx node sib).
Proof.
  intros Hidx Hnode. unfold at_ in *.
  destruct (idx <? 0)%Z eqn:Hneg; [lia|].
  assert (Hhalf : (idx / 2 <? 0)%Z = false) by (apply Z.ltb_ge, Z.div_pos; lia).
  rewrite Hhalf, nextLevel_nth. unfold combine.
  rewrite Z.rem_mod_nonneg by lia.
  destruct (idx mod 2 =? 1)%Z eqn:Hpar.
  - apply Z.eqb_eq in Hpar.
    assert (Hk : Z.to_nat idx = (2 * Z.to_nat (idx / 2) + 1)%nat).
    { pose proof (Z.div_mod idx 2 ltac:(lia)). lia. }
    assert (Hp : Z.to_nat (idx - 1) = (2 * Z.to_nat (idx / 2))%nat) by lia.
    destruct (idx - 1 <? 0)%Z eqn:Hm; [lia|].
    rewrite Hp. rewrite Hk in Hnode. rewrite Hnode.
    destruct (nth_error level (2 * Z.to_nat (idx / 2))) as [a|] eqn:Ha.
    + exists a. split; reflexivity.
    + exfalso. apply nth_error_None in Ha.
      assert (nth_error level (2 * Z.to_nat (idx / 2) + 1) <> None) by congruence.
      apply nth_error_Some in H. lia.
  - apply Z.eqb_neq in Hpar.
    assert (Hk : Z.to_nat idx = (2 * Z.to_nat (idx / 2))%nat).
    { pose proof (Z.div_mod idx 2 ltac:(lia)).
      pose proof (Z.mod_pos_bound idx 2 ltac:(lia)). lia. }
    assert (Hp : Z.to_nat (idx + 1) = (2 * Z.to_nat (idx / 2) + 1)%nat) by lia.
    destruct (idx + 1 <? 0)%Z eqn:Hm; [lia|].
    rewrite Hp. rewrite Hk in Hnode |- *. rewrite Hnode.
    destruct (nth_error level (2 * Z.to_nat (idx / 2) + 1)) as [b|] eqn:Hb.
    + exists b. split; reflexivity.
    + exists node. split; reflexivity.
Qed.

Lemma siblingsLoop_step (nodes upper : Level) (rest : list Level) (idx : Z) :
  siblingsLoop (nodes :: upper :: rest) idx =
  match nullish (at_ nodes (if (Z.rem idx 2 =? 1)%Z then idx - 1 else idx + 1)%Z)
                (at_ nodes idx) with
  | None => Throw TypeError
  | Some sibling =>
      siblings <- siblingsLoop (upper :: rest) (idx / 2)%Z ;;
      Ok (toHex sibling :: siblings)
  end.
Proof. reflexivity. Qed.

(** The co-path collected over the levels above [level] folds, in
    [verifyProof], to the node that the root loop ends on. *)
Lemma copath_reaches_root (level : Level) :
  forall (idx : Z) (node : Buffer),
    (0 <= idx)%Z ->
    at_ level idx = Some node ->
    exists siblings,
      siblingsLoop (level :: levelsLoop level) idx = Ok siblings /\
      verifyLoop node idx siblings = nth 0 (rootLoop level) [].
Proof.
  induction level as [level IH] using (well_founded_induction
    (Wf_nat.well_founded_ltof _ (@length Buffer))).
  intros idx node Hidx Hnode.
  rewrite levelsLoop_step, rootLoop_step.
  destruct (lt_dec 1 (length level)) as [Hgt|Hle].
  - destruct (sibling_step Hidx Hnode) as (sib & Hsib & Hparent).
    assert (Hlt : Wf_nat.ltof _ (@length Buffer) (nextLevel level) level)
      by (apply nextLevel_length_lt; exact Hgt).
    assert (Hhalf : (0 <= idx / 2)%Z) by (apply Z.div_pos; lia).
    destruct (IH _ Hlt _ _ Hhalf Hparent) as (sibs & Hloop & Hver).
    exists (toHex sib :: sibs). split.
    + rewrite siblingsLoop_step, Hsib, Hloop. reflexivity.
    + cbn [verifyLoop]. rewrite fromHex_toHex. exact Hver.
  - exists []. split; [reflexivity|].
    unfold at_ in Hnode. destruct (idx <? 0)%Z; [discriminate|].
    destruct level as [|a [|b rest]]; simpl in *; try lia.
    + destruct (Z.to_nat idx); discriminate.
    + destruct (Z.to_nat idx) as [|[|n]]; simpl in Hnode; congruence.
Qed.

(** Shared statement behind the proof round trip: for a leaf list and an
    index in range, [merkleProof] returns a proof carrying that index and
    that leaf, and [verifyProof] accepts it against the computed root. *)
Lemma proof_roundtrip (leafHex : list jsstring) (i : Z) :
  (0 <= i < Z.of_nat (length leafHex))%Z ->
  exists siblings,
    merkleProof leafHex i =
      Ok {| index := i; leaf_hex := nth (Z.to_nat i) leafHex [];
            siblings_hex := siblings |} /\
    verifyProof (root_hex (merkleRootFromLeafHex leafHex))
      {| index := i; leaf_hex := nth (Z.to_nat i) leafHex [];
         siblings_hex := siblings |} = true.
Proof.
  intros Hi. unfold merkleProof.
  assert (Hne : leafHex <> []) by (intros ->; simpl in Hi; lia).
  assert (Hlen : (length leafHex =? 0)%nat = false)
    by (destruct leafHex; [congruence|reflexivity]).
  rewrite Hlen.
  assert (Hrange : ((i <? 0) || (Z.of_nat (length leafHex) <=? i))%Z = false).
  { apply orb_false_iff. split; [apply Z.ltb_ge|apply Z.leb_gt]; lia. }
  rewrite Hrange.
  assert (Hnode : at_ (map fromHex leafHex) i
                  = Some (fromHex (nth (Z.to_nat i) leafHex []))).
  { unfold at_. destruct (i <? 0)%Z eqn:Hneg; [lia|].
    rewrite nth_error_map.
    rewrite (nth_error_nth' leafHex []) by lia. reflexivity. }
  destruct (copath_reaches_root (proj1 Hi) Hnode) as (sibs & Hloop & Hver).
  exists sibs.
  assert (Hb : buildLevels leafHex
               = map fromHex leafHex :: levelsLoop (map fromHex leafHex))
    by (destruct leafHex; [congruence|reflexivity]).
  rewrite Hb. unfold Level in *. rewrite Hloop. split; [reflexivity|].
  unfold verifyProof. cbn [leaf_hex index siblings_hex].
  rewrite Hver.
  assert (Hr : root_hex (merkleRootFromLeafHex leafHex)
               = toHex (nth 0 (rootLoop (map fromHex leafHex)) []))
    by (destruct leafHex; [congruence|reflexivity]).
  rewrite Hr. apply str_eqb_refl.
Qed.

End MerkleFacts.

(** ** More facts about the Merkle engine *)

Section MerkleMore.
Context {rt : Runtime}.

Lemma toHex_inj (a b : Buffer) : toHex a = toHex b -> a = b.
Proof.
  intros H. rewrite <- (fromHex_toHex a), <- (fromHex_toHex b). now rewrite H.
Qed.

Lemma nextLevel_length (level : Level) :
  length (nextLevel level) = ((length level + 1) / 2)%nat.
Proof.
  induction level as [level IH] using (well_founded_induction
    (Wf_nat.well_founded_ltof _ (@length Buffer))).
  destruct level as [|a [|b rest]]; try reflexivity.
  cbn [nextLevel length]. rewrite IH by (unfold Wf_nat.ltof; simpl; lia).
  replace (S (S (length rest)) + 1)%nat with ((length rest + 1) + 1 * 2)%nat by lia.
  rewrite Nat.div_add by lia. lia.
Qed.

(** A last node without a partner and the same node followed by a copy of
    itself give the same next level. *)
Lemma nextLevel_duplicate_last (level : Level) (x : Buffer) :
  Nat.even (length level) = true ->
  nextLevel (level ++ [x; x]) = nextLevel (level ++ [x]).
Proof.
  induction level as [level IH] using (well_founded_induction
    (Wf_nat.well_founded_ltof _ (@length Buffer))).
  destruct level as [|a [|b rest]]; intros Heven.
  - reflexivity.
  - discriminate.
  - cbn [app nextLevel]. f_equal.
    apply IH; [unfold Wf_nat.ltof; simpl; lia|exact Heven].
Qed.

Lemma verifyLoop_app (pre : list jsstring) :
  forall (node : Buffer) (idx : Z),
  exists node' idx',
    forall rest, verifyLoop node idx (pre ++ rest) = verifyLoop node' idx' rest.
Proof.
  induction pre as [|s pre IH]; intros node idx.
  - exists node, idx. reflexivity.
  - cbn [app verifyLoop]. apply IH.
Qed.

(** Two different nodes that the same co-path folds to the same node
    exhibit a collision of the hash. *)
Lemma verifyLoop_merge (post : list jsstring) :
  forall (a a' : Buffer) (idx : Z),
    a <> a' ->
    verifyLoop a idx post = verifyLoop a' idx post ->
    exists x y, x <> y /\ h x = h y.
Proof.
  induction post as [|s post IH]; intros a a' idx Hne Heq.
  - contradiction.
  - cbn [verifyLoop] in Heq.
    set (b := if (Z.rem idx 2 =? 1)%Z then h (fromHex s ++ a) else h (a ++ fromHex s)) in Heq.
    set (b' := if (Z.rem idx 2 =? 1)%Z then h (fromHex s ++ a') else h (a' ++ fromHex s)) in Heq.
    destruct (list_eq_dec Byte.byte_eq_dec b b') as [Hb|Hb].
    + unfold b, b' in Hb. destruct (Z.rem idx 2 =? 1)%Z.
      * exists (fromHex s ++ a), (fromHex s ++ a'). split; [|exact Hb].
        intros H. apply app_inv_head in H. contradiction.
      * exists (a ++ fromHex s), (a' ++ fromHex s). split; [|exact Hb].
        intros H. apply app_inv_tail in H. contradiction.
    + exact (IH b b' _ Hb Heq).
Qed.

Lemma levelsLoop_bounds (level : Level) :
  let k := length (levelsLoop level) in
  (1 <= length level)%nat ->
  (length level <= 2 ^ k)%nat /\ (0 < k -> 2 ^ (k - 1) < length level)%nat.
Proof.
  induction level as [level IH] using (well_founded_induction
    (Wf_nat.well_founded_ltof _ (@length Buffer))).
  intros k Hpos. unfold k. rewrite levelsLoop_step.
  destruct (lt_dec 1 (length level)) as [Hgt|Hle].
  - cbn [length].
    assert (Hlt : Wf_nat.ltof _ (@length Buffer) (nextLevel level) level)
      by (apply nextLevel_length_lt; exact Hgt).
    pose proof (nextLevel_length level) as Hlen.
    assert (Hm : (1 <= length (nextLevel level))%nat).
    { rewrite Hlen. apply Nat.div_le_lower_bound; lia. }
    destruct (IH _ Hlt Hm) as [Hup Hlow].
    set (k' := length (levelsLoop (nextLevel level))) in *.
    set (m := length (nextLevel level)) in *.
    assert (Hn : (2 * m - 1 <= length level <= 2 * m)%nat).
    { rewrite Hlen.
      pose proof (Nat.div_mod_eq (length level + 1) 2).
      pose proof (Nat.mod_upper_bound (length level + 1) 2). lia. }
    split.
    + rewrite Nat.pow_succ_r'. lia.
    + intros _. replace (S k' - 1)%nat with k' by lia.
      destruct k' as [|k'']; [simpl; lia|].
      specialize (Hlow ltac:(lia)).
      replace (S k'' - 1)%nat with k'' in Hlow by lia.
      rewrite Nat.pow_succ_r'. lia.
  - simpl. split; lia.
Qed.

Lemma siblingsLoop_length (levels : list Level) :
  forall idx siblings,
    siblingsLoop levels idx = Ok siblings ->
    length siblings = (length levels - 1)%nat.
Proof.
  induction levels as [|nodes rest IH]; intros idx siblings H.
  - injection H as <-. reflexivity.
  - destruct rest as [|upper rest].
    + injection H as <-. reflexivity.
    + rewrite siblingsLoop_step in H.
      destruct (nullish _ _) as [sib|]; [|discriminate].
      destruct (siblingsLoop (upper :: rest) (idx / 2)) as [sibs|] eqn:E;
        [|discriminate].
      injection H as <-. cbn [length]. rewrite (IH _ _ E). simpl. lia.
Qed.

Lemma merkleProof_siblings_count (leafHex : list jsstring) (index : Z)
    (proof : MerkleProof) :
  merkleProof leafHex index = Ok proof ->
  length (siblings_hex proof) = Nat.log2_up (length leafHex).
Proof.
  unfold merkleProof. intros H.
  destruct (length leafHex =? 0)%nat eqn:Hlen; [discriminate|].
  destruct ((index <? 0) || (Z.of_nat (length leafHex) <=? index))%Z; [discriminate|].
  destruct (siblingsLoop (buildLevels leafHex) index) as [siblings|] eqn:Hs;
    [|discriminate].
  injection H as <-. cbn [siblings_hex].
  apply Nat.eqb_neq in Hlen.
  assert (Hb : buildLevels leafHex
               = map fromHex leafHex :: levelsLoop (map fromHex leafHex)).
  { destruct leafHex; [simpl in Hlen; lia|reflexivity]. }
  rewrite Hb in Hs. apply siblingsLoop_length in Hs. cbn [length] in Hs.
  rewrite Hs, Nat.sub_succ, Nat.sub_0_r.
  pose proof (levelsLoop_bounds (level := map fromHex leafHex)) as Hbounds.
  cbv zeta in Hbounds. rewrite length_map in Hbounds.
  destruct (Hbounds ltac:(lia)) as [Hup Hlow].
  set (k := length (levelsLoop (map fromHex leafHex))) in *.
  destruct k as [|k'].
  - simpl in Hup. replace (length leafHex) with 1%nat by lia. reflexivity.
  - symmetry. apply Nat.log2_up_unique; [lia|].
    specialize (Hlow ltac:(lia)).
    replace (S k' - 1)%nat with k' in Hlow by lia. simpl pred. lia.
Qed.

End MerkleMore.

(** ** Facts about the streaming fingerprinter *)

Section FingerprinterFacts.
Context {rt : Runtime}.

(** The [i]-th chunk of [x] for the chunk width [c], in stream order. *)
Definition chunkAt (c : nat) (x : Buffer) (i : nat) : Buffer :=
  firstn c (skipn (i * c) x).

Lemma Qle_bool_inject_Z (a b : Z) :
  Qle_bool (inject_Z a) (inject_Z b) = (a <=? b)%Z.
Proof. unfold Qle_bool, inject_Z; simpl. now rewrite !Z.mul_1_r. Qed.

Lemma Qtrunc_inject_Z (z : Z) : Qtrunc (inject_Z z) = z.
Proof.
  unfold Qtrunc. destruct (Qle_bool 0 (inject_Z z)).
  - apply Qfloor_Z.
  - apply Qceiling_Z.
Qed.

Lemma rel_index_nat (len c : nat) :
  rel_index len (inject_Z (Z.of_nat c)) = Nat.min c len.
Proof.
  unfold rel_index. rewrite Qtrunc_inject_Z.
  destruct (Z.of_nat c <? 0)%Z eqn:E; lia.
Qed.

Lemma subarray_prefix (buf : Buffer) (c : nat) :
  subarray buf 0 (inject_Z (Z.of_nat c)) = firstn c buf.
Proof.
  unfold subarray.
  change 0%Q with (inject_Z (Z.of_nat 0)). rewrite !rel_index_nat.
  simpl. rewrite Nat.sub_0_r.
  destruct (Nat.le_ge_cases c (length buf)).
  - now rewrite Nat.min_l.
  - rewrite Nat.min_r by assumption. now rewrite !firstn_all2 by lia.
Qed.

Lemma subarray_from_suffix (buf : Buffer) (c : nat) :
  subarray_from buf (inject_Z (Z.of_nat c)) = skipn c buf.
Proof.
  unfold subarray_from. rewrite rel_index_nat.
  destruct (Nat.le_ge_cases c (length buf)).
  - now rewrite Nat.min_l.
  - rewrite Nat.min_r by assumption. now rewrite !skipn_all2 by lia.
Qed.

Lemma chunkAt_shift (c : nat) (x : Buffer) (k i : nat) :
  chunkAt c (skipn (k * c) x) i = chunkAt c x (k + i).
Proof.
  unfold chunkAt. rewrite skipn_skipn. f_equal. f_equal. lia.
Qed.

Lemma chunkAt_app (c : nat) (x e : Buffer) (i : nat) :
  (S i * c <= length x)%nat -> chunkAt c (x ++ e) i = chunkAt c x i.
Proof.
  intros Hle. unfold chunkAt.
  rewrite skipn_app.
  replace (i * c - length x)%nat with 0%nat by (simpl in Hle; lia).
  simpl. rewrite firstn_app, length_skipn.
  replace (c - (length x - i * c))%nat with 0%nat by (simpl in Hle; lia).
  simpl. apply app_nil_r.
Qed.

Lemma map_seq_shift {A} (f : nat -> A) (k n : nat) :
  map f (seq k n) = map (fun i => f (k + i)%nat) (seq 0 n).
Proof.
  revert f k; induction n as [|n IH]; intros f k; [reflexivity|].
  simpl. rewrite Nat.add_0_r. f_equal.
  rewrite (IH f (S k)), (IH (fun i => f (k + i)%nat) 1%nat).
  apply map_ext. intros i. f_equal. lia.
Qed.

(** The draining loop on an integral chunk width: it ends within
    [length buf / c + 1] tests, having cut off every full chunk. *)
Lemma drain_integral (c : nat) :
  (1 <= c)%nat ->
  forall (fuel : nat) (buf : Buffer) (leaves : list jsstring) (chunks : nat),
    (length buf / c < fuel)%nat ->
    drain fuel (inject_Z (Z.of_nat c)) buf leaves chunks =
    Some (skipn (length buf / c * c) buf,
          leaves ++ map (fun i => leafHash (chunkAt c buf i)) (seq 0 (length buf / c)),
          (chunks + length buf / c)%nat).
Proof.
  intros Hc. induction fuel as [|fuel IH]; intros buf leaves chunks Hfuel; [lia|].
  cbn [drain]. rewrite Qle_bool_inject_Z.
  destruct (Z.of_nat c <=? Z.of_nat (length buf))%Z eqn:Hge.
  - apply Z.leb_le in Hge.
    rewrite subarray_prefix, subarray_from_suffix.
    assert (Hdiv : (length buf / c = S (length (skipn c buf) / c))%nat).
    { rewrite length_skipn.
      replace (length buf) with ((length buf - c) + 1 * c)%nat at 1 by lia.
      rewrite Nat.div_add by lia. lia. }
    rewrite IH by lia. rewrite Hdiv.
    f_equal. f_equal; [f_equal|].
    + rewrite skipn_skipn. f_equal. lia.
    + rewrite <- app_assoc. f_equal. cbn [seq map app].
      f_equal.
      rewrite (map_seq_shift _ 1). apply map_ext. intros i.
      f_equal. rewrite <- (chunkAt_shift c buf 1 i). now rewrite Nat.mul_1_l.
    + lia.
  - apply Z.leb_gt in Hge.
    rewrite Nat.div_small by lia. simpl.
    now rewrite app_nil_r, Nat.add_0_r.
Qed.

(** What the locals hold after the stream has delivered the bytes [y]. *)
Definition consumed (c : nat) (y : Buffer) : StreamState :=
  {| st_bytes := length y;
     st_buf := skipn (length y / c * c) y;
     st_chunks := length y / c;
     st_leafHexes := map (fun i => leafHash (chunkAt c y i)) (seq 0 (length y / c));
     st_fileBlake2b := y;
     st_fileSha512 := y |}.

Lemma onData_consumed (c : nat) (fuel : nat) (y e : Buffer) :
  (1 <= c)%nat ->
  (length (y ++ e) < fuel)%nat ->
  onData fuel (inject_Z (Z.of_nat c)) (consumed c y) e = Some (consumed c (y ++ e)).
Proof.
  intros Hc Hfuel. unfold onData. cbn [consumed st_buf st_leafHexes st_chunks
    st_bytes st_fileBlake2b st_fileSha512].
  set (k := (length y / c)%nat).
  assert (Hk : (k * c <= length y)%nat).
  { unfold k. rewrite Nat.mul_comm. apply Nat.Div0.mul_div_le. }
  assert (Hz : skipn (k * c) y ++ e = skipn (k * c) (y ++ e)).
  { rewrite skipn_app. replace (k * c - length y)%nat with 0%nat by lia.
    reflexivity. }
  rewrite Hz.
  assert (Hlen : length (skipn (k * c) (y ++ e)) = (length (y ++ e) - k * c)%nat)
    by apply length_skipn.
  assert (Hdiv : (length (y ++ e) / c = k + length (skipn (k * c) (y ++ e)) / c)%nat).
  { rewrite Hlen.
    replace (length (y ++ e)) with ((length (y ++ e) - k * c) + k * c)%nat at 1
      by (rewrite length_app in *; lia).
    rewrite Nat.div_add by lia. lia. }
  rewrite drain_integral.
  2: assumption.
  2: { apply Nat.le_lt_trans with (length (skipn (k * c) (y ++ e))).
       - apply Nat.Div0.div_le_upper_bound. nia.
       - rewrite Hlen. lia. }
  unfold consumed. rewrite Hdiv.
  set (m := (length (skipn (k * c) (y ++ e)) / c)%nat).
  f_equal. f_equal.
  - symmetry. apply length_app.
  - rewrite skipn_skipn. f_equal. lia.
  - rewrite seq_app, map_app. f_equal.
    + apply map_ext_in. intros i Hi. apply in_seq in Hi. f_equal.
      symmetry. apply chunkAt_app.
      apply Nat.le_trans with (k * c)%nat; [|exact Hk].
      apply Nat.mul_le_mono_r. lia.
    + rewrite (map_seq_shift _ (0 + k)). apply map_ext. intros i.
      f_equal. apply chunkAt_shift.
Qed.

Lemma runStream_consumed (c : nat) (fuel : nat) (events : list Buffer) :
  (1 <= c)%nat ->
  forall y,
    (length (y ++ concat events) < fuel)%nat ->
    runStream fuel (inject_Z (Z.of_nat c)) (consumed c y) events
    = Some (consumed c (y ++ concat events)).
Proof.
  intros Hc. induction events as [|e rest IH]; intros y Hfuel.
  - simpl. now rewrite app_nil_r.
  - cbn [runStream concat] in *.
    rewrite onData_consumed.
    + rewrite IH; rewrite <- app_assoc; [reflexivity|exact Hfuel].
    + exact Hc.
    + rewrite !length_app in *. lia.
Qed.

Lemma consumed_nil (c : nat) : consumed c [] = initial_state.
Proof.
  unfold consumed, initial_state. cbn [length].
  rewrite Nat.Div0.div_0_l. reflexivity.
Qed.

Lemma leaf_count_length (leafHex : list jsstring) :
  leaf_count (merkleRootFromLeafHex leafHex) = length leafHex.
Proof. destruct leafHex; reflexivity. Qed.

(** On an integral chunk width the fingerprinter returns, and what it
    returns is determined by the bytes of the stream. *)
Lemma fingerprint_integral (fuel : nat) (file : InputFile) (c : nat) :
  is_file file = true ->
  stream_error file = None ->
  (1 <= c)%nat ->
  (length (concat (data_events file)) < fuel)%nat ->
  streamDigestsAndLeaves fuel file (inject_Z (Z.of_nat c)) =
  Some (Ok (finishStream (inject_Z (Z.of_nat c))
              (consumed c (concat (data_events file))))).
Proof.
  intros Hfile Herr Hc Hfuel. unfold streamDigestsAndLeaves.
  rewrite Hfile, Herr. cbn [negb].
  rewrite <- (consumed_nil c), runStream_consumed by assumption.
  reflexivity.
Qed.

Lemma ceil_div (n c : nat) :
  (1 <= c)%nat ->
  ((n + c - 1) / c = n / c + (if (0 <? n mod c) then 1 else 0))%nat.
Proof.
  intros Hc.
  pose proof (Nat.div_mod_eq n c) as Hn.
  pose proof (Nat.mod_upper_bound n c ltac:(lia)) as Hr.
  destruct (0 <? n mod c)%nat eqn:E.
  - apply Nat.ltb_lt in E. symmetry.
    apply (Nat.div_unique _ _ _ (n mod c - 1)); lia.
  - apply Nat.ltb_ge in E. symmetry.
    apply (Nat.div_unique _ _ _ (c - 1)); lia.
Qed.

Lemma finish_leaf_hexes (q : Q) (c : nat) (x : Buffer) :
  (1 <= c)%nat ->
  leaf_hexes (finishStream q (consumed c x)) =
  map (fun i => leafHash (chunkAt c x i)) (seq 0 ((length x + c - 1) / c)).
Proof.
  intros Hc. unfold finishStream. cbn [consumed st_buf st_leafHexes st_chunks].
  rewrite ceil_div by assumption.
  rewrite length_skipn.
  assert (Hmod : (length x - length x / c * c = length x mod c)%nat).
  { pose proof (Nat.div_mod_eq (length x) c). lia. }
  rewrite Hmod.
  destruct (0 <? length x mod c)%nat eqn:E; cbn [leaf_hexes].
  - rewrite seq_app, map_app. cbn [seq map Nat.add]. f_equal. f_equal. f_equal.
    unfold chunkAt. rewrite firstn_all2; [reflexivity|].
    rewrite length_skipn, Hmod.
    pose proof (Nat.mod_upper_bound (length x) c ltac:(lia)). lia.
  - now rewrite Nat.add_0_r.
Qed.

Lemma finish_counts (q : Q) (c : nat) (x : Buffer) :
  let r := finishStream q (consumed c x) in
  chunks_count r = length (leaf_hexes r) /\
  mc_leaf_count (merkle r) = length (leaf_hexes r) /\
  bytes r = length x.
Proof.
  unfold finishStream. cbn [consumed st_buf st_leafHexes st_chunks st_bytes].
  destruct (0 <? _)%nat;
    cbn [chunks_count leaf_hexes merkle mc_leaf_count bytes];
    rewrite leaf_count_length, ?length_app, !length_map, !length_seq;
    simpl; repeat split; lia.
Qed.

(** A chunk width below one cuts off nothing: once entered, the draining
    loop never ends. *)
Lemma drain_stuck (q : Q) (buf : Buffer) :
  Qtrunc q = 0%Z ->
  Qle_bool q (inject_Z (Z.of_nat (length buf))) = true ->
  forall fuel leaves chunks, drain fuel q buf leaves chunks = None.
Proof.
  intros Htrunc Hle. induction fuel as [|fuel IH]; intros leaves chunks;
    cbn [drain]; rewrite Hle; [reflexivity|].
  assert (Hsame : subarray_from buf q = buf).
  { unfold subarray_from, rel_index. rewrite Htrunc. simpl.
    now rewrite Z.min_l by lia. }
  rewrite Hsame. apply IH.
Qed.

End FingerprinterFacts.

(** ** Facts about the canonical serializer *)

Lemma JSON_induction (P : JSON -> Prop)
  (Hnull : P JNull)
  (Hbool : forall b, P (JBool b))
  (Hnum : forall n, P (JNum n))
  (Hstr : forall s, P (JStr s))
  (Harr : forall elems, Forall P elems -> P (JArr elems))
  (Hobj : forall members, Forall (fun kv => P (snd kv)) members -> P (JObj members)) :
  forall x, P x.
Proof.
  fix IH 1. intros [ | b | n | s | elems | members].
  - exact Hnull.
  - apply Hbool.
  - apply Hnum.
  - apply Hstr.
  - apply Harr. induction elems as [|e elems IHe]; constructor.
    + apply IH.
    + exact IHe.
  - apply Hobj. induction members as [|[k v] members IHm]; constructor.
    + apply IH.
    + exact IHm.
Qed.

Inductive option_rel {A B : Type} (R : A -> B -> Prop) : option A -> option B -> Prop :=
| option_rel_None : option_rel R None None
| option_rel_Some a b : R a b -> option_rel R (Some a) (Some b).

(** Two values denote the same finite map at every object node: scalars
    are equal, arrays agree element by element, and two objects, each
    without a repeated key, bind the same keys to values that again
    denote the same. The order of the members plays no part. *)
Inductive same_map : JSON -> JSON -> Prop :=
| same_null : same_map JNull JNull
| same_bool b : same_map (JBool b) (JBool b)
| same_num n : same_map (JNum n) (JNum n)
| same_str s : same_map (JStr s) (JStr s)
| same_arr xs ys : Forall2 same_map xs ys -> same_map (JArr xs) (JArr ys)
| same_obj ps qs :
    NoDup (Object_keys ps) -> NoDup (Object_keys qs) ->
    (forall k, option_rel same_map (lookup k ps) (lookup k qs)) ->
    same_map (JObj ps) (JObj qs).

Lemma lookup_None (k : jsstring) (ps : list (jsstring * JSON)) :
  lookup k ps = None <-> ~ In k (Object_keys ps).
Proof.
  induction ps as [|[k' v] ps IH]; simpl; [tauto|].
  destruct (str_eqb k' k) eqn:E.
  - apply str_eqb_eq in E. split; [discriminate|]. intros H. exfalso. apply H. now left.
  - apply str_eqb_neq in E. rewrite IH. tauto.
Qed.

Lemma lookup_In (k : jsstring) (ps : list (jsstring * JSON)) :
  In k (Object_keys ps) <-> exists v, lookup k ps = Some v.
Proof.
  destruct (lookup k ps) as [v|] eqn:E.
  - split; [eauto|]. intros _.
    destruct (in_dec (list_eq_dec ascii_dec) k (Object_keys ps)) as [H|H]; [exact H|].
    apply lookup_None in H. congruence.
  - apply lookup_None in E. split; [tauto|]. intros [v Hv]. discriminate.
Qed.

Lemma lookup_value_In (k : jsstring) (v : JSON) (ps : list (jsstring * JSON)) :
  lookup k ps = Some v -> In (k, v) ps.
Proof.
  induction ps as [|[k' v'] ps IH]; simpl; [discriminate|].
  destruct (str_eqb k' k) eqn:E.
  - apply str_eqb_eq in E. intros [= ->]. subst. now left.
  - auto.
Qed.

Section SerializerFacts.
Context {rt : Runtime}.

(** [stableStringify] on an object, as the source writes it: one
    [JSON.stringify(k) + ":" + stableStringify(x[k])] per sorted key. *)
Definition member_string (members : list (jsstring * JSON)) (k : jsstring) : jsstring :=
  match lookup k members with
  | Some v => stableStringify v
  | None => []
  end.

Lemma stableStringify_obj (members : list (jsstring * JSON)) :
  stableStringify (JObj members) =
  lit "{" ++
  join (lit ",")
    (map (fun k => quoteJSON k ++ lit ":" ++ member_string members k)
         (sort_keys (Object_keys members))) ++
  lit "}".
Proof.
  cbn [stableStringify]. f_equal. f_equal. f_equal.
  apply map_ext. intros k. f_equal. f_equal.
  unfold member_string.
  induction members as [|[k' v] ms IH]; [reflexivity|].
  cbn [lookup]. destruct (str_eqb k' k); [reflexivity|exact IH].
Qed.

Lemma stableStringify_arr (elems : list JSON) :
  stableStringify (JArr elems) =
  lit "[" ++ join (lit ",") (map stableStringify elems) ++ lit "]".
Proof. reflexivity. Qed.

Lemma same_map_keys (ps qs : list (jsstring * JSON)) :
  NoDup (Object_keys ps) -> NoDup (Object_keys qs) ->
  (forall k, option_rel same_map (lookup k ps) (lookup k qs)) ->
  Permutation (Object_keys ps) (Object_keys qs).
Proof.
  intros Hp Hq Hrel. apply NoDup_Permutation; try assumption.
  intros k. rewrite !lookup_In.
  specialize (Hrel k). inversion Hrel; split; intros [v Hv]; try congruence; eauto.
Qed.

(** Values that denote the same maps serialize to the same string. *)
Lemma stableStringify_same_map (x : JSON) :
  forall y, same_map x y -> stableStringify x = stableStringify y.
Proof.
  induction x as [ | b | n | s | elems IH | members IH] using JSON_induction;
    intros y Hsame;
    inversion Hsame as [ | | | | xs ys Hall | ps qs Hp Hq Hrel]; subst;
    try reflexivity.
  - rewrite !stableStringify_arr. f_equal. f_equal. f_equal.
    clear Hsame. induction Hall as [|e e' es es' He Hes IHes]; [reflexivity|].
    inversion IH; subst. simpl. f_equal; auto.
  - rewrite !stableStringify_obj.
    rewrite (sort_keys_perm_eq (same_map_keys Hp Hq Hrel)).
    f_equal. f_equal. f_equal.
    apply map_ext. intros k. f_equal. f_equal.
    unfold member_string. specialize (Hrel k).
    inversion Hrel as [|v w Hvw Ev Ew]; [reflexivity|].
    symmetry in Ev. apply lookup_value_In in Ev.
    rewrite Forall_forall in IH. exact (IH _ Ev _ Hvw).
Qed.

End SerializerFacts.

(** ** Facts about receipts *)

Lemma lookup_set_member (k k' : jsstring) (v : JSON) (ms : list (jsstring * JSON)) :
  lookup k (set_member k' v ms) = if str_eqb k' k then Some v else lookup k ms.
Proof.
  induction ms as [|[k0 v0] ms IH]; simpl.
  - reflexivity.
  - destruct (str_eqb k0 k') eqn:E0; simpl.
    + apply str_eqb_eq in E0. subst k0.
      destruct (str_eqb k' k); reflexivity.
    + rewrite IH. destruct (str_eqb k0 k) eqn:E1; [|reflexivity].
      apply str_eqb_eq in E1. subst k0.
      destruct (str_eqb k' k) eqn:E2; [|reflexivity].
      apply str_eqb_eq in E2. subst k'. now rewrite str_eqb_refl in E0.
Qed.

Lemma set_member_keys (k : jsstring) (v : JSON) (ms : list (jsstring * JSON)) :
  Object_keys (set_member k v ms) =
  if in_dec (list_eq_dec ascii_dec) k (Object_keys ms)
  then Object_keys ms else Object_keys ms ++ [k].
Proof.
  induction ms as [|[k0 v0] ms IH]; simpl; [reflexivity|].
  destruct (str_eqb k0 k) eqn:E0.
  - apply str_eqb_eq in E0. subst k0. simpl.
    destruct (list_eq_dec ascii_dec k k); [reflexivity|congruence].
  - apply str_eqb_neq in E0. simpl. rewrite IH.
    destruct (list_eq_dec ascii_dec k0 k); [congruence|].
    destruct (in_dec (list_eq_dec ascii_dec) k (Object_keys ms)); reflexivity.
Qed.

Lemma set_member_NoDup (k : jsstring) (v : JSON) (ms : list (jsstring * JSON)) :
  NoDup (Object_keys ms) -> NoDup (Object_keys (set_member k v ms)).
Proof.
  intros Hnd. rewrite set_member_keys.
  destruct (in_dec (list_eq_dec ascii_dec) k (Object_keys ms)) as [Hin|Hout];
    [exact Hnd|].
  apply NoDup_app; [exact Hnd|repeat constructor; simpl; tauto|].
  intros x Hx [<-|[]]. contradiction.
Qed.

Lemma spread_NoDup (src o : list (jsstring * JSON)) :
  NoDup (Object_keys o) -> NoDup (Object_keys (spread o src)).
Proof.
  unfold spread. revert o; induction src as [|[k v] src IH]; intros o Hnd; simpl;
    [exact Hnd|].
  apply IH. now apply set_member_NoDup.
Qed.

Lemma lookup_spread (k : jsstring) (src o : list (jsstring * JSON)) :
  NoDup (Object_keys src) ->
  lookup k (spread o src) =
  match lookup k src with
  | Some v => Some v
  | None => lookup k o
  end.
Proof.
  unfold spread. revert o; induction src as [|[k1 v1] src IH]; intros o Hnd;
    [reflexivity|].
  simpl in Hnd. inversion Hnd as [|? ? Hout Hnd']; subst.
  cbn [fold_left lookup fst snd]. rewrite (IH _ Hnd'), lookup_set_member.
  destruct (str_eqb k1 k) eqn:E.
  - apply str_eqb_eq in E. subst k1.
    apply lookup_None in Hout. now rewrite Hout.
  - reflexivity.
Qed.

Lemma receipt_base_same_map (d1 d2 : list (jsstring * JSON)) :
  same_map (JObj d1) (JObj d2) ->
  same_map (JObj (receipt_base d1)) (JObj (receipt_base d2)).
Proof.
  intros Hsame. inversion Hsame as [| | | | |ps qs Hp Hq Hrel]; subst.
  unfold receipt_base.
  constructor.
  - apply spread_NoDup. repeat constructor. simpl; tauto.
  - apply spread_NoDup. repeat constructor. simpl; tauto.
  - intros k. rewrite !lookup_spread by assumption.
    specialize (Hrel k). inversion Hrel as [|v w Hvw].
    + cbn [lookup]. destruct (str_eqb _ k); repeat constructor.
    + constructor. exact Hvw.
Qed.

Lemma createReceipt_receipt_hash {rt : Runtime} (data : list (jsstring * JSON)) :
  lookup (lit "receipt_hash") (createReceipt data)
  = Some (JStr (hashJSON (JObj (receipt_base data)))).
Proof.
  unfold createReceipt. rewrite lookup_set_member. now rewrite str_eqb_refl.
Qed.

(** ** Facts about [stableStringify] on object graphs *)

(** The object at [a] holds a reference to the object at [b]. *)
Definition edge (hp : Heap) (a b : nat) : Prop :=
  match nth_error hp a with
  | Some (HArray elems) => In (HRef b) elems
  | Some (HRecord members) => exists k, lookupH k members = Some (HRef b)
  | None => False
  end.

Inductive reaches (hp : Heap) : nat -> nat -> Prop :=
| reaches_refl a : reaches hp a a
| reaches_step a b c : edge hp a b -> reaches hp b c -> reaches hp a c.

(** The object at [a] is part of a cycle. *)
Definition on_cycle (hp : Heap) (a : nat) : Prop :=
  exists b, edge hp a b /\ reaches hp b a.

Lemma reaches_snoc (hp : Heap) (a b c : nat) :
  reaches hp a b -> edge hp b c -> reaches hp a c.
Proof.
  induction 1 as [a|a b b' Hab Hbb' IH]; intros Hc.
  - eapply reaches_step; [exact Hc|constructor].
  - eapply reaches_step; [exact Hab|now apply IH].
Qed.

Lemma on_cycle_next (hp : Heap) (a b : nat) :
  edge hp a b -> reaches hp b a -> on_cycle hp b.
Proof.
  intros Hab Hba. inversion Hba as [|b0 c a0 Hbc Hca]; subst.
  - exists a. split; [exact Hab|constructor].
  - exists c. split; [exact Hbc|].
    eapply reaches_snoc; [exact Hca|exact Hab].
Qed.

Lemma mapM_Throw {A B} (f : A -> result B) (xs : list A) (x : A) (e : JSError) :
  In x xs -> f x = Throw e -> exists e', mapM f xs = Throw e'.
Proof.
  induction xs as [|y xs IH]; intros Hin Hx; [contradiction|].
  simpl. destruct (f y) as [r|e0] eqn:Ey; simpl; [|eauto].
  destruct Hin as [->|Hin]; [congruence|].
  destruct (IH Hin Hx) as [e' ->]. simpl. eauto.
Qed.

Lemma lookupH_In (k : jsstring) (v : HValue) (members : list (jsstring * HValue)) :
  lookupH k members = Some v -> In k (map fst members).
Proof.
  induction members as [|[k' v'] ms IH]; simpl; [discriminate|].
  destruct (str_eqb k' k) eqn:E.
  - apply str_eqb_eq in E. now left.
  - intros H. right. now apply IH.
Qed.

Section HeapFacts.
Context {rt : Runtime}.

Lemma stableStringifyH_edge (hp : Heap) (stack a b : nat) (e : JSError) :
  edge hp a b ->
  stableStringifyH stack hp (HRef b) = Throw e ->
  exists e', stableStringifyH (S stack) hp (HRef a) = Throw e'.
Proof.
  unfold edge. intros Hedge Hb. cbn [stableStringifyH].
  destruct (nth_error hp a) as [[elems|members]|]; [| |contradiction].
  - destruct (mapM_Throw (f := stableStringifyH stack hp) Hedge Hb) as [e' ->].
    simpl. eauto.
  - destruct Hedge as [k Hk].
    assert (Hin : In k (sort_keys (map fst members))).
    { eapply Permutation_in; [apply sort_keys_perm|].
      eapply lookupH_In; exact Hk. }
    match goal with |- context [mapM ?f _] => set (g := f) end.
    assert (Hg : g k = Throw e) by (unfold g; now rewrite Hk, Hb).
    destruct (mapM_Throw Hin Hg) as [e' ->]. simpl. eauto.
Qed.

(** On an object that is part of a cycle the recursion uses up any
    stack: no call returns a string. *)
Lemma stableStringifyH_cycle (hp : Heap) (stack : nat) :
  forall a, on_cycle hp a ->
  exists e, stableStringifyH stack hp (HRef a) = Throw e.
Proof.
  induction stack as [|stack IH]; intros a Hcyc.
  - simpl. eauto.
  - destruct Hcyc as (b & Hab & Hba).
    destruct (IH b (on_cycle_next Hab Hba)) as [e He].
    eapply stableStringifyH_edge; eassumption.
Qed.

(** A heap of plain data: no member or element is [undefined], and
    every reference points into the heap. *)
Definition closed_value (hp : Heap) (v : HValue) : Prop :=
  match v with
  | HUndefined => False
  | HRef a => (a < length hp)%nat
  | _ => True
  end.

Definition closed_heap (hp : Heap) : Prop :=
  Forall (fun o => match o with
                   | HArray elems => Forall (closed_value hp) elems
                   | HRecord members => Forall (fun kv => closed_value hp (snd kv)) members
                   end) hp.

Lemma mapM_errors {A B} (f : A -> result B) (xs : list A) (P : JSError -> Prop) :
  (forall x e, In x xs -> f x = Throw e -> P e) ->
  forall e, mapM f xs = Throw e -> P e.
Proof.
  induction xs as [|y xs IH]; intros Hf e; simpl; [discriminate|].
  destruct (f y) as [r|e0] eqn:Ey; simpl.
  - destruct (mapM f xs) as [rs|e1] eqn:Em; simpl; [discriminate|].
    intros [= <-]. apply IH; [|reflexivity].
    intros x e' Hin. apply Hf. now right.
  - intros [= <-]. eapply Hf; [now left|exact Ey].
Qed.

Lemma lookupH_value_In (k : jsstring) (v : HValue) (members : list (jsstring * HValue)) :
  lookupH k members = Some v -> In (k, v) members.
Proof.
  induction members as [|[k' v'] ms IH]; simpl; [discriminate|].
  destruct (str_eqb k' k) eqn:E.
  - apply str_eqb_eq in E. intros [= ->]. subst. now left.
  - auto.
Qed.

Lemma lookupH_Some (k : jsstring) (members : list (jsstring * HValue)) :
  In k (map fst members) -> exists v, lookupH k members = Some v.
Proof.
  induction members as [|[k' v'] ms IH]; simpl; [contradiction|].
  destruct (str_eqb k' k) eqn:E; [eauto|].
  apply str_eqb_neq in E. intros [H|H]; [contradiction|auto].
Qed.

(** In a closed heap the only exception is the exhausted stack. *)
Lemma stableStringifyH_RangeError (hp : Heap) (stack : nat) :
  closed_heap hp ->
  forall v e, closed_value hp v -> stableStringifyH stack hp v = Throw e -> e = RangeError.
Proof.
  intros Hclosed. induction stack as [|stack IH]; intros v e Hv; simpl.
  - now intros [= <-].
  - destruct v as [ | | b | n | s | a]; try discriminate; [contradiction|].
    simpl in Hv. destruct (nth_error hp a) as [o|] eqn:Ea.
    2: { apply nth_error_None in Ea. lia. }
    pose proof (proj1 (Forall_forall _ _) Hclosed o (nth_error_In _ _ Ea)) as Ho.
    destruct o as [elems|members].
    + destruct (mapM (stableStringifyH stack hp) elems) as [parts|e0] eqn:Em;
        simpl; [discriminate|].
      intros [= <-]. revert Em. apply (mapM_errors (P := fun e => e = RangeError)).
      intros x e' Hin. apply IH. rewrite Forall_forall in Ho. now apply Ho.
    + match goal with |- context [mapM ?f _] => set (g := f) end.
      destruct (mapM g _) as [parts|e0] eqn:Em; simpl; [discriminate|].
      intros [= <-]. revert Em. apply (mapM_errors (P := fun e => e = RangeError)).
      intros k e' Hin. unfold g.
      assert (Hk : In k (map fst members)).
      { eapply Permutation_in; [symmetry; apply sort_keys_perm|exact Hin]. }
      destruct (lookupH_Some Hk) as [v Hv']. rewrite Hv'.
      destruct (stableStringifyH stack hp v) as [s|e1] eqn:Es; simpl; [discriminate|].
      intros [= <-]. eapply IH; [|exact Es].
      rewrite Forall_forall in Ho. exact (Ho _ (lookupH_value_In Hv')).
Qed.

(** The serializer throws nothing but the RangeError of the exhausted
    stack and the TypeError of [Object.keys(undefined)]. *)
Lemma stableStringifyH_errors (hp : Heap) (stack : nat) :
  forall v e, stableStringifyH stack hp v = Throw e -> e = RangeError \/ e = TypeError.
Proof.
  induction stack as [|stack IH]; intros v e; simpl.
  - intros [= <-]. now left.
  - destruct v as [ | | b | n | s | a]; try discriminate.
    + intros [= <-]. now right.
    + destruct (nth_error hp a) as [[elems|members]|] eqn:Ea.
      * destruct (mapM (stableStringifyH stack hp) elems) as [parts|e0] eqn:Em;
          simpl; [discriminate|].
        intros [= <-]. revert Em.
        apply (mapM_errors (P := fun e => e = RangeError \/ e = TypeError)).
        intros x e' _. apply IH.
      * match goal with |- context [mapM ?f _] => set (g := f) end.
        destruct (mapM g _) as [parts|e0] eqn:Em; simpl; [discriminate|].
        intros [= <-]. revert Em.
        apply (mapM_errors (P := fun e => e = RangeError \/ e = TypeError)).
        intros k e' _. unfold g.
        destruct (lookupH k members) as [v|]; simpl; [|intros [= <-]; now right].
        destruct (stableStringifyH stack hp v) as [s|e1] eqn:Es; simpl; [discriminate|].
        intros [= <-]. eapply IH; exact Es.
      * intros [= <-]. now right.
Qed.

(** From an object that leads to a cycle the recursion never returns:
    no stack is large enough. *)
Lemma stableStringifyH_reaches_cycle (hp : Heap) (a b : nat) :
  reaches hp a b -> on_cycle hp b ->
  forall stack, exists e, stableStringifyH stack hp (HRef a) = Throw e.
Proof.
  induction 1 as [a|a b' c Hedge Hreach IH]; intros Hcyc stack.
  - now apply stableStringifyH_cycle.
  - destruct stack as [|stack]; [simpl; eauto|].
    destruct (IH Hcyc stack) as [e He].
    eapply stableStringifyH_edge; eassumption.
Qed.

Lemma edge_in_heap (hp : Heap) (a b : nat) : edge hp a b -> (a < length hp)%nat.
Proof.
  unfold edge. intros H. apply nth_error_Some.
  destruct (nth_error hp a); [discriminate|contradiction].
Qed.

Lemma reaches_cycle_in_heap (hp : Heap) (a b : nat) :
  reaches hp a b -> on_cycle hp b -> (a < length hp)%nat.
Proof.
  intros [a0|a0 b' c Hedge _] Hcyc.
  - destruct Hcyc as (c & Hedge & _). eapply edge_in_heap; exact Hedge.
  - eapply edge_in_heap; exact Hedge.
Qed.

End HeapFacts.

(** *** Agreement with the serializer on trees *)

(** The heap value [v] unfolds to the tree [t]. *)
Inductive denotes (hp : Heap) : HValue -> JSON -> Prop :=
| denotes_null : denotes hp HNull JNull
| denotes_bool b : denotes hp (HBool b) (JBool b)
| denotes_num n : denotes hp (HNum n) (JNum n)
| denotes_str s : denotes hp (HStr s) (JStr s)
| denotes_arr a elems ts :
    nth_error hp a = Some (HArray elems) ->
    Forall2 (denotes hp) elems ts ->
    denotes hp (HRef a) (JArr ts)
| denotes_obj a members ps :
    nth_error hp a = Some (HRecord members) ->
    Forall2 (fun m p => fst m = fst p /\ denotes hp (snd m) (snd p)) members ps ->
    denotes hp (HRef a) (JObj ps).

(** The number of nested calls that serializing [t] takes. *)
Fixpoint depth (t : JSON) : nat :=
  match t with
  | JArr ts => S (list_max (map depth ts))
  | JObj ps => S (list_max (map (fun p => depth (snd p)) ps))
  | _ => 1
  end.

Lemma mapM_map {A B} (f : A -> result B) (g : A -> B) (xs : list A) :
  (forall x, In x xs -> f x = Ok (g x)) -> mapM f xs = Ok (map g xs).
Proof.
  induction xs as [|x xs IH]; intros Hf; [reflexivity|].
  simpl. rewrite (Hf x (or_introl eq_refl)). simpl.
  rewrite IH by (intros y Hy; apply Hf; now right). reflexivity.
Qed.

Lemma list_max_In (xs : list nat) (x : nat) : In x xs -> (x <= list_max xs)%nat.
Proof.
  induction xs as [|y xs IH]; simpl; [contradiction|].
  intros [->|H]; [lia|]. specialize (IH H). lia.
Qed.

Section HeapTree.
Context {rt : Runtime}.

Lemma members_lookup (hp : Heap) (members : list (jsstring * HValue))
    (ps : list (jsstring * JSON)) (k : jsstring) :
  Forall2 (fun m p => fst m = fst p /\ denotes hp (snd m) (snd p)) members ps ->
  match lookupH k members, lookup k ps with
  | Some v, Some t => denotes hp v t /\ In (k, t) ps
  | None, None => True
  | _, _ => False
  end.
Proof.
  induction 1 as [|[k1 v1] [k2 t2] members ps [Hk Hd] Hall IH]; simpl; [exact I|].
  simpl in Hk, Hd. subst k2.
  destruct (str_eqb k1 k) eqn:E.
  - apply str_eqb_eq in E. subst k1. split; [exact Hd|now left].
  - destruct (lookupH k members), (lookup k ps); try exact IH.
    destruct IH as [IH1 IH2]. split; [exact IH1|now right].
Qed.

(** With stack enough for its depth, a heap value that unfolds to a tree
    is serialized as [stableStringify] serializes the tree. *)
Lemma stableStringifyH_tree (hp : Heap) (t : JSON) :
  forall v stack,
    denotes hp v t -> (depth t <= stack)%nat ->
    stableStringifyH stack hp v = Ok (stableStringify t).
Proof.
  induction t as [ | b | n | s | ts IH | ps IH] using JSON_induction;
    intros v stack Hden Hstack;
    inversion Hden as [ | | | | a elems ts' Ha Hall | a members ps' Ha Hall]; subst;
    (destruct stack as [|stack]; [simpl in Hstack; lia|]);
    try reflexivity.
  - cbn [stableStringifyH depth] in *. rewrite Ha.
    assert (Hmap : mapM (stableStringifyH stack hp) elems
                   = Ok (map stableStringify ts)).
    { clear Ha Hden. apply le_S_n in Hstack.
      induction Hall as [|e t elems ts He Hall IHall]; [reflexivity|].
      inversion IH as [|? ? IHt IHts]; subst.
      simpl in Hstack. simpl.
      rewrite (IHt e stack He) by lia. simpl.
      rewrite IHall by (assumption || lia). reflexivity. }
    rewrite Hmap. reflexivity.
  - rewrite stableStringify_obj. cbn [stableStringifyH depth] in *. rewrite Ha.
    apply le_S_n in Hstack.
    assert (Hkeys : map fst members = Object_keys ps).
    { clear - Hall. induction Hall as [|m p members ps [Hk _] Hall IHall];
        [reflexivity|]. simpl. now rewrite Hk, IHall. }
    rewrite Hkeys.
    erewrite (mapM_map (g := fun k => quoteJSON k ++ lit ":" ++ member_string ps k)).
    + reflexivity.
    + intros k Hk. pose proof (members_lookup k Hall) as Hlook.
      unfold member_string.
      destruct (lookupH k members) as [v|], (lookup k ps) as [t|] eqn:Et;
        try contradiction.
      * destruct Hlook as [Hd Hin].
        rewrite Forall_forall in IH.
        rewrite (IH _ Hin v stack Hd); [reflexivity|].
        apply Nat.le_trans with (list_max (map (fun p => depth (snd p)) ps));
          [|exact Hstack].
        apply list_max_In. apply (in_map (fun p => depth (snd p)) _ _ Hin).
      * exfalso. apply lookup_None in Et. apply Et.
        eapply Permutation_in; [symmetry; apply sort_keys_perm|exact Hk].
Qed.

End HeapTree.

(** ** Facts about the transparency log *)

(** A field of a log line: no tab and no line feed inside. *)
Definition fieldb (s : jsstring) : bool :=
  forallb (fun c => negb (Ascii.eqb c tab || Ascii.eqb c newline)) s.

(** A clean field: not empty and free of white space, as ISO timestamps
    and hex digests are. *)
Definition cleanb (s : jsstring) : bool :=
  truthy s && forallb (fun c => negb (isWhiteSpace c)) s.

Definition blankb (s : jsstring) : bool := forallb isWhiteSpace s.

Lemma cleanb_fieldb (s : jsstring) : cleanb s = true -> fieldb s = true.
Proof.
  unfold cleanb, fieldb. rewrite andb_true_iff, !forallb_forall.
  intros [_ H] c Hc. specialize (H c Hc).
  destruct (Ascii.eqb c tab) eqn:Et.
  - apply Ascii.eqb_eq in Et. subst c. discriminate.
  - destruct (Ascii.eqb c newline) eqn:En; [|reflexivity].
    apply Ascii.eqb_eq in En. subst c. discriminate.
Qed.

Lemma split_on_not_nil (sep : ascii) (s : jsstring) : split_on sep s <> [].
Proof.
  induction s as [|c s IH]; simpl; [discriminate|].
  destruct (Ascii.eqb c sep); [discriminate|].
  destruct (split_on sep s); [contradiction|discriminate].
Qed.

Lemma split_on_whole (sep : ascii) (s : jsstring) :
  forallb (fun c => negb (Ascii.eqb c sep)) s = true -> split_on sep s = [s].
Proof.
  induction s as [|c s IH]; simpl; [reflexivity|].
  rewrite andb_true_iff, negb_true_iff. intros [-> Hs].
  now rewrite (IH Hs).
Qed.

Lemma split_on_app (sep : ascii) (a b : jsstring) :
  split_on sep (a ++ sep :: b) = split_on sep a ++ split_on sep b.
Proof.
  induction a as [|c a IH]; simpl.
  - now rewrite Ascii.eqb_refl.
  - destruct (Ascii.eqb c sep); rewrite IH; [reflexivity|].
    pose proof (@split_on_not_nil sep a).
    destruct (split_on sep a); [contradiction|reflexivity].
Qed.

Lemma trimStart_blank (s : jsstring) : blankb s = true -> trimStart s = [].
Proof.
  induction s as [|c s IH]; simpl; [reflexivity|].
  rewrite andb_true_iff. intros [-> Hs]. exact (IH Hs).
Qed.

Lemma trimStart_app (pre s : jsstring) (c : ascii) :
  isWhiteSpace c = false -> trimStart (pre ++ c :: s) = trimStart pre ++ c :: s.
Proof.
  intros Hc. induction pre as [|x pre IH]; simpl.
  - now rewrite Hc.
  - destruct (isWhiteSpace x); [exact IH|reflexivity].
Qed.

Lemma trimStart_suffix (s : jsstring) : exists w, s = w ++ trimStart s.
Proof.
  induction s as [|c s [w Hw]]; simpl.
  - now exists [].
  - destruct (isWhiteSpace c).
    + exists (c :: w). simpl. now f_equal.
    + now exists [].
Qed.

Lemma trimEnd_keep (s : jsstring) (c : ascii) :
  isWhiteSpace c = false -> trimEnd (s ++ [c]) = s ++ [c].
Proof.
  intros Hc. unfold trimEnd. rewrite rev_app_distr. simpl. rewrite Hc.
  simpl. now rewrite rev_involutive.
Qed.

Lemma trimEnd_drop (s : jsstring) (c : ascii) :
  isWhiteSpace c = true -> trimEnd (s ++ [c]) = trimEnd s.
Proof.
  intros Hc. unfold trimEnd. rewrite rev_app_distr. simpl. now rewrite Hc.
Qed.

Lemma fieldb_no (sep : ascii) (s : jsstring) :
  sep = tab \/ sep = newline ->
  fieldb s = true -> forallb (fun c => negb (Ascii.eqb c sep)) s = true.
Proof.
  intros Hsep. unfold fieldb. rewrite !forallb_forall. intros H c Hc.
  specialize (H c Hc). rewrite negb_true_iff, orb_false_iff in H.
  destruct H as [Ht Hn]. rewrite negb_true_iff. destruct Hsep; now subst.
Qed.

Lemma fieldb_app (a b : jsstring) :
  fieldb (a ++ b) = fieldb a && fieldb b.
Proof. apply forallb_app. Qed.

(** The four fields of a line, separated by tabs. *)
Definition entry_text (f0 f1 f2 f3 : jsstring) : jsstring :=
  f0 ++ tab :: f1 ++ tab :: f2 ++ tab :: f3.

Lemma log_line_entry_text (f0 f1 f2 f3 : jsstring) :
  log_line f0 f1 f2 f3 = entry_text f0 f1 f2 f3 ++ [newline].
Proof.
  unfold log_line, entry_text.
  repeat (rewrite <- ?app_assoc, <- ?app_comm_cons). reflexivity.
Qed.

Lemma split_entry_text (f0 f1 f2 f3 : jsstring) :
  fieldb f0 = true -> fieldb f1 = true -> fieldb f2 = true -> fieldb f3 = true ->
  split_on tab (entry_text f0 f1 f2 f3) = [f0; f1; f2; f3].
Proof.
  intros H0 H1 H2 H3. unfold entry_text.
  rewrite !split_on_app.
  rewrite !split_on_whole by (apply fieldb_no; auto).
  reflexivity.
Qed.

Lemma trim_entry (pre f0 f1 f2 f3 : jsstring) :
  cleanb f0 = true -> cleanb f3 = true ->
  trim (pre ++ log_line f0 f1 f2 f3) = trimStart pre ++ entry_text f0 f1 f2 f3.
Proof.
  intros H0 H3. rewrite log_line_entry_text. unfold trim.
  unfold cleanb in H0, H3. apply andb_true_iff in H0, H3.
  destruct H0 as [Hne0 Hws0], H3 as [Hne3 Hws3].
  destruct f0 as [|c0 f0]; [discriminate|].
  simpl in Hws0. apply andb_true_iff in Hws0. destruct Hws0 as [Hc0 _].
  apply negb_true_iff in Hc0.
  assert (Hstart : trimStart (pre ++ entry_text (c0 :: f0) f1 f2 f3 ++ [newline])
                   = trimStart pre ++ entry_text (c0 :: f0) f1 f2 f3 ++ [newline]).
  { unfold entry_text. rewrite <- !app_comm_cons. now apply trimStart_app. }
  rewrite Hstart, app_assoc, trimEnd_drop by reflexivity.
  destruct (exists_last (l := f3)) as (f3' & z & Ez); [now destruct f3|].
  assert (Hz : isWhiteSpace z = false).
  { rewrite forallb_forall in Hws3. apply negb_true_iff, Hws3.
    rewrite Ez. apply in_or_app. right. now left. }
  unfold entry_text. rewrite Ez.
  replace (trimStart pre ++ (c0 :: f0) ++ tab :: f1 ++ tab :: f2 ++ tab :: f3' ++ [z])
    with ((trimStart pre ++ (c0 :: f0) ++ tab :: f1 ++ tab :: f2 ++ tab :: f3') ++ [z]).
  - now apply trimEnd_keep.
  - repeat (rewrite <- ?app_assoc, <- ?app_comm_cons). reflexivity.
Qed.

Section LogFacts.
Context {rt : Runtime}.

Lemma previous_hash_blank (content : jsstring) :
  blankb content = true -> previous_hash (Some content) = GENESIS.
Proof.
  intros Hb. unfold previous_hash, trim. now rewrite (trimStart_blank Hb).
Qed.

Lemma no_newline_entry_text (f0 f1 f2 f3 : jsstring) :
  fieldb f0 = true -> fieldb f1 = true -> fieldb f2 = true -> fieldb f3 = true ->
  forallb (fun c => negb (Ascii.eqb c newline)) (entry_text f0 f1 f2 f3) = true.
Proof.
  intros H0 H1 H2 H3. unfold entry_text.
  repeat (rewrite forallb_app || cbn [forallb]).
  rewrite !(@fieldb_no newline) by auto. reflexivity.
Qed.

(** After a log that ends in a well-formed line, the next entry chains to
    the entry hash of that line. *)
Lemma previous_hash_last_line (pre f0 f1 f2 f3 : jsstring) :
  blankb pre = true \/ (exists p, pre = p ++ [newline]) ->
  cleanb f0 = true -> fieldb f1 = true -> fieldb f2 = true -> cleanb f3 = true ->
  previous_hash (Some (pre ++ log_line f0 f1 f2 f3)) = f3.
Proof.
  intros Hpre H0 H1 H2 H3. unfold previous_hash.
  rewrite trim_entry by assumption.
  pose proof (cleanb_fieldb H0) as Hf0. pose proof (cleanb_fieldb H3) as Hf3.
  set (l := entry_text f0 f1 f2 f3).
  assert (Hl : truthy l = true).
  { unfold l, entry_text. destruct f0; [discriminate|reflexivity]. }
  assert (Hlines : exists before,
             filter truthy (split_on newline (trimStart pre ++ l)) = before ++ [l]).
  { destruct (trimStart pre) as [|x P] eqn:EP.
    - exists []. simpl.
      rewrite split_on_whole by (apply no_newline_entry_text; assumption).
      simpl. now rewrite Hl.
    - destruct (exists_last (l := x :: P)) as (P' & z & Ez); [discriminate|].
      assert (z = newline) as ->.
      { destruct Hpre as [Hblank|[p Hp]];
          [rewrite (trimStart_blank Hblank) in EP; discriminate|].
        destruct (trimStart_suffix pre) as [w Hw].
        rewrite EP, Ez, Hp, app_assoc in Hw.
        now apply app_inj_tail in Hw. }
      rewrite Ez, <- app_assoc. simpl.
      rewrite split_on_app, filter_app.
      rewrite (split_on_whole (s := l)) by (apply no_newline_entry_text; assumption).
      simpl. rewrite Hl. eauto. }
  destruct Hlines as [before ->].
  rewrite length_app. simpl.
  replace (0 <? length before + 1)%nat with true by (symmetry; apply Nat.ltb_lt; lia).
  rewrite last_last. unfold l.
  now rewrite split_entry_text.
Qed.

End LogFacts.

(** The entry hash that a log hands to the next entry: [GENESIS] for a
    log that is absent or blank, and the fourth field of the last line
    for a log that ends in a line of four tab-separated fields (first
    and last clean, so that trimming leaves them alone) which starts the
    log or follows a line feed. *)
Inductive last_entry_hash : option jsstring -> jsstring -> Prop :=
| last_absent : last_entry_hash None GENESIS
| last_blank content :
    blankb content = true -> last_entry_hash (Some content) GENESIS
| last_line pre f0 f1 f2 f3 :
    blankb pre = true \/ (exists p, pre = p ++ [newline]) ->
    cleanb f0 = true -> fieldb f1 = true -> fieldb f2 = true -> cleanb f3 = true ->
    last_entry_hash (Some (pre ++ log_line f0 f1 f2 f3)) f3.

(** The shape matters at the start of a log: [trim] takes the separator
    after an empty first field for leading white space, and the line is
    then read with three fields. *)
Example previous_hash_empty_timestamp :
  previous_hash (Some (log_line [] (lit "ab") GENESIS (lit "cd"))) = GENESIS.
Proof. reflexivity. Qed.

Lemma last_entry_hash_clean (existing : option jsstring) (hash : jsstring) :
  last_entry_hash existing hash -> cleanb hash = true.
Proof. destruct 1; auto. Qed.

Lemma cleanb_toHex (b : Buffer) : b <> [] -> cleanb (toHex b) = true.
Proof.
  intros Hb. unfold cleanb. apply andb_true_iff. split.
  - destruct b as [|x b]; [congruence|reflexivity].
  - clear Hb. induction b as [|x b IH]; [reflexivity|].
    unfold toHex in *. cbn [flat_map app forallb]. rewrite IH.
    destruct x; reflexivity.
Qed.

Section LogFacts.
Context {rt : Runtime}.

Lemma previous_hash_spec (existing : option jsstring) (hash : jsstring) :
  last_entry_hash existing hash -> previous_hash existing = hash.
Proof.
  destruct 1.
  - reflexivity.
  - now apply previous_hash_blank.
  - now apply previous_hash_last_line.
Qed.

End LogFacts.

Section LogSteps.
Context {rt : Runtime}.

(** One append with clean fields, seen from the log: the content grows by
    the line that chains to [prev], and the log then ends in that line. *)
Lemma append_chain_step (existing : option jsstring) (receipt_hash timestamp : jsstring)
    (prev : jsstring) :
  (forall b, sha256 b <> []) ->
  cleanb receipt_hash = true ->
  cleanb timestamp = true ->
  last_entry_hash existing prev ->
  let entry := hashHex (utf8 (prev ++ newline :: receipt_hash ++ newline :: timestamp)) in
  fst (appendTransparencyLog existing receipt_hash (Some timestamp) [])
    = match existing with Some c => c | None => [] end
      ++ log_line timestamp receipt_hash prev entry /\
  last_entry_hash
    (Some (fst (appendTransparencyLog existing receipt_hash (Some timestamp) [])))
    entry.
Proof.
  intros Hsha Hrh Hts Hlast. cbv zeta. unfold appendTransparencyLog.
  rewrite (previous_hash_spec Hlast). cbn [fst]. split; [reflexivity|].
  apply last_line.
  - destruct Hlast as [|content Hblank|pre f0 f1 f2 f3 Hpre]; [now left|now left|].
    right. rewrite log_line_entry_text, app_assoc. eauto.
  - exact Hts.
  - now apply cleanb_fieldb.
  - apply cleanb_fieldb. eapply last_entry_hash_clean; exact Hlast.
  - apply cleanb_toHex, Hsha.
Qed.

End LogSteps.

(** ** Facts about the attestation assembler and the command line *)

Lemma Set_of_In (xs : list Z) (y : Z) : In y (Set_of xs) <-> In y xs.
Proof.
  induction xs as [|x xs IH]; simpl; [tauto|].
  rewrite filter_In, IH, negb_true_iff, Z.eqb_neq.
  destruct (Z.eq_dec x y); intuition congruence.
Qed.

Lemma Set_of_NoDup (xs : list Z) : NoDup (Set_of xs).
Proof.
  induction xs as [|x xs IH]; simpl; constructor.
  - rewrite filter_In, negb_true_iff, Z.eqb_neq. tauto.
  - now apply NoDup_filter.
Qed.

Lemma sampleIndices_positive (leafCount : nat) :
  (0 < leafCount)%nat ->
  let n := Z.of_nat leafCount in
  sampleIndices leafCount = Set_of [0; n / 4; n / 2; (3 * n) / 4; n - 1]%Z.
Proof.
  intros Hpos n. unfold sampleIndices. fold n.
  assert (Hn : (0 < n)%Z) by (unfold n; lia).
  rewrite Z.max_r by lia.
  assert (H4 : (0 <= n / 4 < n)%Z)
    by (split; [apply Z.div_pos; lia|apply Z.div_lt_upper_bound; lia]).
  assert (H2 : (0 <= n / 2 < n)%Z)
    by (split; [apply Z.div_pos; lia|apply Z.div_lt_upper_bound; lia]).
  assert (H3 : (0 <= 3 * n / 4 < n)%Z)
    by (split; [apply Z.div_pos; lia|apply Z.div_lt_upper_bound; lia]).
  cbn [filter].
  repeat match goal with
         | |- context [((0 <=? ?i) && (?i <? n))%Z] =>
             replace ((0 <=? i) && (i <? n))%Z with true
               by (symmetry; apply andb_true_iff; split;
                   [apply Z.leb_le|apply Z.ltb_lt]; lia)
         end.
  reflexivity.
Qed.

Lemma sampleIndices_range (leafCount : nat) (i : Z) :
  In i (sampleIndices leafCount) -> (0 <= i < Z.of_nat leafCount)%Z.
Proof.
  unfold sampleIndices. rewrite Set_of_In, filter_In, andb_true_iff.
  intros [_ [H1 H2]]. apply Z.leb_le in H1. apply Z.ltb_lt in H2. lia.
Qed.

Lemma mapM_Ok {A B} (f : A -> result B) (P : A -> B -> Prop) (xs : list A) :
  (forall x, In x xs -> exists y, f x = Ok y /\ P x y) ->
  exists ys, mapM f xs = Ok ys /\ Forall2 P xs ys.
Proof.
  induction xs as [|x xs IH]; intros Hf.
  - exists []. split; [reflexivity|constructor].
  - destruct (Hf x (or_introl eq_refl)) as (y & Hy & Pxy).
    destruct IH as (ys & Hys & Pys); [intros x' Hx'; apply Hf; now right|].
    exists (y :: ys). simpl. rewrite Hy. simpl. rewrite Hys. simpl.
    split; [reflexivity|now constructor].
Qed.

Section CliFacts.
Context {rt : Runtime}.

(** What one entry of [proofs.sampled] records about the sampled index. *)
Definition records (core : Fingerprint) (i : Z) (p : SampledProof) : Prop :=
  exists mp,
    merkleProof (leaf_hexes core) i = Ok mp /\
    sp_index p = i /\
    sp_leaf_hex p = leaf_hex mp /\
    sp_siblings_hex p = siblings_hex mp /\
    verifies p = verifyProof (root (merkle core)) mp /\
    verifyProof (root_hex (merkleRootFromLeafHex (leaf_hexes core))) mp = true.

Lemma sampledProofs_records (core : Fingerprint) :
  exists ps,
    sampledProofs core = Ok ps /\
    Forall2 (records core) (sampleIndices (length (leaf_hexes core))) ps.
Proof.
  unfold sampledProofs. apply mapM_Ok. intros i Hi.
  apply sampleIndices_range in Hi.
  destruct (proof_roundtrip Hi) as (siblings & Hproof & Hverify).
  rewrite Hproof. simpl. eexists. split; [reflexivity|].
  eexists. split; [exact Hproof|]. repeat split. exact Hverify.
Qed.

Lemma records_summary (core : Fingerprint) (indices : list Z) (ps : list SampledProof) :
  Forall2 (records core) indices ps ->
  map sp_index ps = indices /\
  Forall (fun p =>
            exists mp,
              merkleProof (leaf_hexes core) (sp_index p) = Ok mp /\
              sp_leaf_hex p = leaf_hex mp /\
              sp_siblings_hex p = siblings_hex mp /\
              verifies p = verifyProof (root (merkle core)) mp) ps /\
  (root (merkle core) = root_hex (merkleRootFromLeafHex (leaf_hexes core)) ->
   Forall (fun p => verifies p = true) ps).
Proof.
  induction 1 as [|i p indices ps Hrec Hall (Hidx & Hfor & Hflag)].
  - repeat split; constructor.
  - destruct Hrec as (mp & Hmp & Hi & Hleaf & Hsib & Hver & Htrue).
    split; [simpl; now rewrite Hi, Hidx|]. split.
    + constructor; [|exact Hfor]. exists mp. rewrite Hi. auto.
    + intros Hroot. constructor; [|now apply Hflag].
      now rewrite Hver, Hroot.
Qed.


Lemma main_verify (fuel : nat) (w : World) (args : list jsstring)
    (bundlePath filePath : jsstring) :
  nth_error args 0 = Some (lit "verify") ->
  getFlag args (lit "--bundle") None = Some bundlePath ->
  getFlag args (lit "--file") None = Some filePath ->
  bundlePath <> [] -> filePath <> [] ->
  main fuel w args =
  match verifyBundle fuel (bundles w bundlePath) (open_file w filePath) with
  | None => None
  | Some (Throw _) => Some (Exit 2)
  | Some (Ok res) => Some (Exit (if ok res then 0 else 3))
  end.
Proof.
  intros Hcmd Hb Hf Hbne Hfne. unfold main, main_body.
  rewrite Hcmd.
  change (lit "verify") with ("v"%char :: lit "erify") at 1.
  cbv beta iota.
  replace (str_eqb _ (lit "verify")) with true by reflexivity.
  rewrite Hb, Hf.
  destruct bundlePath as [|b0 bundlePath]; [congruence|].
  destruct filePath as [|f0 filePath]; [congruence|].
  destruct (verifyBundle _ _ _) as [[res|e]|]; reflexivity.
Qed.

(** What a completed attest run has put into the attestation. *)
Lemma attest_core_digests (w : World) (filePath outDir : jsstring)
    (keyDir : option jsstring) (size : nat) (core : Fingerprint)
    (outPath : jsstring) (a : Attestation) :
  attest_core w filePath outDir keyDir size core
    = Ok (Completed (AttestOutput outPath a)) ->
  manifest a = manifest_of w filePath size /\
  claims a = signedPayload_of (sha512Hex (JSON_stringify (manifest a))) core /\
  signed_message_sha512 (signature a) = sha512Hex (JSON_stringify (claims a)).
Proof.
  unfold attest_core. intros H.
  destruct (sampledProofs core) as [ps|e]; [|discriminate]. cbn [bind] in H.
  destruct (match keyDir with Some dir => _ | None => _ end) as [kp|e];
    [|discriminate]. cbn [bind] in H.
  destruct (signEd25519 _ _) as [sig|e]; [|discriminate]. cbn [bind] in H.
  destruct (writeFile _ _ _) as [u|e]; [|discriminate]. cbn [bind] in H.
  destruct (renderAttestationPDF _ _ _) as [u'|e]; [|discriminate]. cbn [bind] in H.
  injection H as _ <-. cbn [manifest claims signature signed_message_sha512].
  repeat split.
Qed.




Lemma invalid_chunk_spec (chunkSize : JSNumber) :
  invalid_chunk chunkSize = false <->
  exists q, chunkSize = Finite q /\ (0 < q)%Q.
Proof.
  unfold invalid_chunk. destruct chunkSize as [ | | | q]; simpl.
  1-3: split; [discriminate|intros (q & Hq & _); discriminate].
  split.
  - intros H. exists q. split; [reflexivity|].
    apply Qnot_le_lt. intros Hle. apply Qle_bool_iff in Hle. congruence.
  - intros (q' & [= <-] & Hpos).
    destruct (Qle_bool q 0) eqn:E; [|reflexivity].
    apply Qle_bool_iff in E. exfalso. eapply Qlt_not_le; eassumption.
Qed.

(** The [hash] command with a finite, positive chunk value of any kind
    passes the check and runs the fingerprinter. *)
Lemma main_hash (fuel : nat) (w : World) (args : list jsstring)
    (filePath : jsstring) (q : Q) :
  nth_error args 0 = Some (lit "hash") ->
  nth_error args 1 = Some filePath ->
  filePath <> [] ->
  NumberOfFlag (getFlag args (lit "--chunk") (Some (lit "4194304"))) = Finite q ->
  (0 < q)%Q ->
  main fuel w args =
  match files w filePath with
  | None => Some (Exit 2)
  | Some file =>
      match streamDigestsAndLeaves fuel file q with
      | None => None
      | Some (Throw _) => Some (Exit 2)
      | Some (Ok r) => Some (Completed (HashOutput filePath r))
      end
  end.
Proof.
  intros Hcmd Hpath Hne Hnum Hpos. unfold main, main_body.
  rewrite Hcmd.
  change (lit "hash") with ("h"%char :: lit "ash") at 1.
  cbv beta iota.
  replace (str_eqb _ (lit "verify")) with false by reflexivity.
  rewrite Hpath. destruct filePath as [|f0 filePath]; [congruence|].
  rewrite Hnum.
  replace (invalid_chunk (Finite q)) with false
    by (symmetry; apply invalid_chunk_spec; eauto).
  replace (str_eqb _ (lit "hash")) with true by reflexivity.
  destruct (files w (f0 :: filePath)) as [file|]; [|reflexivity].
  destruct (streamDigestsAndLeaves fuel file q) as [[r|e]|]; reflexivity.
Qed.

End CliFacts.

(** ** Facts about attest followed by verify *)

Section RoundTrip.
Context {rt : Runtime}.

Lemma runStream_hashers (fuel : nat) (q : Q) (events : list Buffer) :
  forall st st',
    runStream fuel q st events = Some st' ->
    st_fileBlake2b st' = st_fileBlake2b st ++ concat events /\
    st_fileSha512 st' = st_fileSha512 st ++ concat events /\
    st_bytes st' = (st_bytes st + length (concat events))%nat.
Proof.
  induction events as [|e events IH]; intros st st' H.
  - injection H as <-. simpl. rewrite !app_nil_r. repeat split. lia.
  - cbn [runStream] in H. unfold onData in H.
    destruct (drain _ _ _ _ _) as [[[buf' leaves'] chunks']|]; [|discriminate].
    apply IH in H. cbn [st_fileBlake2b st_fileSha512 st_bytes] in H.
    destruct H as (H1 & H2 & H3).
    cbn [concat]. rewrite H1, H2, H3, <- !app_assoc, length_app.
    repeat split. lia.
Qed.

(** The leaves that [verifyBundle] recomputes, as the fingerprinter
    leaves them in [finishStream]. *)
Definition final_leaves (st : StreamState) : list jsstring :=
  if (0 <? length (st_buf st))%nat
  then st_leafHexes st ++ [leafHash (st_buf st)]
  else st_leafHexes st.

Lemma finishStream_leaves (q : Q) (st : StreamState) :
  leaf_hexes (finishStream q st) = final_leaves st /\
  root (merkle (finishStream q st)) = root_hex (merkleRootFromLeafHex (final_leaves st)) /\
  mc_leaf_count (merkle (finishStream q st))
    = leaf_count (merkleRootFromLeafHex (final_leaves st)) /\
  chunk_size (merkle (finishStream q st)) = q /\
  blake2b_512 (file_digests (finishStream q st)) = toHex (blake2b512 (st_fileBlake2b st)) /\
  sha512_hex (file_digests (finishStream q st)) = toHex (sha512 (st_fileSha512 st)).
Proof.
  unfold finishStream, final_leaves.
  destruct (0 <? length (st_buf st))%nat; repeat split.
Qed.

(** The [signature] member of the attestation document. *)
Definition signature_json (a : Attestation) : JSON :=
  JObj [(lit "algorithm", JStr (sig_algorithm (signature a)));
        (lit "public_key_pem", JStr (public_key_pem (signature a)));
        (lit "signed_message_sha512", JStr (signed_message_sha512 (signature a)));
        (lit "signature_b64", JStr (signature_b64 (signature a)))].

(** The checks that [verifyBundle] computes for a bundle written by the
    attest branch, from the state of the stream at its end. *)
Definition attestation_checks (a : Attestation) (core : Fingerprint)
    (st : StreamState) (sigOk : bool) : Checks :=
  {| file_blake2b_match :=
       str_eqb (toHex (blake2b512 (st_fileBlake2b st))) (blake2b_512 (file_digests core));
     file_sha512_match :=
       str_eqb (toHex (sha512 (st_fileSha512 st))) (sha512_hex (file_digests core));
     merkle_root_match :=
       str_eqb (root_hex (merkleRootFromLeafHex (final_leaves st))) (root (merkle core));
     leaf_count_match :=
       Qeq_bool (inject_Z (Z.of_nat (leaf_count (merkleRootFromLeafHex (final_leaves st)))))
                (inject_Z (Z.of_nat (mc_leaf_count (merkle core))));
     signed_message_sha512_match :=
       str_eqb (sha512Hex (JSON_stringify (claims a))) (signed_message_sha512 (signature a));
     signature_valid := sigOk |}.

Definition attestation_signature_ok (a : Attestation) : result bool :=
  if str_eqb (lit "ed25519") (sig_algorithm (signature a))
  then verifyEd25519 (public_key_pem (signature a)) (utf8 (JSON_stringify (claims a)))
         (signature_b64 (signature a))
  else Ok false.

(** [verifyBundle] on a bundle written by the attest branch, step by
    step: the stream, the signature, the checks. *)
Lemma verifyBundle_attestation (fuel : nat) (a : Attestation) (digest : jsstring)
    (core : Fingerprint) (file : InputFile) :
  claims a = signedPayload_of digest core ->
  Qle_bool (chunk_size (merkle core)) 0 = false ->
  verifyBundle fuel (Ok (attestation_json a)) file =
  match runStream fuel (chunk_size (merkle core)) initial_state (data_events file) with
  | None => None
  | Some st =>
      match stream_error file with
      | Some e => Some (Throw e)
      | None =>
          Some (sigOk <- attestation_signature_ok a ;;
                Ok {| ok := forallb (fun b => b)
                              (Object_values (attestation_checks a core st sigOk));
                      vr_bytes := st_bytes st;
                      expected :=
                        {| exp_file_digests := file_digests_json (file_digests core);
                           exp_merkle := merkle_json (merkle core) |};
                      actual :=
                        {| act_file_digests :=
                             {| blake2b_512 := toHex (blake2b512 (st_fileBlake2b st));
                                sha512_hex := toHex (sha512 (st_fileSha512 st)) |};
                           act_merkle_root :=
                             root_hex (merkleRootFromLeafHex (final_leaves st));
                           act_leaf_count :=
                             leaf_count (merkleRootFromLeafHex (final_leaves st)) |};
                      checks := attestation_checks a core st sigOk |})
      end
  end.
Proof.
  intros Hclaims Hq.
  unfold verifyBundle, attestation_json, attestation_checks, attestation_signature_ok.
  rewrite Hclaims.
  match goal with
  | |- ?L = ?R =>
      let L' := eval lazy beta iota zeta delta
                  [bind get lookup or_empty ToNumber Number_isFinite negb orb num_leb
                   str_eqb lit list_ascii_of_string Ascii.eqb Bool.eqb andb fst snd
                   attestation_json signedPayload_of merkle_json file_digests_json]
                in L in
      change (L' = R)
  end.
  rewrite Hq.
  destruct (runStream fuel (chunk_size (merkle core)) initial_state (data_events file))
    as [st|]; [|reflexivity].
  destruct (stream_error file); reflexivity.
Qed.

Lemma attest_core_inv (w : World) (filePath outDir : jsstring)
    (keyDir : option jsstring) (size : nat) (core : Fingerprint)
    (outPath : jsstring) (a : Attestation) :
  attest_core w filePath outDir keyDir size core
    = Ok (Completed (AttestOutput outPath a)) ->
  exists dir kp s,
    keyDir = Some dir /\
    loadOrCreateEd25519Keypair w dir = Ok kp /\
    crypto_sign (utf8 (JSON_stringify (claims a))) (privateKeyPem kp) = Ok s /\
    sig_algorithm (signature a) = lit "ed25519" /\
    public_key_pem (signature a) = publicKeyPem kp /\
    signature_b64 (signature a) = base64_encode s /\
    merkle_root (proofs a) = root (merkle core) /\
    sampledProofs core = Ok (sampled (proofs a)).
Proof.
  unfold attest_core. intros H.
  destruct (sampledProofs core) as [ps|e]; [|discriminate]. cbn [bind] in H.
  destruct keyDir as [dir|]; [|discriminate].
  destruct (loadOrCreateEd25519Keypair w dir) as [kp|e] eqn:Hkp; [|discriminate].
  cbn [bind] in H. unfold signEd25519 in H.
  destruct (crypto_sign _ _) as [s|e] eqn:Hs; [|discriminate]. cbn [bind] in H.
  destruct (writeFile _ _ _) as [u|e]; [|discriminate]. cbn [bind] in H.
  destruct (renderAttestationPDF _ _ _) as [u'|e]; [|discriminate]. cbn [bind] in H.
  injection H as _ <-.
  exists dir, kp, s. cbn [claims signature proofs sig_algorithm public_key_pem
                           signature_b64 merkle_root sampled].
  repeat split; assumption.
Qed.

Lemma Qeq_bool_refl (q : Q) : Qeq_bool q q = true.
Proof. apply Qeq_bool_iff. reflexivity. Qed.

Lemma fingerprint_result (fuel : nat) (file : InputFile) (c : nat) (core : Fingerprint) :
  is_file file = true ->
  stream_error file = None ->
  (1 <= c)%nat ->
  (length (concat (data_events file)) < fuel)%nat ->
  streamDigestsAndLeaves fuel file (inject_Z (Z.of_nat c)) = Some (Ok core) ->
  core = finishStream (inject_Z (Z.of_nat c)) (consumed c (concat (data_events file))) /\
  runStream fuel (inject_Z (Z.of_nat c)) initial_state (data_events file)
    = Some (consumed c (concat (data_events file))).
Proof.
  intros Hfile Herr Hc Hfuel Hrun.
  rewrite (fingerprint_integral Hfile Herr Hc Hfuel) in Hrun.
  injection Hrun as <-. split; [reflexivity|].
  rewrite <- (consumed_nil c). now apply runStream_consumed.
Qed.

End RoundTrip.

(** ** Facts about the verifier and the attest branch, step by step *)

(** [x.k] on a value that is not [null]: [undefined] when [x] is not an
    object or has no such member. *)
Definition member (x : JSON) (k : jsstring) : option JSON :=
  match x with
  | JObj members => lookup k members
  | _ => None
  end.




Section VerifyFacts.
Context {rt : Runtime}.







(** The fingerprint that [streamDigestsAndLeaves] returns carries the
    root and the number of its own leaves. *)
Lemma streamDigestsAndLeaves_root (fuel : nat) (file : InputFile) (q : Q)
    (core : Fingerprint) :
  streamDigestsAndLeaves fuel file q = Some (Ok core) ->
  root (merkle core) = root_hex (merkleRootFromLeafHex (leaf_hexes core)) /\
  mc_leaf_count (merkle core) = length (leaf_hexes core).
Proof.
  unfold streamDigestsAndLeaves. intros H.
  destruct (negb (is_file file)); [discriminate|].
  destruct (runStream _ _ _ _) as [st|]; [|discriminate].
  destruct (stream_error file); [discriminate|].
  assert (E : core = finishStream q st) by congruence. subst core.
  destruct (finishStream_leaves q st) as (Hl & Hr & Hc & _).
  rewrite Hr, Hc, Hl. split; [reflexivity|apply leaf_count_length].
Qed.

(** A run of [main] that ends with an attestation is the attest branch
    on the fingerprint of the file. *)
Lemma main_attest_inv (fuel : nat) (w : World) (args : list jsstring)
    (outPath : jsstring) (a : Attestation) :
  main fuel w args = Some (Completed (AttestOutput outPath a)) ->
  nth_error args 0 = Some (lit "attest") /\
  exists filePath file q core outDir,
    nth_error args 1 = Some filePath /\
    files w filePath = Some file /\
    streamDigestsAndLeaves fuel file q = Some (Ok core) /\
    attest_core w filePath outDir (getFlag args (lit "--keys") (Some (lit "keys")))
      (file_size file) core
    = Ok (Completed (AttestOutput outPath a)).
Proof.
  unfold main, main_body, usage. intros H.
  destruct (nth_error args 0) as [cmd|]; [|discriminate].
  destruct cmd as [|c0 cmd]; [discriminate|].
  destruct (str_eqb (c0 :: cmd) (lit "verify")).
  { repeat match type of H with
           | context [match ?x with _ => _ end] =>
               lazymatch x with
               | context [match _ with _ => _ end] => fail
               | _ => destruct x; try discriminate
               end
           end. }
  destruct (nth_error args 1) as [[|f0 filePath]|]; try discriminate.
  destruct (invalid_chunk _); [discriminate|].
  destruct (str_eqb (c0 :: cmd) (lit "hash")).
  { destruct (files w (f0 :: filePath)) as [file|]; [|discriminate].
    destruct (streamDigestsAndLeaves _ _ _) as [[r|e]|]; discriminate. }
  destruct (str_eqb (c0 :: cmd) (lit "attest")) eqn:Ecmd; [|discriminate].
  apply str_eqb_eq in Ecmd. rewrite Ecmd. split; [reflexivity|].
  destruct (getFlag args (lit "--out") (Some (lit "out"))) as [outDir|];
    [|discriminate].
  destruct (mkdir w outDir); [|discriminate]. cbn [bind] in H.
  destruct (files w (f0 :: filePath)) as [file|] eqn:Hfile; [|discriminate].
  destruct (streamDigestsAndLeaves fuel file _) as [[core|e]|] eqn:Hcore;
    try discriminate.
  destruct (attest_core _ _ _ _ _ _) as [out|e] eqn:Hattest; [|discriminate].
  exists (f0 :: filePath), file. eexists. exists core, outDir.
  split; [reflexivity|]. split; [exact Hfile|]. split; [exact Hcore|].
  rewrite Hattest. congruence.
Qed.

End VerifyFacts.

(** ** A stand-in runtime for running the definitions

    The hashes keep their whole input behind a tag byte, so that two
    digests agree only on equal messages; numbers print and parse in plain
    decimal notation. *)

Module Demo.

Fixpoint digits (fuel : nat) (n : N) (acc : jsstring) : jsstring :=
  match fuel with
  | O => acc
  | S fuel' =>
      let acc' := ascii_of_N (48 + n mod 10) :: acc in
      if (n / 10 =? 0)%N then acc' else digits fuel' (n / 10)%N acc'
  end.

Definition decimal (z : Z) : jsstring :=
  let n := Z.to_N (Z.abs z) in
  let ds := digits (S (N.to_nat (N.size n))) n [] in
  if (z <? 0)%Z then lit "-" ++ ds else ds.

Definition number_toString (q : Q) : jsstring := decimal (Qfloor q).

Fixpoint digits_value (s : jsstring) (acc : N) : option N :=
  match s with
  | [] => Some acc
  | c :: rest =>
      let n := code c in
      if ((48 <=? n) && (n <=? 57))%N then digits_value rest (10 * acc + (n - 48))%N
      else None
  end.

(** Decimal literals [ddd] and [ddd.ddd]; anything else is NaN. *)
Definition stringToNumber (s : jsstring) : JSNumber :=
  match split_on (ascii_of_N 46) s with
  | [ip] =>
      match ip, digits_value ip 0 with
      | _ :: _, Some n => Finite (inject_Z (Z.of_N n))
      | _, _ => NaN
      end
  | [ip; fp] =>
      match ip, fp, digits_value (ip ++ fp) 0 with
      | _ :: _, _ :: _, Some n =>
          Finite (Z.of_N n # Pos.pow 10 (Pos.of_nat (length fp)))
      | _, _, _ => NaN
      end
  | _ => NaN
  end.

Definition runtime : Runtime := {|
  blake2b512 := fun b => x01 :: b;
  sha512 := fun b => x02 :: b;
  sha256 := fun b => x03 :: b;
  crypto_sign := fun message _ => Ok (x04 :: message);
  crypto_verify := fun message _ sig =>
    Ok (if list_eq_dec Byte.byte_eq_dec sig (x04 :: message) then true else false);
  base64_encode := toHex;
  base64_decode := fromHex;
  Number_toString := number_toString;
  StringToNumber := stringToNumber
|}.

(** Three leaves: the second level has an odd node out. *)
Definition three_leaves : list jsstring := [lit "0a"; lit "0b"; lit "0c"].

(** A file of five bytes, delivered in two reads. *)
Definition five_bytes : InputFile :=
  {| is_file := true; file_size := 5;
     data_events := [[x61; x62; x63]; [x64; x65]];
     stream_error := None |}.

Definition keypair : Keypair :=
  {| publicKeyPem := lit "PUBLIC"; privateKeyPem := lit "PRIVATE" |}.

Definition world (bundle : result JSON) : World :=
  {| files := fun p => if str_eqb p (lit "data.bin") then Some five_bytes else None;
     bundles := fun _ => bundle;
     mkdir := fun _ => Ok tt;
     loadOrCreateEd25519Keypair := fun _ => Ok keypair;
     writeFile := fun _ _ => Ok tt;
     renderAttestationPDF := fun _ _ => Ok tt;
     path_basename := fun p => p;
     path_join := fun d f => d ++ lit "/" ++ f;
     randomUUID := lit "00000000-0000-4000-8000-000000000000";
     now_ISO := lit "2025-01-01T00:00:00.000Z";
     process_version := lit "v20.0.0";
     process_platform := lit "linux";
     process_arch := lit "x64" |}.

(** The fingerprint of [five_bytes] for the chunk width 2. *)
Definition core : Fingerprint :=
  finishStream (rt := runtime) 2 (consumed (rt := runtime) 2 [x61; x62; x63; x64; x65]).

Definition bundle_claims : JSON :=
  signedPayload_of (lit "00") core.

(** A bundle that matches [five_bytes]. *)
Definition bundle : JSON :=
  JObj [
    (lit "claims", bundle_claims);
    (lit "signature", JObj [
       (lit "algorithm", JStr (lit "ed25519"));
       (lit "public_key_pem", JStr (lit "PUBLIC"));
       (lit "signed_message_sha512",
        JStr (sha512Hex (rt := runtime) (JSON_stringify (rt := runtime) bundle_claims)));
       (lit "signature_b64",
        JStr (toHex (x04 :: utf8 (JSON_stringify (rt := runtime) bundle_claims))))])
  ].

Definition no_checks : Checks :=
  {| file_blake2b_match := false; file_sha512_match := false;
     merkle_root_match := false; leaf_count_match := false;
     signed_message_sha512_match := false; signature_valid := false |}.

(** What [verifyBundle] returns for [bundle] and [five_bytes]. *)
Definition verify_result : VerifyResult :=
  Eval vm_compute in
    match verifyBundle (rt := runtime) 10 (Ok bundle) five_bytes with
    | Some (Ok res) => res
    | _ => {| ok := false; vr_bytes := 0;
              expected := {| exp_file_digests := JNull; exp_merkle := JNull |};
              actual := {| act_file_digests := {| blake2b_512 := []; sha512_hex := [] |};
                           act_merkle_root := []; act_leaf_count := 0 |};
              checks := no_checks |}
    end.

(** The attestation that the attest branch assembles for [five_bytes]. *)
Definition attestation : Attestation :=
  Eval vm_compute in
    match attest_core (rt := runtime) (world (Throw TypeError)) (lit "data.bin")
            (lit "out") (Some (lit "keys")) 5 core with
    | Ok (Completed (AttestOutput _ a)) => a
    | _ => {| schema := []; manifest := JNull; claims := JNull;
              proofs := {| proofs_type := []; merkle_root := [];
                           proofs_algorithm := []; sampled := [] |};
              signature := {| sig_algorithm := []; public_key_pem := [];
                              signed_message_sha512 := []; signature_b64 := [] |} |}
    end.

Definition verify_args : list jsstring :=
  [lit "verify"; lit "--bundle"; lit "attestation.json"; lit "--file"; lit "data.bin"].

Definition hash_args (chunk : jsstring) : list jsstring :=
  [lit "hash"; lit "data.bin"; lit "--chunk"; chunk].

(** An object that contains itself: [o.self = o]. *)
Definition self_heap : Heap := [HRecord [(lit "self", HRef 0)]].

(** One log line, as a first append leaves it. *)
Definition one_line_log : jsstring :=
  log_line (lit "2025-01-01T00:00:00.000Z") (lit "ab") GENESIS (lit "cd").

Definition ab_object : JSON :=
  JObj [(lit "a", JNum (Finite 1)); (lit "b", JNum (Finite 2))].
Definition ba_object : JSON :=
  JObj [(lit "b", JNum (Finite 2)); (lit "a", JNum (Finite 1))].

End Demo.

(** * The properties of the specification *)

Section Properties.
Context {rt : Runtime}.

(** C1. For every non-empty list of leaf hashes and every index [i] with
    [0 <= i < length], [merkleProof] returns an inclusion proof and
    [verifyProof] accepts it against the root computed by
    [merkleRootFromLeafHex]; levels of odd size, where the last node is
    paired with itself, are included. *)
Theorem C1_proof_verifies_against_root (leaves : list jsstring) (i : Z) :
  leaves <> [] ->
  (0 <= i < Z.of_nat (length leaves))%Z ->
  exists proof,
    merkleProof leaves i = Ok proof /\
    index proof = i /\
    verifyProof (root_hex (merkleRootFromLeafHex leaves)) proof = true.
Proof.
  intros _ Hi. destruct (proof_roundtrip Hi) as (siblings & Hproof & Hverify).
  eexists. split; [exact Hproof|]. split; [reflexivity|exact Hverify].
Qed.

(** C4. [merkleRootFromLeafHex] on the empty leaf list returns, as
    [root_hex], the hex encoding of BLAKE2b-512 of the ASCII bytes of
    ["resethiq:empty"], and [leaf_count = 0]. *)
Theorem C4_empty_root_is_sentinel :
  merkleRootFromLeafHex [] =
    {| root_hex := toHex (blake2b512 (map byte_of_ascii (lit "resethiq:empty")));
       leaf_count := 0 |}.
Proof. reflexivity. Qed.

(** C3. For every input byte stream [x] and every positive integral
    chunk size [c], the fingerprinter returns with
    [leaf_count = ceil(len(x) / c)] leaves (none when [x] is empty, one
    covering the whole file when [c] exceeds [len(x) > 0]), leaf [i]
    being the BLAKE2b-512 digest of the [i]-th chunk in stream order. *)
Theorem C3_fingerprint_leaves (fuel : nat) (file : InputFile) (c : Z) :
  let x := concat (data_events file) in
  is_file file = true ->
  stream_error file = None ->
  (0 < c)%Z ->
  (length x < fuel)%nat ->
  exists r,
    streamDigestsAndLeaves fuel file (inject_Z c) = Some (Ok r) /\
    Z.of_nat (length (leaf_hexes r)) = ((Z.of_nat (length x) + c - 1) / c)%Z /\
    mc_leaf_count (merkle r) = length (leaf_hexes r) /\
    chunks_count r = length (leaf_hexes r) /\
    bytes r = length x /\
    (x = [] -> leaf_hexes r = []) /\
    ((0 < Z.of_nat (length x) < c)%Z -> leaf_hexes r = [toHex (blake2b512 x)]) /\
    (forall i, (i < length (leaf_hexes r))%nat ->
       nth i (leaf_hexes r) [] =
       toHex (blake2b512 (firstn (Z.to_nat c) (skipn (i * Z.to_nat c) x)))).
Proof.
  intros x Hfile Herr Hc Hfuel.
  set (c' := Z.to_nat c).
  assert (Hc' : (1 <= c')%nat) by (unfold c'; lia).
  assert (Ec : inject_Z c = inject_Z (Z.of_nat c')) by (unfold c'; now rewrite Z2Nat.id by lia).
  rewrite Ec.
  exists (finishStream (inject_Z (Z.of_nat c')) (consumed c' x)).
  split; [now apply fingerprint_integral|].
  destruct (finish_counts (inject_Z (Z.of_nat c')) c' x) as (Hchunks & Hcount & Hbytes).
  pose proof (finish_leaf_hexes (inject_Z (Z.of_nat c')) x Hc') as Hleaves.
  assert (Hlen : length (leaf_hexes (finishStream (inject_Z (Z.of_nat c')) (consumed c' x)))
                 = ((length x + c' - 1) / c')%nat).
  { now rewrite Hleaves, length_map, length_seq. }
  split; [|split; [exact Hcount|split; [exact Hchunks|split; [exact Hbytes|]]]].
  { rewrite Hlen, Nat2Z.inj_div, Nat2Z.inj_sub, Nat2Z.inj_add by lia.
    unfold c'. now rewrite Z2Nat.id by lia. }
  fold (leafHash x).
  assert (Hfold : forall i,
            toHex (blake2b512 (firstn (Z.to_nat c) (skipn (i * Z.to_nat c) x)))
            = leafHash (firstn (Z.to_nat c) (skipn (i * Z.to_nat c) x)))
    by reflexivity.
  split; [|split].
  - intros Hx. rewrite Hleaves, Hx. simpl.
    rewrite Nat.div_small by lia. reflexivity.
  - intros Hsmall. rewrite Hleaves.
    replace ((length x + c' - 1) / c')%nat with 1%nat.
    + simpl. unfold chunkAt. simpl. f_equal. f_equal.
      apply firstn_all2. unfold c'. lia.
    + apply (Nat.div_unique _ _ _ (length x - 1)); unfold c' in *; lia.
  - intros i Hi. rewrite Hlen in Hi. rewrite Hleaves, Hfold.
    rewrite (nth_indep _ [] (leafHash (chunkAt c' x 0)))
      by (rewrite length_map, length_seq; exact Hi).
    rewrite (map_nth (fun i => leafHash (chunkAt c' x i))).
    now rewrite seq_nth by exact Hi.
Qed.

(** C5. Every append to the transparency log adds, after the existing
    content and leaving it as it is, the one line
    [timestamp TAB receipt_hash TAB prev_hash TAB entry_hash], where
    [entry_hash] is the SHA-256 hex digest of
    [prev_hash LF receipt_hash LF timestamp] and [prev_hash] is the entry
    hash of the last existing line, or [GENESIS] when the log is empty or
    absent. When timestamp and receipt hash are clean fields, the log ends
    in a well-formed line again, whose entry hash is the one returned. *)
Theorem C5_append_chains_entry (existing : option jsstring)
    (receipt_hash : jsstring) (timestampISO : option jsstring) (now prev : jsstring) :
  last_entry_hash existing prev ->
  let timestamp := match timestampISO with Some t => t | None => now end in
  let old := match existing with Some content => content | None => [] end in
  let '(content, r) := appendTransparencyLog existing receipt_hash timestampISO now in
  prev_hash r = prev /\
  entry_hash r = toHex (sha256 (utf8 (prev ++ newline :: receipt_hash ++ newline :: timestamp))) /\
  content = old ++ timestamp ++ tab :: receipt_hash ++ tab :: prev ++ tab :: entry_hash r ++ [newline] /\
  (cleanb timestamp = true -> cleanb receipt_hash = true ->
   (forall b, sha256 b <> []) ->
   last_entry_hash (Some content) (entry_hash r)).
Proof.
  intros Hlast timestamp old. unfold appendTransparencyLog.
  rewrite (previous_hash_spec Hlast). fold timestamp. fold old.
  cbn [prev_hash entry_hash]. repeat split.
  intros Hts Hrh Hsha. unfold hashHex.
  assert (Hold : blankb old = true \/ exists p, old = p ++ [newline]).
  { unfold old. destruct Hlast as [|content Hblank|pre f0 f1 f2 f3 Hpre].
    - now left.
    - now left.
    - right. rewrite log_line_entry_text, app_assoc. eauto. }
  change (old ++ timestamp ++ tab :: receipt_hash ++ tab :: prev ++ tab ::
            toHex (sha256 (utf8 (prev ++ newline :: receipt_hash ++ newline :: timestamp)))
            ++ [newline])
    with (old ++ log_line timestamp receipt_hash prev
            (toHex (sha256 (utf8 (prev ++ newline :: receipt_hash ++ newline :: timestamp))))).
  apply last_line; auto using cleanb_fieldb, cleanb_toHex.
  apply cleanb_fieldb. eapply last_entry_hash_clean; exact Hlast.
Qed.

(** C6. For a fingerprint with [n] leaves the attest operation samples
    the indices [0, n/4, n/2, 3n/4, n-1] (integer division) without
    repetition when [n > 0] (for [n = 100]: 0, 25, 50, 75, 99) and none
    when [n = 0]; for every sampled index it builds the inclusion proof
    and records, with the proof, its self-verification flag. Every
    attestation that the attest branch completes on the fingerprint holds
    exactly these records as [proofs.sampled], each written with its
    [index], [leaf_hex], [siblings_hex] and [verifies]; and a run of
    [main] that ends with an attestation is the attest branch on the
    fingerprint of the file. The flag is [true] when the fingerprint
    carries the root of its leaves, as every fingerprint that
    [streamDigestsAndLeaves] returns does. *)
Theorem C6_deterministic_sampling (core : Fingerprint) :
  let leaves := leaf_hexes core in
  let n := Z.of_nat (length leaves) in
  sampleIndices (length leaves) =
    (if (n =? 0)%Z then [] else Set_of [0; n / 4; n / 2; (3 * n) / 4; n - 1]%Z) /\
  NoDup (sampleIndices (length leaves)) /\
  sampleIndices 100 = [0; 25; 50; 75; 99]%Z /\
  (exists ps,
    sampledProofs core = Ok ps /\
    map sp_index ps = sampleIndices (length leaves) /\
    Forall (fun p =>
              exists mp,
                merkleProof leaves (sp_index p) = Ok mp /\
                sp_leaf_hex p = leaf_hex mp /\
                sp_siblings_hex p = siblings_hex mp /\
                verifies p = verifyProof (root (merkle core)) mp) ps /\
    (root (merkle core) = root_hex (merkleRootFromLeafHex leaves) ->
     Forall (fun p => verifies p = true) ps) /\
    (forall (w : World) (filePath outDir : jsstring) (keyDir : option jsstring)
            (size : nat) (outPath : jsstring) (a : Attestation),
       attest_core w filePath outDir keyDir size core
         = Ok (Completed (AttestOutput outPath a)) ->
       sampled (proofs a) = ps /\
       member (or_empty (member (attestation_json a) (lit "proofs"))) (lit "sampled")
       = Some (JArr (map (fun p =>
                            JObj [(lit "index", JNum (ofZ (sp_index p)));
                                  (lit "leaf_hex", JStr (sp_leaf_hex p));
                                  (lit "siblings_hex",
                                   JArr (map JStr (sp_siblings_hex p)));
                                  (lit "verifies", JBool (verifies p))])
                         ps)))) /\
  (forall (fuel : nat) (file : InputFile) (q : Q),
     streamDigestsAndLeaves fuel file q = Some (Ok core) ->
     root (merkle core) = root_hex (merkleRootFromLeafHex leaves) /\
     mc_leaf_count (merkle core) = length leaves) /\
  (forall (fuel : nat) (w : World) (args : list jsstring) (outPath : jsstring)
          (a : Attestation),
     main fuel w args = Some (Completed (AttestOutput outPath a)) ->
     nth_error args 0 = Some (lit "attest") /\
     exists filePath file q core' outDir,
       nth_error args 1 = Some filePath /\
       files w filePath = Some file /\
       streamDigestsAndLeaves fuel file q = Some (Ok core') /\
       attest_core w filePath outDir (getFlag args (lit "--keys") (Some (lit "keys")))
         (file_size file) core'
       = Ok (Completed (AttestOutput outPath a))).
Proof.
  cbv zeta. split; [|split; [|split; [|split; [|split]]]].
  - destruct (length (leaf_hexes core)) as [|m] eqn:En.
    + reflexivity.
    + replace (Z.of_nat (S m) =? 0)%Z with false by (symmetry; apply Z.eqb_neq; lia).
      apply sampleIndices_positive. lia.
  - apply Set_of_NoDup.
  - reflexivity.
  - destruct (sampledProofs_records core) as (ps & Hps & Hall).
    exists ps. split; [exact Hps|].
    destruct (records_summary Hall) as (H1 & H2 & H3).
    split; [exact H1|]. split; [exact H2|]. split; [exact H3|].
    intros w filePath outDir keyDir size outPath a Hrun.
    destruct (attest_core_inv Hrun) as (_ & _ & _ & _ & _ & _ & _ & _ & _ & _ & Hsampled).
    assert (E : sampled (proofs a) = ps) by congruence.
    split; [exact E|]. rewrite <- E. reflexivity.
  - intros fuel file q. apply streamDigestsAndLeaves_root.
  - intros fuel w args outPath a. apply main_attest_inv.
Qed.


(** C10. Two JSON-like values that denote the same finite map at every
    object node, whatever the order in which the keys were inserted, have
    the same [stableStringify] string and so the same [hashJSON]; the
    [receipt_hash] that [createReceipt] computes is the same for two such
    inputs. *)
Theorem C10_key_order_independent (a b : JSON) :
  same_map a b ->
  stableStringify a = stableStringify b /\
  hashJSON a = hashJSON b /\
  forall data1 data2,
    a = JObj data1 -> b = JObj data2 ->
    lookup (lit "receipt_hash") (createReceipt data1)
    = lookup (lit "receipt_hash") (createReceipt data2).
Proof.
  intros Hsame. split; [|split].
  - now apply stableStringify_same_map.
  - unfold hashJSON. now rewrite (stableStringify_same_map Hsame).
  - intros data1 data2 -> ->.
    rewrite !createReceipt_receipt_hash. unfold hashJSON.
    now rewrite (stableStringify_same_map (receipt_base_same_map Hsame)).
Qed.


(** C8 (as the code has it). [stableStringify] has no error of its own.
    On a structure from which an object that contains itself can be
    reached it never returns a string: whatever the size of the call
    stack, the call ends in an exception of the runtime, the RangeError of
    the exhausted stack or the TypeError that [Object.keys(undefined)]
    raises when an [undefined] member is met first; on plain data (no
    [undefined], every reference in the heap) it is always the RangeError.
    A non-finite number (NaN, Infinity, -Infinity) is not refused: it is
    serialized as [null]. *)
Theorem C8_cycle_exhausts_stack_nonfinite_is_null (hp : Heap) (stack a b : nat)
    (n : JSNumber) :
  reaches hp a b ->
  on_cycle hp b ->
  Number_isFinite n = false ->
  (exists e, stableStringifyH stack hp (HRef a) = Throw e /\
             (e = RangeError \/ e = TypeError)) /\
  (closed_heap hp -> stableStringifyH stack hp (HRef a) = Throw RangeError) /\
  stableStringifyH (S stack) hp (HNum n) = Ok (lit "null") /\
  stableStringify (JNum n) = lit "null".
Proof.
  intros Hreach Hcyc Hn.
  destruct (stableStringifyH_reaches_cycle Hreach Hcyc stack) as [e He].
  split; [|split; [|split]].
  - exists e. split; [exact He|]. eapply stableStringifyH_errors; exact He.
  - intros Hclosed. rewrite He. f_equal.
    eapply stableStringifyH_RangeError; [exact Hclosed| |exact He].
    simpl. eapply reaches_cycle_in_heap; eassumption.
  - destruct n; try discriminate; reflexivity.
  - destruct n; try discriminate; reflexivity.
Qed.

End Properties.


(** * Further properties of the code *)

Section MerkleProperties.
Context {rt : Runtime}.

(** X1. [merkleProof] throws "Cannot build proof for empty tree" on an
    empty leaf list and "Proof index out of range" for an index below 0
    or not below the number of leaves; it returns a proof exactly for the
    indices in range. *)
Theorem merkleProof_errors (leafHex : list jsstring) (index : Z) :
  (leafHex = [] ->
   merkleProof leafHex index = Throw (Error (lit "Cannot build proof for empty tree"))) /\
  (leafHex <> [] -> (index < 0 \/ Z.of_nat (length leafHex) <= index)%Z ->
   merkleProof leafHex index = Throw (Error (lit "Proof index out of range"))) /\
  ((exists proof, merkleProof leafHex index = Ok proof) <->
   (0 <= index < Z.of_nat (length leafHex))%Z).
Proof.
  split; [|split].
  - intros ->. reflexivity.
  - intros Hne Hout. unfold merkleProof.
    destruct leafHex as [|l ls]; [congruence|]. cbn [length Nat.eqb].
    replace ((index <? 0) || (Z.of_nat (S (length ls)) <=? index))%Z with true;
      [reflexivity|].
    symmetry. apply orb_true_iff.
    destruct Hout; [left; apply Z.ltb_lt|right; apply Z.leb_le]; simpl in *; lia.
  - split.
    + intros [proof Hproof]. unfold merkleProof in Hproof.
      destruct (length leafHex =? 0)%nat; [discriminate|].
      destruct ((index <? 0) || (Z.of_nat (length leafHex) <=? index))%Z eqn:E;
        [discriminate|].
      apply orb_false_iff in E. destruct E as [E1 E2].
      apply Z.ltb_ge in E1. apply Z.leb_gt in E2. lia.
    + intros Hin. destruct (proof_roundtrip Hin) as (siblings & Hproof & _).
      eauto.
Qed.

(** X2. An inclusion proof has [ceil(log2(n))] siblings for [n] leaves. *)
Theorem proof_size_logarithmic (leafHex : list jsstring) (index : Z)
    (proof : MerkleProof) :
  merkleProof leafHex index = Ok proof ->
  length (siblings_hex proof) = Nat.log2_up (length leafHex).
Proof. apply merkleProof_siblings_count. Qed.

(** X3. The root does not tell a leaf list of odd length (three leaves or
    more) from the list extended by a copy of its last leaf: both have
    the same [root_hex], with leaf counts that differ by one. *)
Theorem duplicated_last_leaf_same_root (leaves : list jsstring) (x : jsstring) :
  leaves <> [] ->
  Nat.even (length leaves) = true ->
  root_hex (merkleRootFromLeafHex (leaves ++ [x; x]))
    = root_hex (merkleRootFromLeafHex (leaves ++ [x])) /\
  leaf_count (merkleRootFromLeafHex (leaves ++ [x; x]))
    = S (leaf_count (merkleRootFromLeafHex (leaves ++ [x]))).
Proof.
  intros Hne Heven. split.
  - assert (Hroot : forall l, l <> [] ->
              root_hex (merkleRootFromLeafHex l)
              = toHex (nth 0 (rootLoop (map fromHex l)) [])).
    { intros l Hl. destruct l; [congruence|reflexivity]. }
    rewrite !Hroot by (intros H; apply app_eq_nil in H; destruct H; discriminate).
    rewrite !map_app. cbn [map].
    assert (Hlen : (2 <= length leaves)%nat).
    { destruct leaves as [|a [|b rest]]; [congruence|discriminate|simpl; lia]. }
    rewrite (rootLoop_step (map fromHex leaves ++ [fromHex x; fromHex x])).
    rewrite (rootLoop_step (map fromHex leaves ++ [fromHex x])).
    rewrite !length_app, !length_map. cbn [length].
    destruct (lt_dec 1 (length leaves + 2)) as [_|H]; [|lia].
    destruct (lt_dec 1 (length leaves + 1)) as [_|H]; [|lia].
    rewrite nextLevel_duplicate_last by (now rewrite length_map).
    reflexivity.
  - rewrite !leaf_count_length, !length_app. simpl. lia.
Qed.

(** X4. If a proof verifies against a root and still verifies after one
    of its siblings has been replaced by other bytes, then the two runs
    contain two different inputs with the same BLAKE2b-512 digest. *)
Theorem tampered_sibling_needs_collision (rootHex leaf : jsstring) (idx : Z)
    (pre post : list jsstring) (sib sib' : jsstring) :
  verifyProof rootHex
    {| index := idx; leaf_hex := leaf; siblings_hex := pre ++ sib :: post |} = true ->
  verifyProof rootHex
    {| index := idx; leaf_hex := leaf; siblings_hex := pre ++ sib' :: post |} = true ->
  fromHex sib <> fromHex sib' ->
  exists x y, x <> y /\ blake2b512 x = blake2b512 y.
Proof.
  unfold verifyProof. cbn [index leaf_hex siblings_hex].
  intros H1 H2 Hne. apply str_eqb_eq in H1, H2.
  assert (Heq : verifyLoop (fromHex leaf) idx (pre ++ sib :: post)
                = verifyLoop (fromHex leaf) idx (pre ++ sib' :: post))
    by (apply toHex_inj; congruence).
  destruct (verifyLoop_app pre (fromHex leaf) idx) as (node & idx' & Happ).
  rewrite !Happ in Heq. cbn [verifyLoop] in Heq.
  set (b := if (Z.rem idx' 2 =? 1)%Z
            then h (fromHex sib ++ node) else h (node ++ fromHex sib)) in Heq.
  set (b' := if (Z.rem idx' 2 =? 1)%Z
             then h (fromHex sib' ++ node) else h (node ++ fromHex sib')) in Heq.
  destruct (list_eq_dec Byte.byte_eq_dec b b') as [Hb|Hb].
  - unfold b, b' in Hb. destruct (Z.rem idx' 2 =? 1)%Z.
    + exists (fromHex sib ++ node), (fromHex sib' ++ node). split; [|exact Hb].
      intros H. apply app_inv_tail in H. contradiction.
    + exists (node ++ fromHex sib), (node ++ fromHex sib'). split; [|exact Hb].
      intros H. apply app_inv_head in H. contradiction.
  - exact (verifyLoop_merge Hb Heq).
Qed.

End MerkleProperties.

Section KernelProperties.
Context {rt : Runtime}.

(** X5. The fingerprint depends on the bytes of the stream only, not on
    how the reads cut them: two regular files with the same content get
    the same result for an integral chunk size. The file digests are
    those of the whole content, and the leaves cover it:
    [(leaf_count - 1) * chunk_size < bytes <= leaf_count * chunk_size]
    when there is a byte at all. *)
Theorem fingerprint_ignores_read_boundaries (fuel : nat) (file1 file2 : InputFile)
    (c : Z) :
  let x := concat (data_events file1) in
  is_file file1 = true -> stream_error file1 = None ->
  is_file file2 = true -> stream_error file2 = None ->
  concat (data_events file2) = x ->
  (0 < c)%Z ->
  (length x < fuel)%nat ->
  exists r,
    streamDigestsAndLeaves fuel file1 (inject_Z c) = Some (Ok r) /\
    streamDigestsAndLeaves fuel file2 (inject_Z c) = Some (Ok r) /\
    blake2b_512 (file_digests r) = toHex (blake2b512 x) /\
    sha512_hex (file_digests r) = toHex (sha512 x) /\
    (x <> [] ->
     ((Z.of_nat (mc_leaf_count (merkle r)) - 1) * c < Z.of_nat (bytes r)
      <= Z.of_nat (mc_leaf_count (merkle r)) * c)%Z).
Proof.
  intros x Hf1 He1 Hf2 He2 Hsame Hc Hfuel.
  set (c' := Z.to_nat c).
  assert (Hc' : (1 <= c')%nat) by (unfold c'; lia).
  assert (Ec : inject_Z c = inject_Z (Z.of_nat c'))
    by (unfold c'; now rewrite Z2Nat.id by lia).
  rewrite Ec.
  exists (finishStream (inject_Z (Z.of_nat c')) (consumed c' x)).
  split; [now apply fingerprint_integral|].
  split; [rewrite <- Hsame; apply fingerprint_integral; try assumption;
          rewrite Hsame; exact Hfuel|].
  destruct (finishStream_leaves (inject_Z (Z.of_nat c')) (consumed c' x))
    as (_ & _ & _ & _ & Hb & Hs).
  split; [exact Hb|]. split; [exact Hs|].
  intros Hne.
  destruct (finish_counts (inject_Z (Z.of_nat c')) c' x) as (_ & Hcount & Hbytes).
  rewrite Hcount, Hbytes, finish_leaf_hexes, length_map, length_seq by assumption.
  rewrite ceil_div by assumption.
  pose proof (Nat.div_mod_eq (length x) c') as Hdm.
  pose proof (Nat.mod_upper_bound (length x) c' ltac:(lia)) as Hr.
  assert (Hlen : (0 < length x)%nat) by (destruct x; [congruence|simpl; lia]).
  assert (Ecz : c = Z.of_nat c') by (unfold c'; lia).
  rewrite Ecz.
  destruct (0 <? length x mod c')%nat eqn:E.
  - apply Nat.ltb_lt in E. nia.
  - apply Nat.ltb_ge in E. nia.
Qed.

(** X6. Attest followed by verify succeeds: when the attest branch has
    fingerprinted a file with an integral chunk size and written its
    attestation, [verifyBundle] on that attestation and the same file
    returns [ok = true], given that the runtime verifies, after a base64
    round trip, what it signed with the stored key pair. *)
Theorem attest_then_verify_ok (fuel : nat) (w : World) (file : InputFile) (c : Z)
    (filePath outDir outPath : jsstring) (keyDir : option jsstring)
    (core : Fingerprint) (a : Attestation) :
  is_file file = true ->
  stream_error file = None ->
  (0 < c)%Z ->
  (length (concat (data_events file)) < fuel)%nat ->
  (forall dir kp message s,
     loadOrCreateEd25519Keypair w dir = Ok kp ->
     crypto_sign message (privateKeyPem kp) = Ok s ->
     crypto_verify message (publicKeyPem kp) (base64_decode (base64_encode s)) = Ok true) ->
  streamDigestsAndLeaves fuel file (inject_Z c) = Some (Ok core) ->
  attest_core w filePath outDir keyDir (file_size file) core
    = Ok (Completed (AttestOutput outPath a)) ->
  exists res,
    verifyBundle fuel (Ok (attestation_json a)) file = Some (Ok res) /\
    ok res = true /\
    vr_bytes res = length (concat (data_events file)).
Proof.
  intros Hfile Herr Hc Hfuel Hsig Hcore Hattest.
  set (c' := Z.to_nat c).
  assert (Hc' : (1 <= c')%nat) by (unfold c'; lia).
  assert (Ec : inject_Z c = inject_Z (Z.of_nat c'))
    by (unfold c'; now rewrite Z2Nat.id by lia).
  rewrite Ec in Hcore.
  destruct (fingerprint_result Hfile Herr Hc' Hfuel Hcore) as [Hcore_eq Hstream].
  destruct (attest_core_digests Hattest) as (_ & Hclaims & Hmsg).
  destruct (attest_core_inv Hattest)
    as (dir & kp & s & _ & Hkp & Hsign & Halg & Hpem & Hb64 & _).
  set (x := concat (data_events file)) in *.
  set (q := inject_Z (Z.of_nat c')) in *.
  destruct (finishStream_leaves q (consumed c' x))
    as (Hl & Hroot & Hcount & Hchunk & Hb & Hs).
  rewrite <- Hcore_eq in Hl, Hroot, Hcount, Hchunk, Hb, Hs.
  assert (Hq : Qle_bool (chunk_size (merkle core)) 0 = false).
  { rewrite Hchunk. unfold q. change 0%Q with (inject_Z 0).
    rewrite Qle_bool_inject_Z. apply Z.leb_gt. lia. }
  rewrite (verifyBundle_attestation fuel file Hclaims Hq).
  rewrite Hchunk, Hstream, Herr.
  assert (Hok : attestation_signature_ok a = Ok true).
  { unfold attestation_signature_ok, verifyEd25519.
    rewrite Halg, str_eqb_refl, Hpem, Hb64. exact (Hsig _ _ _ _ Hkp Hsign). }
  rewrite Hok. cbn [bind]. eexists. split; [reflexivity|].
  cbn [ok vr_bytes]. split; [|reflexivity].
  unfold attestation_checks, Object_values.
  cbn [file_blake2b_match file_sha512_match merkle_root_match leaf_count_match
       signed_message_sha512_match signature_valid forallb consumed
       st_fileBlake2b st_fileSha512].
  rewrite Hb, Hs, Hroot, Hcount, Hmsg.
  cbn [consumed st_fileBlake2b st_fileSha512].
  now rewrite !str_eqb_refl, Qeq_bool_refl.
Qed.

(** X7. A file that [verifyBundle] accepts against an attestation has the
    digests the attestation claims: if the claims carry the digests of
    the bytes [x] and the result for a file is [ok = true], the file's
    bytes and [x] have the same BLAKE2b-512 and the same SHA-512 digest. *)
Theorem verified_file_has_claimed_digests (fuel : nat) (a : Attestation)
    (digest : jsstring) (core : Fingerprint) (x : Buffer) (file : InputFile)
    (res : VerifyResult) :
  claims a = signedPayload_of digest core ->
  blake2b_512 (file_digests core) = toHex (blake2b512 x) ->
  sha512_hex (file_digests core) = toHex (sha512 x) ->
  verifyBundle fuel (Ok (attestation_json a)) file = Some (Ok res) ->
  ok res = true ->
  blake2b512 (concat (data_events file)) = blake2b512 x /\
  sha512 (concat (data_events file)) = sha512 x.
Proof.
  intros Hclaims Hb Hs Hrun Hok.
  destruct (Qle_bool (chunk_size (merkle core)) 0) eqn:Hq.
  - exfalso. revert Hrun. unfold verifyBundle, attestation_json. rewrite Hclaims.
    match goal with
    | |- ?L = ?R -> _ =>
        let L' := eval lazy beta iota zeta delta
                    [bind get lookup or_empty ToNumber Number_isFinite negb orb num_leb
                     str_eqb lit list_ascii_of_string Ascii.eqb Bool.eqb andb fst snd
                     attestation_json signedPayload_of merkle_json file_digests_json]
                  in L in
        change (L' = R -> False)
    end.
    rewrite Hq. discriminate.
  - rewrite (verifyBundle_attestation fuel file Hclaims Hq) in Hrun.
    destruct (runStream _ _ _ _) as [st|] eqn:Hst; [|discriminate].
    destruct (stream_error file); [discriminate|].
    destruct (attestation_signature_ok a) as [sigOk|]; [|discriminate].
    cbn [bind] in Hrun. injection Hrun as <-. cbn [ok] in Hok.
    unfold Object_values, attestation_checks in Hok.
    cbn [file_blake2b_match file_sha512_match merkle_root_match leaf_count_match
         signed_message_sha512_match signature_valid forallb] in Hok.
    rewrite !andb_true_iff in Hok. destruct Hok as (H1 & H2 & _).
    apply str_eqb_eq in H1, H2.
    destruct (runStream_hashers Hst) as (Eb & Es & _).
    rewrite Eb in H1. rewrite Es in H2. simpl in H1, H2.
    rewrite Hb in H1. rewrite Hs in H2.
    split; apply toHex_inj; assumption.
Qed.

End KernelProperties.

Section CliProperties.
Context {rt : Runtime}.

(** The status with which the process ends: the code given to
    [process.exit], or 0 when [main] has returned. *)
Definition exit_status (out : Outcome) : Z :=
  match out with
  | Exit code => code
  | Completed _ => 0%Z
  end.

Lemma main_exit_inv (fuel : nat) (w : World) (args : list jsstring) (code : Z) :
  main fuel w args = Some (Exit code) ->
  (code = 0 \/ code = 1 \/ code = 2 \/ code = 3)%Z /\
  ((code = 0 \/ code = 3)%Z -> nth_error args 0 = Some (lit "verify")).
Proof.
  unfold main, main_body, usage, attest_core, signEd25519, bind. intros H.
  assert (Hcode : forall c : Z, Some (Exit c) = Some (Exit code) -> code = c)
    by (intros c E; congruence).
  destruct (nth_error args 0) as [cmd|];
    [|apply Hcode in H; subst code; split; [auto|lia]].
  destruct cmd as [|c0 cmd]; [apply Hcode in H; subst code; split; [auto|lia]|].
  destruct (str_eqb (c0 :: cmd) (lit "verify")) eqn:Ecmd.
  - apply str_eqb_eq in Ecmd. rewrite Ecmd.
    repeat match type of H with
           | context [match ?x with _ => _ end] =>
               lazymatch x with
               | context [match _ with _ => _ end] => fail
               | _ => destruct x; try discriminate
               end
           end;
    apply Hcode in H; subst code; auto 6.
  - repeat match type of H with
           | context [match ?x with _ => _ end] =>
               lazymatch x with
               | context [match _ with _ => _ end] => fail
               | _ => destruct x; try discriminate
               end
           end;
    apply Hcode in H; subst code; split; auto; lia.
Qed.

Lemma main_hash_inv (fuel : nat) (w : World) (args : list jsstring)
    (filePath : jsstring) (r : Fingerprint) :
  main fuel w args = Some (Completed (HashOutput filePath r)) ->
  nth_error args 0 = Some (lit "hash").
Proof.
  unfold main, main_body, usage. intros H.
  destruct (nth_error args 0) as [cmd|]; [|discriminate].
  destruct cmd as [|c0 cmd]; [discriminate|].
  destruct (str_eqb (c0 :: cmd) (lit "verify")).
  { repeat match type of H with
           | context [match ?x with _ => _ end] =>
               lazymatch x with
               | context [match _ with _ => _ end] => fail
               | _ => destruct x; try discriminate
               end
           end. }
  destruct (nth_error args 1) as [[|f0 path]|]; try discriminate.
  destruct (invalid_chunk _); [discriminate|].
  destruct (str_eqb (c0 :: cmd) (lit "hash")) eqn:Ecmd.
  { apply str_eqb_eq in Ecmd. now rewrite Ecmd. }
  destruct (str_eqb (c0 :: cmd) (lit "attest")); [|discriminate].
  destruct (getFlag args (lit "--out") (Some (lit "out"))) as [outDir|];
    [|discriminate].
  destruct (mkdir w outDir); [|discriminate]. cbn [bind] in H.
  destruct (files w (f0 :: path)) as [file|]; [|discriminate].
  destruct (streamDigestsAndLeaves fuel file _) as [[core|e]|]; try discriminate.
  unfold attest_core, signEd25519, bind in H.
  repeat match type of H with
         | context [match ?x with _ => _ end] =>
             lazymatch x with
             | context [match _ with _ => _ end] => fail
             | _ => destruct x; try discriminate
             end
         end.
Qed.

(** X8. A run of the program that ends does so with status 0, 1, 2 or 3.
    Status 3 occurs only in the [verify] command. Status 0 occurs in the
    [verify] command, through [process.exit(0)], and after a [hash] or
    [attest] command that has printed its result and returned. *)
Theorem main_exit_codes (fuel : nat) (w : World) (args : list jsstring)
    (out : Outcome) :
  main fuel w args = Some out ->
  (exit_status out = 0 \/ exit_status out = 1 \/
   exit_status out = 2 \/ exit_status out = 3)%Z /\
  (exit_status out = 3%Z -> nth_error args 0 = Some (lit "verify")) /\
  (exit_status out = 0%Z ->
   (nth_error args 0 = Some (lit "verify") /\ out = Exit 0) \/
   (nth_error args 0 = Some (lit "hash") /\
    exists filePath r, out = Completed (HashOutput filePath r)) \/
   (nth_error args 0 = Some (lit "attest") /\
    exists outPath a, out = Completed (AttestOutput outPath a))).
Proof.
  intros H. destruct out as [code|[filePath r|outPath a]]; cbn [exit_status].
  - destruct (main_exit_inv H) as [Hcodes Hverify].
    split; [exact Hcodes|]. split.
    + intros ->. apply Hverify. now right.
    + intros ->. left. split; [apply Hverify; now left|reflexivity].
  - split; [now left|]. split; [discriminate|].
    intros _. right. left. split; [exact (main_hash_inv H)|eauto].
  - split; [now left|]. split; [discriminate|].
    intros _. right. right. split; [exact (proj1 (main_attest_inv H))|eauto].
Qed.

(** X9. A first argument that is missing or is none of [verify], [hash]
    and [attest] ends in exit code 1, whatever else is on the command
    line. *)
Theorem unknown_command_exits_1 (fuel : nat) (w : World) (args : list jsstring) :
  (forall cmd, nth_error args 0 = Some cmd ->
     cmd <> lit "verify" /\ cmd <> lit "hash" /\ cmd <> lit "attest") ->
  main fuel w args = Some (Exit 1).
Proof.
  intros Hcmd. unfold main, main_body, usage.
  destruct (nth_error args 0) as [cmd|]; [|reflexivity].
  destruct (Hcmd cmd eq_refl) as (Hv & Hh & Ha).
  destruct cmd as [|c0 cmd]; [reflexivity|].
  apply str_eqb_neq in Hv, Hh, Ha. rewrite Hv.
  destruct (nth_error args 1) as [[|f0 filePath]|]; try reflexivity.
  destruct (invalid_chunk _); [reflexivity|].
  now rewrite Hh, Ha.
Qed.

(** X10. The [hash] command on a path that does not exist or is not a
    regular file ends in exit code 2, for any chunk value that passes the
    check. *)
Theorem hash_on_non_file_exits_2 (fuel : nat) (w : World) (args : list jsstring)
    (filePath : jsstring) (q : Q) :
  nth_error args 0 = Some (lit "hash") ->
  nth_error args 1 = Some filePath ->
  filePath <> [] ->
  NumberOfFlag (getFlag args (lit "--chunk") (Some (lit "4194304"))) = Finite q ->
  (0 < q)%Q ->
  match files w filePath with
  | None => True
  | Some file => is_file file = false
  end ->
  main fuel w args = Some (Exit 2).
Proof.
  intros Hcmd Hpath Hne Hnum Hpos Hfile.
  rewrite (main_hash fuel w Hcmd Hpath Hne Hnum Hpos).
  destruct (files w filePath) as [file|]; [|reflexivity].
  unfold streamDigestsAndLeaves. now rewrite Hfile.
Qed.

(** X11. [verifyBundle] passes on the error of reading or parsing the
    bundle, throws a TypeError on a bundle that is [null], and throws
    "Invalid chunk_size in bundle" on any other bundle without a [claims]
    member; in all three cases the file is not read, and the [verify]
    command ends in exit code 2. *)
Theorem malformed_bundle_is_an_error (fuel : nat) (w : World) (args : list jsstring)
    (bundlePath filePath : jsstring) :
  nth_error args 0 = Some (lit "verify") ->
  getFlag args (lit "--bundle") None = Some bundlePath ->
  getFlag args (lit "--file") None = Some filePath ->
  bundlePath <> [] -> filePath <> [] ->
  match bundles w bundlePath with
  | Throw _ | Ok JNull => True
  | Ok (JObj members) => lookup (lit "claims") members = None
  | Ok _ => True
  end ->
  (forall file,
     verifyBundle fuel (bundles w bundlePath) file =
     Some (Throw match bundles w bundlePath with
                 | Throw e => e
                 | Ok JNull => TypeError
                 | Ok _ => Error (lit "Invalid chunk_size in bundle")
                 end)) /\
  main fuel w args = Some (Exit 2).
Proof.
  intros Hcmd Hb Hf Hbne Hfne Hbundle.
  assert (Hall : forall file,
     verifyBundle fuel (bundles w bundlePath) file =
     Some (Throw match bundles w bundlePath with
                 | Throw e => e
                 | Ok JNull => TypeError
                 | Ok _ => Error (lit "Invalid chunk_size in bundle")
                 end)).
  { intros file. unfold verifyBundle.
    destruct (bundles w bundlePath) as [[ | b | n | s | elems | members]|e];
      try reflexivity.
    cbn [bind get]. rewrite Hbundle. reflexivity. }
  split; [exact Hall|].
  rewrite (main_verify fuel w Hcmd Hb Hf Hbne Hfne), Hall. reflexivity.
Qed.

End CliProperties.

(** ** Serializer, receipts and log *)

(** Every object lists its keys in code-unit order, none twice. *)
Inductive keys_in_order : JSON -> Prop :=
| in_order_null : keys_in_order JNull
| in_order_bool b : keys_in_order (JBool b)
| in_order_num n : keys_in_order (JNum n)
| in_order_str s : keys_in_order (JStr s)
| in_order_arr elems : Forall keys_in_order elems -> keys_in_order (JArr elems)
| in_order_obj members :
    StronglySorted str_le (Object_keys members) ->
    NoDup (Object_keys members) ->
    Forall (fun kv => keys_in_order (snd kv)) members ->
    keys_in_order (JObj members).

Lemma sort_keys_sorted_id (l : list jsstring) :
  StronglySorted str_le l -> sort_keys l = l.
Proof.
  intros Hs. apply sorted_perm_unique; [apply sort_keys_sorted|exact Hs|].
  symmetry. apply sort_keys_perm.
Qed.

Lemma lookup_own_member (members : list (jsstring * JSON)) :
  NoDup (Object_keys members) ->
  forall kv, In kv members -> lookup (fst kv) members = Some (snd kv).
Proof.
  induction members as [|[k v] ms IH]; intros Hnd kv Hin; [contradiction|].
  simpl in Hnd. inversion Hnd as [|? ? Hout Hnd']; subst.
  cbn [lookup]. destruct Hin as [<-|Hin].
  - simpl. now rewrite str_eqb_refl.
  - destruct (str_eqb k (fst kv)) eqn:E.
    + apply str_eqb_eq in E. exfalso. apply Hout. rewrite E.
      apply in_map. exact Hin.
    + now apply IH.
Qed.

Lemma spread_fresh (src o : list (jsstring * JSON)) :
  NoDup (Object_keys (o ++ src)) -> spread o src = o ++ src.
Proof.
  unfold spread. revert o; induction src as [|[k v] src IH]; intros o Hnd.
  - simpl. now rewrite app_nil_r.
  - cbn [fold_left fst snd].
    assert (Hset : set_member k v o = o ++ [(k, v)]).
    { unfold Object_keys in Hnd. rewrite map_app in Hnd.
      apply NoDup_remove_2 in Hnd.
      assert (Hout : ~ In k (map fst o)) by (intros H; apply Hnd, in_or_app; now left).
      clear - Hout. induction o as [|[k0 v0] o IHo]; [reflexivity|].
      simpl in *. destruct (str_eqb k0 k) eqn:E.
      - apply str_eqb_eq in E. tauto.
      - f_equal. apply IHo. tauto. }
    rewrite Hset, IH; rewrite <- app_assoc; [reflexivity|exact Hnd].
Qed.

Section RecordProperties.
Context {rt : Runtime}.

(** X12. On a value whose objects all list their keys in sorted order,
    without repetition, [stableStringify] returns the string that
    [JSON.stringify] returns: canonicalizing affects the order of the
    members and nothing else. *)
Theorem stableStringify_sorted_is_JSON_stringify (x : JSON) :
  keys_in_order x -> stableStringify x = JSON_stringify x.
Proof.
  induction x as [ | b | n | s | elems IH | members IH] using JSON_induction;
    intros Hx; inversion Hx as [ | | | | ? Hall | ? Hsorted Hnd Hall]; subst;
    try reflexivity.
  - rewrite stableStringify_arr. cbn [JSON_stringify]. f_equal. f_equal. f_equal.
    apply map_ext_in. intros e He.
    rewrite Forall_forall in IH, Hall. exact (IH e He (Hall e He)).
  - rewrite stableStringify_obj. cbn [JSON_stringify]. f_equal. f_equal. f_equal.
    rewrite (sort_keys_sorted_id Hsorted). unfold Object_keys. rewrite map_map.
    apply map_ext_in. intros kv Hkv. f_equal. f_equal.
    unfold member_string. rewrite (lookup_own_member Hnd Hkv).
    rewrite Forall_forall in IH, Hall. exact (IH kv Hkv (Hall kv Hkv)).
Qed.

(** X13. For input without a repeated key and without the keys
    [receipt_version] and [receipt_hash], [createReceipt] returns the
    member [receipt_version: "1"], then the members of the input in
    their order, then [receipt_hash]; and [receipt_hash] is the
    [hashJSON] of the receipt with that member taken away, so a reader
    can check a receipt against its own hash. *)
Theorem createReceipt_shape (data : list (jsstring * JSON)) :
  NoDup (Object_keys data) ->
  lookup (lit "receipt_version") data = None ->
  lookup (lit "receipt_hash") data = None ->
  let receipt := createReceipt data in
  let without_hash :=
    filter (fun kv => negb (str_eqb (fst kv) (lit "receipt_hash"))) receipt in
  receipt = (lit "receipt_version", JStr (lit "1")) :: data
            ++ [(lit "receipt_hash", JStr (hashJSON (JObj without_hash)))] /\
  without_hash = (lit "receipt_version", JStr (lit "1")) :: data.
Proof.
  intros Hnd Hver Hhash. cbv zeta.
  apply lookup_None in Hver, Hhash.
  set (base := (lit "receipt_version", JStr (lit "1")) :: data).
  assert (Hbase_nd : NoDup (Object_keys base)) by (constructor; assumption).
  assert (Hbase : receipt_base data = base).
  { unfold receipt_base. now rewrite spread_fresh. }
  assert (Hout : ~ In (lit "receipt_hash") (Object_keys base)).
  { simpl. intros [H|H]; [discriminate|contradiction]. }
  assert (Hreceipt : createReceipt data
                     = base ++ [(lit "receipt_hash", JStr (hashJSON (JObj base)))]).
  { unfold createReceipt. rewrite Hbase.
    rewrite (spread_fresh (src := base) (o := [])) by exact Hbase_nd.
    cbn [app].
    change (set_member (lit "receipt_hash") (JStr (hashJSON (JObj base))) base)
      with (spread base [(lit "receipt_hash", JStr (hashJSON (JObj base)))]).
    apply spread_fresh. unfold Object_keys. rewrite map_app.
    apply NoDup_app; [exact Hbase_nd|repeat constructor; simpl; tauto|].
    intros k Hk [<-|[]]. contradiction. }
  assert (Hfilter :
    filter (fun kv => negb (str_eqb (fst kv) (lit "receipt_hash"))) (createReceipt data)
    = base).
  { rewrite Hreceipt, filter_app. cbn [filter fst]. rewrite str_eqb_refl.
    cbn [negb]. rewrite app_nil_r.
    apply forallb_filter_id. apply forallb_forall. intros kv Hkv.
    apply negb_true_iff, str_eqb_neq. intros E. apply Hout. rewrite <- E.
    apply in_map. exact Hkv. }
  rewrite Hfilter. split; [exact Hreceipt|reflexivity].
Qed.

(** A run of appends to one log: each entry is a receipt hash with its
    timestamp. *)
Fixpoint appendAll (existing : option jsstring) (entries : list (jsstring * jsstring))
    : option jsstring :=
  match entries with
  | [] => existing
  | (receipt_hash, timestamp) :: rest =>
      appendAll
        (Some (fst (appendTransparencyLog existing receipt_hash (Some timestamp) [])))
        rest
  end.

(** The lines that replaying the entries from [prev] gives. *)
Fixpoint chain_lines (prev : jsstring) (entries : list (jsstring * jsstring)) : jsstring :=
  match entries with
  | [] => []
  | (receipt_hash, timestamp) :: rest =>
      let entry := hashHex (utf8 (prev ++ newline :: receipt_hash ++ newline :: timestamp)) in
      log_line timestamp receipt_hash prev entry ++ chain_lines entry rest
  end.

Lemma appendAll_chain (entries : list (jsstring * jsstring)) :
  (forall b, sha256 b <> []) ->
  Forall (fun e => cleanb (fst e) = true /\ cleanb (snd e) = true) entries ->
  forall existing prev,
    last_entry_hash existing prev ->
    appendAll existing entries =
    match entries with
    | [] => existing
    | _ => Some (match existing with Some c => c | None => [] end
                 ++ chain_lines prev entries)
    end.
Proof.
  intros Hsha. induction 1 as [|[rh ts] entries [Hrh Hts] Hall IH];
    intros existing prev Hlast; [reflexivity|].
  cbn [appendAll chain_lines fst snd].
  simpl in Hrh, Hts.
  pose proof (append_chain_step Hsha Hrh Hts Hlast) as (Hcontent & Hnext).
  rewrite (IH _ _ Hnext), Hcontent.
  destruct entries as [|e entries']; [cbn [chain_lines]; now rewrite app_nil_r|].
  now rewrite <- app_assoc.
Qed.

(** X14. A log that starts absent and receives appends with clean
    receipt hashes and timestamps holds exactly the lines that a replay
    from [GENESIS] computes: every line chains to the entry hash of the
    line before it, and its entry hash is the SHA-256 of its own fields. *)
Theorem log_replays_from_genesis (entries : list (jsstring * jsstring)) :
  (forall b, sha256 b <> []) ->
  Forall (fun e => cleanb (fst e) = true /\ cleanb (snd e) = true) entries ->
  entries <> [] ->
  appendAll None entries = Some (chain_lines GENESIS entries).
Proof.
  intros Hsha Hclean Hne.
  rewrite (appendAll_chain Hsha Hclean last_absent).
  destruct entries; [congruence|reflexivity].
Qed.

End RecordProperties.

(** ** Row chunking and the SHA-256 tree of engine 2 *)

Section Engine2Facts.
Context {rt : Runtime}.

Lemma rootLoopHex_step (level : list jsstring) :
  rootLoopHex level =
  if lt_dec 1 (length level) then rootLoopHex (nextLevelHex level) else level.
Proof.
  rewrite rootLoopHex_equation_1. destruct (lt_dec 1 (length level)); reflexivity.
Qed.

Lemma nextLevelHex_hashed (level : list jsstring) :
  Forall (fun x => exists b, x = hashHex b) (nextLevelHex level).
Proof.
  induction level as [level IH] using (well_founded_induction
    (Wf_nat.well_founded_ltof _ (@length jsstring))).
  destruct level as [|a [|b rest]]; cbn [nextLevelHex].
  - constructor.
  - constructor; [unfold merkleParent; eauto|constructor].
  - constructor; [unfold merkleParent; eauto|].
    apply IH. unfold Wf_nat.ltof. simpl. lia.
Qed.

Lemma nextLevelHex_nonempty (level : list jsstring) :
  level <> [] -> nextLevelHex level <> [].
Proof. destruct level as [|a [|b rest]]; simpl; congruence. Qed.

(** From two leaves on, the root is a SHA-256 digest in hex. *)
Lemma rootLoopHex_hashed (level : list jsstring) :
  level <> [] ->
  Forall (fun x => exists b, x = hashHex b) level \/ (2 <= length level)%nat ->
  exists b, rootLoopHex level = [hashHex b].
Proof.
  induction level as [level IH] using (well_founded_induction
    (Wf_nat.well_founded_ltof _ (@length jsstring))).
  intros Hne Hcase. rewrite rootLoopHex_step.
  destruct (lt_dec 1 (length level)) as [Hgt|Hle].
  - apply IH; [now apply nextLevelHex_length_lt|now apply nextLevelHex_nonempty|].
    left. apply nextLevelHex_hashed.
  - destruct level as [|a [|b rest]]; [congruence| |simpl in Hle; lia].
    destruct Hcase as [Hall|Hlen]; [|simpl in Hlen; lia].
    inversion Hall as [|? ? [b ->] _]. eauto.
Qed.

Lemma nextLevelHex_duplicate_last (level : list jsstring) (x : jsstring) :
  Nat.even (length level) = true ->
  nextLevelHex (level ++ [x; x]) = nextLevelHex (level ++ [x]).
Proof.
  induction level as [level IH] using (well_founded_induction
    (Wf_nat.well_founded_ltof _ (@length jsstring))).
  destruct level as [|a [|b rest]]; intros Heven.
  - reflexivity.
  - discriminate.
  - cbn [app nextLevelHex]. f_equal.
    apply IH; [unfold Wf_nat.ltof; simpl; lia|exact Heven].
Qed.

(** The number of rows at which a chunk is closed: the test
    [currentChunkRows.length >= chunk_rows] first holds at the least
    positive integer that is not below [chunk_rows]. *)
Definition effective_chunk_rows (chunk_rows : Q) : nat :=
  Z.to_nat (Z.max 1 (Qceiling chunk_rows)).

Lemma chunk_full_test (chunk_rows : Q) (len : nat) :
  (1 <= len)%nat ->
  Qle_bool chunk_rows (inject_Z (Z.of_nat len))
  = (effective_chunk_rows chunk_rows <=? len)%nat.
Proof.
  intros Hlen. unfold effective_chunk_rows.
  destruct (Qle_bool chunk_rows (inject_Z (Z.of_nat len))) eqn:E; symmetry.
  - apply Qle_bool_iff in E. apply Nat.leb_le.
    apply Qceiling_resp_le in E. rewrite Qceiling_Z in E. lia.
  - apply Nat.leb_gt.
    assert (Hlt : ~ (chunk_rows <= inject_Z (Z.of_nat len))%Q).
    { intros H. apply Qle_bool_iff in H. congruence. }
    assert (Z.of_nat len < Qceiling chunk_rows)%Z; [|lia].
    destruct (Z_lt_ge_dec (Z.of_nat len) (Qceiling chunk_rows)) as [|Hge];
      [assumption|exfalso; apply Hlt].
    eapply Qle_trans; [apply Qle_ceiling|].
    rewrite <- Zle_Qle. lia.
Qed.

Lemma effective_chunk_rows_pos (chunk_rows : Q) : (1 <= effective_chunk_rows chunk_rows)%nat.
Proof. unfold effective_chunk_rows. lia. Qed.

Lemma succ_div_mod (n m : nat) :
  (1 <= n)%nat ->
  if (n <=? m mod n + 1)%nat
  then (S m / n = m / n + 1 /\ S m mod n = 0)%nat
  else (S m / n = m / n /\ S m mod n = m mod n + 1)%nat.
Proof.
  intros Hn.
  pose proof (Nat.div_mod_eq m n) as Hm.
  pose proof (Nat.mod_upper_bound m n ltac:(lia)) as Hr.
  destruct (n <=? m mod n + 1)%nat eqn:E.
  - apply Nat.leb_le in E.
    assert (HS : (S m = n * (m / n + 1) + 0)%nat) by nia.
    split; [symmetry; eapply Nat.div_unique; [|exact HS]; lia
           |symmetry; eapply Nat.mod_unique; [|exact HS]; lia].
  - apply Nat.leb_gt in E.
    assert (HS : (S m = n * (m / n) + (m mod n + 1))%nat) by lia.
    split; [symmetry; eapply Nat.div_unique; [|exact HS]; lia
           |symmetry; eapply Nat.mod_unique; [|exact HS]; lia].
Qed.

Lemma firstn_snoc (A : Type) (l : list A) (k : nat) (x : A) :
  nth_error l k = Some x -> firstn (S k) l = firstn k l ++ [x].
Proof.
  revert l; induction k as [|k IH]; intros [|y l] H; try discriminate.
  - simpl in H. injection H as ->. reflexivity.
  - simpl in H. cbn [firstn app]. f_equal. now apply IH.
Qed.

Lemma nth_error_skipn' (A : Type) (a : nat) (l : list A) (k : nat) :
  nth_error (skipn a l) k = nth_error l (a + k).
Proof.
  revert l; induction a as [|a IH]; intros l; [reflexivity|].
  destruct l as [|y l]; [now destruct k|]. simpl. apply IH.
Qed.

(** The leaf of one chunk: SHA-256 applied twice to the rows joined by
    line feeds. *)
Definition chunk_payload_hash (rows : list jsstring) : jsstring :=
  hashHex (sha256 (utf8 (join [newline] rows))).

(** Chunk [i] of the normalized rows [norm], cut every [n] rows. *)
Definition leaf_at (n : nat) (norm : list jsstring) (i : nat) : MerkleLeaf :=
  {| chunk_id := i;
     start_row := Z.of_nat (i * n);
     end_row := Z.min (Z.of_nat ((i + 1) * n)) (Z.of_nat (length norm)) - 1;
     leaf_hash := chunk_payload_hash (firstn n (skipn (i * n) norm)) |}.

(** The locals after the first [m] rows. *)
Definition state_after (n : nat) (norm : list jsstring) (m : nat) : ChunkingState :=
  {| cs_leaves := map (leaf_at n norm) (seq 0 (m / n));
     cs_rows := Z.of_nat m;
     cs_currentChunkStart := Z.of_nat (m / n * n);
     cs_currentChunkRows := firstn (m mod n) (skipn (m / n * n) norm);
     cs_chunk_id := (m / n)%nat |}.

Lemma onRow_after (chunk_rows : Q) (rows : list CsvRow) (m : nat) (row : CsvRow) :
  nth_error rows m = Some row ->
  let n := effective_chunk_rows chunk_rows in
  let norm := map normalizeRow rows in
  onRow chunk_rows (state_after n norm m) row (Z.of_nat m) = state_after n norm (S m).
Proof.
  intros Hrow n norm.
  assert (Hn : (1 <= n)%nat) by apply effective_chunk_rows_pos.
  assert (Hm : (m < length rows)%nat) by (apply nth_error_Some; congruence).
  pose proof (Nat.div_mod_eq m n) as Hdm.
  pose proof (Nat.mod_upper_bound m n ltac:(lia)) as Hr.
  assert (Hnth : nth_error (skipn (m / n * n) norm) (m mod n) = Some (normalizeRow row)).
  { rewrite nth_error_skipn'. replace (m / n * n + m mod n)%nat with m by lia.
    unfold norm. now apply map_nth_error. }
  assert (Hpush : firstn (m mod n) (skipn (m / n * n) norm) ++ [normalizeRow row]
                  = firstn (S (m mod n)) (skipn (m / n * n) norm))
    by (symmetry; now apply firstn_snoc).
  unfold onRow. cbn [state_after cs_leaves cs_rows cs_currentChunkStart
                     cs_currentChunkRows cs_chunk_id finalizeChunk].
  rewrite Hpush.
  assert (Hlen : length (firstn (S (m mod n)) (skipn (m / n * n) norm)) = (m mod n + 1)%nat).
  { rewrite length_firstn, length_skipn. unfold norm. rewrite length_map. lia. }
  rewrite Hlen, chunk_full_test by lia. fold n.
  pose proof (succ_div_mod m Hn) as Hs.
  destruct (n <=? m mod n + 1)%nat eqn:E.
  - destruct Hs as [Hq Hz]. apply Nat.leb_le in E.
    assert (Hfull : (m mod n + 1 = n)%nat) by lia.
    unfold state_after. rewrite Hq, Hz, firstn_O.
    rewrite Nat.add_1_r, seq_S, map_app. cbn [map Nat.add].
    f_equal; try nia.
    f_equal. f_equal. unfold leaf_at. f_equal.
    + unfold norm. rewrite length_map. nia.
    + unfold chunk_payload_hash. do 5 f_equal. lia.
  - destruct Hs as [Hq Hz]. unfold state_after. rewrite Hq, Hz.
    f_equal; try lia. f_equal. lia.
Qed.

Lemma feedRows_after (chunk_rows : Q) (rows : list CsvRow) :
  let n := effective_chunk_rows chunk_rows in
  let norm := map normalizeRow rows in
  forall (suffix pre : list CsvRow),
    rows = pre ++ suffix ->
    feedRows chunk_rows (state_after n norm (length pre)) suffix (Z.of_nat (length pre))
    = state_after n norm (length rows).
Proof.
  intros n norm. induction suffix as [|row rest IH]; intros pre Hrows.
  - rewrite app_nil_r in Hrows. subst pre. reflexivity.
  - cbn [feedRows].
    assert (Hnth : nth_error rows (length pre) = Some row).
    { rewrite Hrows, nth_error_app2, Nat.sub_diag by lia. reflexivity. }
    pose proof (onRow_after chunk_rows Hnth) as Hstep. cbv zeta in Hstep.
    fold n norm in Hstep. rewrite Hstep.
    specialize (IH (pre ++ [row])).
    rewrite length_app, Nat.add_1_r in IH. cbn [length] in IH.
    replace (Z.of_nat (length pre) + 1)%Z with (Z.of_nat (S (length pre))) by lia.
    apply IH. rewrite <- app_assoc. exact Hrows.
Qed.

Lemma chunkRows_closed_form (chunk_rows : Q) (rows : list CsvRow) :
  let n := effective_chunk_rows chunk_rows in
  let norm := map normalizeRow rows in
  let leaves := map (leaf_at n norm) (seq 0 ((length norm + n - 1) / n)) in
  chunkRows chunk_rows rows
  = (leaves, Z.of_nat (length norm), buildMerkleRoot (map leaf_hash leaves)).
Proof.
  intros n norm leaves.
  assert (Hn : (1 <= n)%nat) by apply effective_chunk_rows_pos.
  assert (HR : length norm = length rows) by (unfold norm; apply length_map).
  unfold chunkRows.
  pose proof (feedRows_after chunk_rows (rows := rows) (pre := []) eq_refl) as Hfeed.
  cbv zeta in Hfeed. fold n norm in Hfeed.
  assert (Hstart : state_after n norm (length (@nil CsvRow)) = chunking_start).
  { unfold state_after. cbn [length].
    rewrite Nat.Div0.div_0_l, Nat.Div0.mod_0_l. reflexivity. }
  rewrite Hstart in Hfeed.
  change (Z.of_nat (length (@nil CsvRow))) with 0%Z in Hfeed.
  rewrite Hfeed. clear Hfeed. rewrite <- HR.
  set (R := length norm) in *.
  pose proof (Nat.div_mod_eq R n) as Hdm.
  pose proof (Nat.mod_upper_bound R n ltac:(lia)) as Hr.
  assert (Hlen : length (cs_currentChunkRows (state_after n norm R)) = (R mod n)%nat).
  { cbn [state_after cs_currentChunkRows]. rewrite length_firstn, length_skipn. fold R. lia. }
  rewrite Hlen.
  assert (Hleaves : leaves =
            map (leaf_at n norm) (seq 0 (R / n)) ++
            (if (0 <? R mod n)%nat then [leaf_at n norm (R / n)] else [])).
  { unfold leaves. rewrite ceil_div by assumption.
    destruct (0 <? R mod n)%nat.
    - rewrite Nat.add_1_r, seq_S, map_app. reflexivity.
    - rewrite Nat.add_0_r, app_nil_r. reflexivity. }
  destruct (0 <? R mod n)%nat eqn:E.
  - cbn [finalizeChunk state_after cs_leaves cs_rows cs_currentChunkStart
         cs_currentChunkRows cs_chunk_id].
    assert (Hlast :
      {| chunk_id := R / n; start_row := Z.of_nat (R / n * n);
         end_row := Z.of_nat R - 1;
         leaf_hash := hashHex (sha256 (utf8 (join [newline]
                        (firstn (R mod n) (skipn (R / n * n) norm))))) |}
      = leaf_at n norm (R / n)).
    { unfold leaf_at, chunk_payload_hash. fold R. f_equal; [nia|].
      do 4 f_equal.
      rewrite !firstn_all2; [reflexivity| |]; rewrite length_skipn; fold R; lia. }
    rewrite Hlast, <- Hleaves. reflexivity.
  - cbn [state_after cs_leaves cs_rows]. rewrite app_nil_r in Hleaves.
    rewrite <- Hleaves. reflexivity.
Qed.

(** What [chunkRows] returns depends on the rows only through their
    normal forms. *)
Lemma chunkRows_normalized (chunk_rows : Q) (rows1 rows2 : list CsvRow) :
  map normalizeRow rows1 = map normalizeRow rows2 ->
  chunkRows chunk_rows rows1 = chunkRows chunk_rows rows2.
Proof.
  intros H. rewrite !chunkRows_closed_form. cbv zeta. now rewrite H.
Qed.

Lemma row_get_In (k : jsstring) (v : option jsstring)
    (columns : list (jsstring * option jsstring)) :
  NoDup (map fst columns) -> In (k, v) columns -> row_get k columns = v.
Proof.
  induction columns as [|[k' v'] rest IH]; intros Hnd Hin; [contradiction|].
  cbn [row_get]. inversion Hnd as [|? ? Hnotin Hnd']; subst.
  destruct Hin as [Heq|Hin].
  - injection Heq as -> ->. now rewrite str_eqb_refl.
  - destruct (str_eqb k' k) eqn:E.
    + apply str_eqb_eq in E. subst k'. exfalso. apply Hnotin.
      apply in_map_iff. exists (k, v). auto.
    + now apply IH.
Qed.

Lemma row_get_perm (c1 c2 : list (jsstring * option jsstring)) (k : jsstring) :
  NoDup (map fst c1) -> Permutation c1 c2 -> In k (map fst c1) ->
  row_get k c1 = row_get k c2.
Proof.
  intros Hnd Hperm Hin. apply in_map_iff in Hin. destruct Hin as [[k' v] [Hk Hin]].
  simpl in Hk. subst k'.
  rewrite (row_get_In Hnd Hin). symmetry. apply row_get_In.
  - eapply Permutation_NoDup; [|exact Hnd]. now apply Permutation_map.
  - eapply Permutation_in; eassumption.
Qed.

Lemma normalizeRow_perm (c1 c2 : list (jsstring * option jsstring)) :
  NoDup (map fst c1) -> Permutation c1 c2 ->
  normalizeRow (ObjectRow c1) = normalizeRow (ObjectRow c2).
Proof.
  intros Hnd Hperm. unfold normalizeRow.
  rewrite <- (sort_keys_perm_eq (Permutation_map fst Hperm)).
  f_equal. apply map_ext_in. intros k Hk.
  do 3 f_equal. apply row_get_perm; try assumption.
  eapply Permutation_in; [symmetry; apply sort_keys_perm|exact Hk].
Qed.

Lemma join_merge (sep a b : jsstring) (xs ys : list jsstring) :
  join sep (xs ++ [a; b] ++ ys) = join sep (xs ++ [a ++ sep ++ b] ++ ys).
Proof.
  induction xs as [|x xs IH].
  - cbn [app join]. destruct ys; [reflexivity|]. now rewrite <- !app_assoc.
  - cbn [app] in *.
    change (join sep (x :: ?l)) with
      (match l with [] => x | _ => x ++ sep ++ join sep l end).
    destruct xs; cbn [app] in *; now rewrite IH.
Qed.

(** The leaf hashes of the chunks, in terms of the normalized rows. *)
Definition chunk_hashes (n : nat) (norm : list jsstring) : list jsstring :=
  map (fun i => chunk_payload_hash (firstn n (skipn (i * n) norm)))
      (seq 0 ((length norm + n - 1) / n)).

Lemma leaf_hash_leaf_at (n : nat) (norm : list jsstring) (count : nat) :
  map leaf_hash (map (leaf_at n norm) (seq 0 count))
  = map (fun i => chunk_payload_hash (firstn n (skipn (i * n) norm))) (seq 0 count).
Proof. rewrite map_map. reflexivity. Qed.

Lemma seq_add_map (k c : nat) : seq k c = map (Nat.add k) (seq 0 c).
Proof.
  induction k as [|k IH]; [now rewrite map_id|].
  rewrite <- seq_shift, IH, map_map. reflexivity.
Qed.

Lemma chunk_hashes_app (n : nat) (a b : list jsstring) (k : nat) :
  (1 <= n)%nat -> length a = (k * n)%nat ->
  chunk_hashes n (a ++ b) = chunk_hashes n a ++ chunk_hashes n b.
Proof.
  intros Hn Ha. unfold chunk_hashes.
  rewrite length_app, Ha.
  replace ((k * n + length b + n - 1) / n)%nat with (k + (length b + n - 1) / n)%nat.
  2:{ replace (k * n + length b + n - 1)%nat with ((length b + n - 1) + k * n)%nat by lia.
      rewrite Nat.div_add by lia. lia. }
  replace ((k * n + n - 1) / n)%nat with k.
  2:{ apply Nat.div_unique with (r := (n - 1)%nat); nia. }
  rewrite seq_app, map_app. cbn [Nat.add]. f_equal.
  - apply map_ext_in. intros i Hi. apply in_seq in Hi. f_equal.
    rewrite skipn_app, firstn_app.
    assert (Hlen : (n <= length (skipn (i * n) a))%nat) by (rewrite length_skipn; nia).
    replace (n - length (skipn (i * n) a))%nat with 0%nat by lia.
    rewrite firstn_O, app_nil_r. reflexivity.
  - rewrite seq_add_map, map_map. apply map_ext. intros i. f_equal. f_equal.
    rewrite skipn_app, skipn_all2 by nia. cbn [app]. f_equal. nia.
Qed.

Lemma chunk_hashes_one (n : nat) (b : list jsstring) :
  (1 <= n)%nat -> length b = n -> chunk_hashes n b = [chunk_payload_hash b].
Proof.
  intros Hn Hb. unfold chunk_hashes. rewrite Hb.
  replace ((n + n - 1) / n)%nat with 1%nat
    by (apply Nat.div_unique with (r := (n - 1)%nat); nia).
  cbn [seq map Nat.mul skipn]. rewrite firstn_all2 by lia. reflexivity.
Qed.

Lemma chunk_hashes_length (n : nat) (a : list jsstring) (k : nat) :
  (1 <= n)%nat -> length a = (k * n)%nat -> length (chunk_hashes n a) = k.
Proof.
  intros Hn Ha. unfold chunk_hashes. rewrite length_map, length_seq, Ha.
  symmetry. apply Nat.div_unique with (r := (n - 1)%nat); nia.
Qed.

Lemma chunkRows_root (chunk_rows : Q) (rows : list CsvRow) :
  snd (chunkRows chunk_rows rows)
  = buildMerkleRoot
      (chunk_hashes (effective_chunk_rows chunk_rows) (map normalizeRow rows)).
Proof.
  rewrite chunkRows_closed_form. cbv zeta. cbn [snd].
  now rewrite leaf_hash_leaf_at.
Qed.

Lemma buildMerkleRoot_duplicate_last (leaves : list jsstring) (x : jsstring) :
  leaves <> [] -> Nat.even (length leaves) = true ->
  buildMerkleRoot (leaves ++ [x; x]) = buildMerkleRoot (leaves ++ [x]).
Proof.
  intros Hne Heven. unfold buildMerkleRoot.
  destruct leaves as [|a rest]; [congruence|]. cbn [app].
  change (a :: rest ++ [x; x]) with ((a :: rest) ++ [x; x]).
  change (a :: rest ++ [x]) with ((a :: rest) ++ [x]).
  rewrite (rootLoopHex_step ((a :: rest) ++ [x; x])),
          (rootLoopHex_step ((a :: rest) ++ [x])).
  destruct (lt_dec 1 (length ((a :: rest) ++ [x; x]))) as [_|Hn];
    [|rewrite length_app in Hn; simpl in Hn; lia].
  destruct (lt_dec 1 (length ((a :: rest) ++ [x]))) as [_|Hn];
    [|rewrite length_app in Hn; simpl in Hn; lia].
  now rewrite nextLevelHex_duplicate_last.
Qed.

Lemma verifyLoop_hashed (siblings : list jsstring) :
  siblings <> [] ->
  forall (node : Buffer) (idx : Z), exists x, verifyLoop node idx siblings = h x.
Proof.
  induction siblings as [|s rest IH]; intros Hne node idx; [congruence|].
  cbn [verifyLoop]. destruct rest as [|s' rest'].
  - cbn [verifyLoop]. destruct (Z.rem idx 2 =? 1)%Z; eauto.
  - apply IH. congruence.
Qed.

End Engine2Facts.

(** ** Properties of the row engines *)

(** Two rows with the same content: the same cells, or the same columns
    listed in another order. *)
Definition same_columns (r1 r2 : CsvRow) : Prop :=
  match r1, r2 with
  | ArrayRow c1, ArrayRow c2 => c1 = c2
  | ObjectRow c1, ObjectRow c2 => NoDup (map fst c1) /\ Permutation c1 c2
  | _, _ => False
  end.

Section EngineProperties.
Context {rt : Runtime}.

(** X15. Engine 2 cuts the rows into consecutive chunks of [n] rows, the
    last one possibly shorter, where [n] is the least positive integer not
    below [chunk_rows] (so a [chunk_rows] that is zero, negative or
    fractional still ends every chunk). Chunk [i] has id [i], covers the
    rows [i*n .. min((i+1)*n, rows) - 1] and its leaf is the double
    SHA-256 of its normalized rows joined by line feeds. *)
Theorem rows_are_cut_into_consecutive_chunks (chunk_rows : Q) (rows : list CsvRow) :
  let n := effective_chunk_rows chunk_rows in
  let norm := map normalizeRow rows in
  chunkRows chunk_rows rows
  = (map (leaf_at n norm) (seq 0 ((length rows + n - 1) / n)),
     Z.of_nat (length rows),
     buildMerkleRoot (chunk_hashes n norm)).
Proof.
  intros n norm. rewrite chunkRows_closed_form. cbv zeta. fold n norm.
  rewrite leaf_hash_leaf_at. unfold chunk_hashes, norm. rewrite !length_map.
  reflexivity.
Qed.

(** X16. The chunk index of engine 2 does not depend on the order in
    which the columns of an object row are enumerated. *)
Theorem chunk_index_ignores_column_order (chunk_rows : Q) (rows1 rows2 : list CsvRow) :
  Forall2 same_columns rows1 rows2 ->
  chunkRows chunk_rows rows1 = chunkRows chunk_rows rows2.
Proof.
  intros Hsame. apply chunkRows_normalized.
  induction Hsame as [|r1 r2 l1 l2 Hr _ IH]; [reflexivity|].
  cbn [map]. f_equal; [|exact IH].
  destruct r1 as [c1|c1], r2 as [c2|c2]; simpl in Hr; try contradiction.
  - now subst.
  - destruct Hr as [Hnd Hperm]. now apply normalizeRow_perm.
Qed.

(** X17. Row normalization does not escape the unit separator: a row
    with the two cells [a], [b] and the row with the single cell
    [a U+001F b] in their place give the same chunk index. *)
Theorem separator_inside_a_cell_is_not_told_apart (chunk_rows : Q)
    (before after : list CsvRow) (cells1 cells2 : list (option jsstring))
    (a b : jsstring) :
  chunkRows chunk_rows
    (before ++ ArrayRow (cells1 ++ [Some a; Some b] ++ cells2) :: after)
  = chunkRows chunk_rows
    (before ++ ArrayRow (cells1 ++ [Some (a ++ unit_separator :: b)] ++ cells2) :: after).
Proof.
  apply chunkRows_normalized. rewrite !map_app. cbn [map]. do 2 f_equal.
  unfold normalizeRow. rewrite !map_app. cbn [map cell_text].
  apply (join_merge [unit_separator]).
Qed.

(** X18. The root of engine 2 does not cover the number of chunks: when
    the rows fill an odd number (three or more) of whole chunks, adding a
    copy of the rows of the last chunk leaves [merkle_root] unchanged,
    while the row count grows. *)
Theorem repeated_last_chunk_keeps_root (chunk_rows : Q) (A B : list CsvRow) (j : nat) :
  let n := effective_chunk_rows chunk_rows in
  length A = (2 * S j * n)%nat ->
  length B = n ->
  snd (chunkRows chunk_rows (A ++ B ++ B)) = snd (chunkRows chunk_rows (A ++ B)) /\
  snd (fst (chunkRows chunk_rows (A ++ B ++ B)))
  = (snd (fst (chunkRows chunk_rows (A ++ B))) + Z.of_nat n)%Z.
Proof.
  intros n HA HB.
  assert (Hn : (1 <= n)%nat) by apply effective_chunk_rows_pos.
  split.
  - rewrite !chunkRows_root. fold n. rewrite !map_app.
    assert (HA' : length (map normalizeRow A) = (2 * S j * n)%nat)
      by now rewrite length_map.
    assert (HB' : length (map normalizeRow B) = n) by now rewrite length_map.
    rewrite (chunk_hashes_app (map normalizeRow B ++ map normalizeRow B) Hn HA').
    rewrite (chunk_hashes_app (map normalizeRow B) Hn HA').
    assert (HB1 : length (map normalizeRow B) = (1 * n)%nat) by lia.
    rewrite (chunk_hashes_app (map normalizeRow B) Hn HB1).
    rewrite (chunk_hashes_one Hn HB').
    apply buildMerkleRoot_duplicate_last.
    + intros Hnil. apply (f_equal (@length _)) in Hnil.
      rewrite (chunk_hashes_length Hn HA') in Hnil. simpl in Hnil. lia.
    + rewrite (chunk_hashes_length Hn HA').
      replace (2 * S j)%nat with (S (S (2 * j))) by lia.
      rewrite Nat.even_succ_succ, Nat.even_mul. reflexivity.
  - rewrite !chunkRows_closed_form. cbv zeta. cbn [fst snd].
    rewrite !length_map, !length_app. lia.
Qed.

(** X19. The sampler of engine 8 checks BLAKE2b proofs against the
    SHA-256 root of engine 2. When the two digests differ in length, as
    they do, and the chunk index has two leaves or more, every sampled
    proof is recorded with [verifies] false. *)
Theorem sampled_proofs_never_verify (leafHex : list jsstring) (idxs : list Z)
    (proofs : list SampledProof) :
  (forall a b, length (blake2b512 a) <> length (sha256 b)) ->
  (2 <= length leafHex)%nat ->
  ProofSampler.sampled leafHex (buildMerkleRoot leafHex) idxs = Ok proofs ->
  Forall (fun p => verifies p = false) proofs.
Proof.
  intros Hdigest Hlen. unfold ProofSampler.sampled.
  revert proofs. induction idxs as [|i idxs IH]; intros proofs H.
  - injection H as <-. constructor.
  - cbn [mapM] in H.
    destruct (merkleProof leafHex i) as [p|e] eqn:Hp; [|discriminate].
    cbn [bind] in H.
    destruct (mapM _ idxs) as [ps|e] eqn:Hps; [|discriminate].
    cbn [bind] in H. injection H as <-.
    constructor; [|now apply IH].
    cbn [verifies]. unfold verifyProof.
    apply str_eqb_neq. intros Heq.
    destruct (@rootLoopHex_hashed _ leafHex) as [b Hroot].
    { destruct leafHex; [simpl in Hlen; lia|congruence]. }
    { now right. }
    assert (Hrootv : buildMerkleRoot leafHex = hashHex b).
    { unfold buildMerkleRoot. destruct leafHex; [simpl in Hlen; lia|].
      now rewrite Hroot. }
    rewrite Hrootv in Heq. unfold hashHex in Heq. apply toHex_inj in Heq.
    destruct (@verifyLoop_hashed _ (siblings_hex p)) with
      (node := fromHex (leaf_hex p)) (idx := index p) as [x Hx].
    { intros Hnil. apply merkleProof_siblings_count in Hp.
      rewrite Hnil in Hp. simpl in Hp. symmetry in Hp.
      assert (1 <= Nat.log2_up (length leafHex))%nat; [|lia].
      apply Nat.log2_up_pos. lia. }
    rewrite Hx in Heq. unfold h in Heq.
    apply (Hdigest x b). now rewrite Heq.
Qed.

Lemma Qle_bool_ceiling (q : Q) (z : Z) :
  Qle_bool q (inject_Z z) = (Qceiling q <=? z)%Z.
Proof.
  destruct (Qle_bool q (inject_Z z)) eqn:E; symmetry.
  - apply Qle_bool_iff in E. apply Z.leb_le.
    apply Qceiling_resp_le in E. now rewrite Qceiling_Z in E.
  - apply Z.leb_gt.
    destruct (Z_lt_ge_dec z (Qceiling q)) as [|Hge]; [assumption|exfalso].
    assert (H : Qle_bool q (inject_Z z) = true); [|congruence].
    apply Qle_bool_iff. eapply Qle_trans; [apply Qle_ceiling|].
    rewrite <- Zle_Qle. lia.
Qed.

Lemma In_Set_add (i d : Z) (out : list Z) :
  In i (ProofSampler.Set_add d out) <-> i = d \/ In i out.
Proof.
  unfold ProofSampler.Set_add. destruct (existsb (Z.eqb d) out) eqn:E.
  - split; [auto|]. intros [->|H]; [|exact H].
    apply existsb_exists in E. destruct E as [x [Hx Hd]].
    apply Z.eqb_eq in Hd. now subst.
  - rewrite in_app_iff. simpl. intuition.
Qed.

Lemma NoDup_Set_add (d : Z) (out : list Z) :
  NoDup out -> NoDup (ProofSampler.Set_add d out).
Proof.
  intros Hnd. unfold ProofSampler.Set_add. destruct (existsb (Z.eqb d) out) eqn:E.
  - exact Hnd.
  - apply NoDup_app; [exact Hnd|repeat constructor; simpl; tauto|].
    intros x Hx [Hdx|[]]. subst x.
    assert (Ht : existsb (Z.eqb d) out = true); [|congruence].
    apply existsb_exists. exists d. split; [exact Hx|apply Z.eqb_refl].
Qed.

Lemma length_Set_add (d : Z) (out : list Z) :
  (length out <= length (ProofSampler.Set_add d out) <= S (length out))%nat.
Proof.
  unfold ProofSampler.Set_add. destruct (existsb (Z.eqb d) out).
  - lia.
  - rewrite length_app. simpl. lia.
Qed.

Lemma sampleLoop_step (target : Q) (out draws : list Z) :
  ProofSampler.sampleLoop target out draws =
  if (Qceiling target <=? Z.of_nat (length out))%Z then Some out
  else match draws with
       | [] => None
       | d :: rest => ProofSampler.sampleLoop target (ProofSampler.Set_add d out) rest
       end.
Proof.
  destruct draws; cbn [ProofSampler.sampleLoop]; rewrite Qle_bool_ceiling;
    destruct (Qceiling target <=? Z.of_nat (length out))%Z; reflexivity.
Qed.

Lemma sampleLoop_result (target : Q) (n : Z) (draws : list Z) :
  Forall (fun d => 0 <= d < n)%Z draws ->
  forall out res,
    NoDup out -> Forall (fun d => 0 <= d < n)%Z out ->
    (Z.of_nat (length out) <= Z.max 0 (Qceiling target))%Z ->
    ProofSampler.sampleLoop target out draws = Some res ->
    NoDup res /\ Forall (fun d => 0 <= d < n)%Z res /\
    Z.of_nat (length res) = Z.max 0 (Qceiling target).
Proof.
  induction 1 as [|d rest Hd Hrest IH]; intros out res Hnd Hrange Hlen Hres;
    rewrite sampleLoop_step in Hres;
    destruct (Qceiling target <=? Z.of_nat (length out))%Z eqn:E;
    try discriminate.
  - injection Hres as <-. apply Z.leb_le in E. repeat split; try assumption. lia.
  - injection Hres as <-. apply Z.leb_le in E. repeat split; try assumption. lia.
  - apply Z.leb_gt in E. eapply IH; [| | |exact Hres].
    + now apply NoDup_Set_add.
    + apply Forall_forall. intros x Hx. apply In_Set_add in Hx.
      destruct Hx as [->|Hx]; [exact Hd|].
      rewrite Forall_forall in Hrange. now apply Hrange.
    + pose proof (length_Set_add d out). lia.
Qed.

Lemma sampleLoop_ends (target : Q) (n : nat) (draws : list Z) :
  (Qceiling target <= Z.of_nat n)%Z ->
  forall out,
    NoDup out ->
    (forall i, (i < n)%nat -> In (Z.of_nat i) out \/ In (Z.of_nat i) draws) ->
    exists res, ProofSampler.sampleLoop target out draws = Some res.
Proof.
  intros Htarget. induction draws as [|d rest IH]; intros out Hnd Hcover;
    rewrite sampleLoop_step;
    destruct (Qceiling target <=? Z.of_nat (length out))%Z eqn:E; eauto.
  - exfalso. apply Z.leb_gt in E.
    assert (Hincl : incl (map Z.of_nat (seq 0 n)) out).
    { intros x Hx. apply in_map_iff in Hx. destruct Hx as [i [<- Hi]].
      apply in_seq in Hi. destruct (Hcover i ltac:(lia)) as [H|[]]. exact H. }
    apply NoDup_incl_length in Hincl.
    + rewrite length_map, length_seq in Hincl. lia.
    + apply Finite.Injective_map_NoDup; [intros a b; apply Nat2Z.inj|apply seq_NoDup].
  - apply IH; [now apply NoDup_Set_add|].
    intros i Hi. rewrite In_Set_add.
    destruct (Hcover i Hi) as [H|[H|H]]; auto.
Qed.

Lemma insert_number_perm (x : Z) (l : list Z) :
  Permutation (x :: l) (ProofSampler.insert_number x l).
Proof.
  induction l as [|y l IH]; [reflexivity|]. cbn [ProofSampler.insert_number].
  destruct (x <? y)%Z; [reflexivity|].
  rewrite perm_swap. now apply perm_skip.
Qed.

Lemma sort_numbers_perm (l : list Z) : Permutation l (ProofSampler.sort_numbers l).
Proof.
  induction l as [|x l IH]; [reflexivity|].
  cbn [ProofSampler.sort_numbers fold_right].
  rewrite <- insert_number_perm. now apply perm_skip.
Qed.

Lemma insert_number_sorted (x : Z) (l : list Z) :
  ~ In x l -> StronglySorted Z.lt l ->
  StronglySorted Z.lt (ProofSampler.insert_number x l).
Proof.
  intros Hnotin Hs. induction Hs as [|y l Hs IH Hall].
  - repeat constructor.
  - cbn [ProofSampler.insert_number]. destruct (x <? y)%Z eqn:E.
    + apply Z.ltb_lt in E. constructor; [now constructor|].
      constructor; [exact E|]. eapply Forall_impl; [|exact Hall].
      intros a Ha. lia.
    + apply Z.ltb_ge in E. constructor.
      * apply IH. intros Hin. apply Hnotin. now right.
      * apply Forall_forall. intros a Ha.
        apply (Permutation_in _ (Permutation_sym (insert_number_perm x l))) in Ha.
        destruct Ha as [<-|Ha].
        -- assert (x <> y) by (intros ->; apply Hnotin; now left). lia.
        -- rewrite Forall_forall in Hall. now apply Hall.
Qed.

Lemma sort_numbers_sorted (l : list Z) :
  NoDup l -> StronglySorted Z.lt (ProofSampler.sort_numbers l).
Proof.
  induction 1 as [|x l Hnotin Hnd IH]; [constructor|].
  cbn [ProofSampler.sort_numbers fold_right]. apply insert_number_sorted; [|exact IH].
  intros Hin. apply Hnotin.
  eapply Permutation_in; [symmetry; apply sort_numbers_perm|exact Hin].
Qed.

Lemma sample_target_ceiling (n : Z) (k : Q) :
  Qceiling (if Qle_bool k (inject_Z n) then k else inject_Z n)
  = Z.min (Qceiling k) n.
Proof.
  rewrite Qle_bool_ceiling. destruct (Qceiling k <=? n)%Z eqn:E.
  - apply Z.leb_le in E. lia.
  - apply Z.leb_gt in E. rewrite Qceiling_Z. lia.
Qed.

Lemma sampleIndices_result (n : nat) (k : Q) (draws idxs : list Z) :
  Forall (fun d => 0 <= d < Z.of_nat n)%Z draws ->
  ProofSampler.sampleIndices (Z.of_nat n) k draws = Some idxs ->
  StronglySorted Z.lt idxs /\
  Forall (fun i => 0 <= i < Z.of_nat n)%Z idxs /\
  Z.of_nat (length idxs) = Z.max 0 (Z.min (Qceiling k) (Z.of_nat n)).
Proof.
  intros Hdraws. unfold ProofSampler.sampleIndices.
  destruct (Z.of_nat n <=? 0)%Z eqn:En.
  - apply Z.leb_le in En.
    intros H. injection H as <-. split; [|split]; try constructor. simpl. lia.
  - apply Z.leb_gt in En.
    set (target := if Qle_bool k (inject_Z (Z.of_nat n)) then k
                   else inject_Z (Z.of_nat n)).
    assert (Hceil : Qceiling target = Z.min (Qceiling k) (Z.of_nat n))
      by apply sample_target_ceiling.
    intros H.
    destruct (ProofSampler.sampleLoop target [] draws) as [out|] eqn:Hloop;
      [|discriminate].
    injection H as <-.
    assert (Hstart : (Z.of_nat (length (@nil Z)) <= Z.max 0 (Qceiling target))%Z)
      by (simpl; lia).
    destruct (@sampleLoop_result target (Z.of_nat n) draws Hdraws [] out
                (NoDup_nil _) (Forall_nil _) Hstart Hloop)
      as (Hnd & Hrange & Hlen).
    split; [|split].
    + now apply sort_numbers_sorted.
    + eapply Permutation_Forall; [apply sort_numbers_perm|exact Hrange].
    + rewrite <- (Permutation_length (sort_numbers_perm out)). lia.
Qed.

Lemma sampleIndices_ends (n : nat) (k : Q) (draws : list Z) :
  (forall i, (i < n)%nat -> In (Z.of_nat i) draws) ->
  exists idxs, ProofSampler.sampleIndices (Z.of_nat n) k draws = Some idxs.
Proof.
  intros Hcover. unfold ProofSampler.sampleIndices.
  destruct (Z.of_nat n <=? 0)%Z eqn:En; [eauto|].
  set (target := if Qle_bool k (inject_Z (Z.of_nat n)) then k
                 else inject_Z (Z.of_nat n)).
  assert (Hceil : Qceiling target = Z.min (Qceiling k) (Z.of_nat n))
    by apply sample_target_ceiling.
  destruct (@sampleLoop_ends target n draws) with (out := @nil Z) as [res Hres].
  - lia.
  - constructor.
  - intros i Hi. right. now apply Hcover.
  - rewrite Hres. eauto.
Qed.

(** X20. [sampleIndices(n, k)] of engine 8, on draws that lie in
    [0 .. n-1]: when the loop ends, the result is strictly increasing,
    lies in [0 .. n-1] and has [max(0, min(ceil(k), n))] elements; and the
    loop does end once every index has been drawn. *)
Theorem sampler_indices_sorted_distinct_in_range (n : nat) (k : Q) (draws : list Z) :
  Forall (fun d => 0 <= d < Z.of_nat n)%Z draws ->
  (forall idxs, ProofSampler.sampleIndices (Z.of_nat n) k draws = Some idxs ->
     StronglySorted Z.lt idxs /\
     Forall (fun i => 0 <= i < Z.of_nat n)%Z idxs /\
     Z.of_nat (length idxs) = Z.max 0 (Z.min (Qceiling k) (Z.of_nat n))) /\
  ((forall i, (i < n)%nat -> In (Z.of_nat i) draws) ->
   exists idxs, ProofSampler.sampleIndices (Z.of_nat n) k draws = Some idxs).
Proof.
  intros Hdraws. split.
  - intros idxs. now apply sampleIndices_result.
  - apply sampleIndices_ends.
Qed.

Lemma sampled_in_range (leafHex : list jsstring) (rootHex : jsstring) (idxs : list Z) :
  Forall (fun i => 0 <= i < Z.of_nat (length leafHex))%Z idxs ->
  exists proofs, ProofSampler.sampled leafHex rootHex idxs = Ok proofs.
Proof.
  intros Hrange. unfold ProofSampler.sampled.
  induction Hrange as [|i idxs Hi _ [ps IH]].
  - exists []. reflexivity.
  - destruct (proof_roundtrip Hi) as (siblings & Hproof & _).
    cbn [mapM]. rewrite Hproof. cbn [bind]. rewrite IH. cbn [bind]. eauto.
Qed.

Lemma runEngine8ProofSampler_result
    (created_at run_id rootHex : jsstring) (leafHex : list jsstring)
    (sampleCount : Q) (draws : list Z) (r : result JSON) :
  Forall (fun d => 0 <= d < Z.of_nat (length leafHex))%Z draws ->
  ProofSampler.runEngine8ProofSampler created_at run_id leafHex rootHex
    sampleCount draws = Some r ->
  exists proofs, r = Ok (ProofSampler.proofBundle created_at run_id rootHex proofs).
Proof.
  intros Hdraws. unfold ProofSampler.runEngine8ProofSampler.
  destruct (ProofSampler.sampleIndices _ _ _) as [idxs|] eqn:Hidx; [|discriminate].
  intros H.
  destruct (sampleIndices_result Hdraws Hidx) as (_ & Hrange & _).
  destruct (sampled_in_range rootHex Hrange) as [proofs Hproofs].
  rewrite Hproofs in H. cbn [bind] in H.
  exists proofs. congruence.
Qed.

Lemma runEngine7Trust_proofBundle
    (created_at run_id rootHex : jsstring) (proofs : list SampledProof)
    (e3v : option JSON) (e5 : JSON) (weighted_at_least_85 : bool) :
  let t := Trust.runEngine7Trust e3v e5
             (ProofSampler.proofBundle created_at run_id rootHex proofs)
             weighted_at_least_85 in
  Trust.merkle_proofs t = 20%Z /\
  Trust.severity t = Trust.CRITICAL /\
  Trust.verdict t = Trust.FAIL.
Proof.
  intros t.
  assert (Hall : Trust.is_true
                   (Trust.chain (Some (ProofSampler.proofBundle created_at run_id
                                         rootHex proofs)) (lit "all_verified")) = false)
    by reflexivity.
  subst t. unfold Trust.runEngine7Trust.
  cbn [Trust.merkle_proofs Trust.severity Trust.verdict]. rewrite Hall.
  unfold Trust.deriveSeverity. cbn [negb].
  split; [reflexivity|].
  destruct (str_is (lit "MISMATCH") _); split; reflexivity.
Qed.

(** X21. Engine 8 never fails on an index out of range, and the bundle it
    writes has no [all_verified] field. Engine 7 reads that field: on every
    bundle of engine 8, whatever the other reports say, it sets the
    component [merkle_proofs] to 20, the severity to CRITICAL and the
    verdict to FAIL. *)
Theorem trust_verdict_fails_on_sampler_bundles
    (created_at run_id rootHex : jsstring) (leafHex : list jsstring)
    (sampleCount : Q) (draws : list Z) (r : result JSON) :
  Forall (fun d => 0 <= d < Z.of_nat (length leafHex))%Z draws ->
  ProofSampler.runEngine8ProofSampler created_at run_id leafHex rootHex
    sampleCount draws = Some r ->
  exists bundle,
    r = Ok bundle /\
    forall (e3v : option JSON) (e5 : JSON) (weighted_at_least_85 : bool),
      let t := Trust.runEngine7Trust e3v e5 bundle weighted_at_least_85 in
      Trust.merkle_proofs t = 20%Z /\
      Trust.severity t = Trust.CRITICAL /\
      Trust.verdict t = Trust.FAIL.
Proof.
  intros Hdraws Hrun.
  destruct (runEngine8ProofSampler_result Hdraws Hrun) as [proofs Hr].
  eexists. split; [exact Hr|].
  intros e3v e5 w. apply runEngine7Trust_proofBundle.
Qed.

(** X22. Engine 5 names its middle risk level MEDIUM, engine 7 tests for
    MED. On a report of engine 5 the severity is never MED and the policy
    component never 60; a data set without a column at risk HIGH gets the
    policy component 95 whether its risk is MEDIUM or LOW. *)
Theorem medium_policy_risk_counts_as_low
    (created_at run_id input_file : jsstring) (rows hits highCols : nat)
    (column_risk : JSON) (notes : list jsstring)
    (e3v : option JSON) (e8 : JSON) (weighted_at_least_85 : bool) :
  let e5 := Policy.policyReport created_at run_id input_file rows hits highCols
              column_risk notes in
  let t := Trust.runEngine7Trust e3v e5 e8 weighted_at_least_85 in
  Trust.severity t <> Trust.MED /\
  Trust.policy t <> 60%Z /\
  (highCols = 0%nat ->
   Trust.policy t = 95%Z /\
   (Trust.severity t = Trust.LOW \/ Trust.severity t = Trust.CRITICAL)).
Proof.
  intros e5 t.
  assert (Hrisk : Trust.chain (Some e5) (lit "dataset_risk")
                  = Some (JStr (Policy.dataset_risk highCols hits))) by reflexivity.
  subst t. unfold Trust.runEngine7Trust.
  cbn [Trust.severity Trust.policy]. rewrite Hrisk.
  unfold Trust.deriveSeverity. cbn [Trust.coalesce].
  unfold Policy.dataset_risk.
  destruct (1 <=? highCols)%nat eqn:Ehigh.
  - change (str_is (lit "HIGH") (Some (JStr (lit "HIGH")))) with true.
    cbn [andb]. split; [|split].
    + destruct (str_is (lit "MISMATCH") _); [discriminate|].
      destruct (negb _); [discriminate|].
      destruct (Trust.greater_than_zero _); discriminate.
    + discriminate.
    + intros ->. discriminate.
  - assert (Hh : forall risk, risk = lit "MEDIUM" \/ risk = lit "LOW" ->
               str_is (lit "HIGH") (Some (JStr risk)) = false /\
               str_is (lit "MED") (Some (JStr risk)) = false).
    { intros risk [->| ->]; split; reflexivity. }
    destruct (Hh (if (5 <=? hits)%nat then lit "MEDIUM" else lit "LOW")) as [H1 H2].
    { destruct (5 <=? hits)%nat; auto. }
    rewrite H1, H2. cbn [andb]. split; [|split].
    + destruct (str_is (lit "MISMATCH") _); [discriminate|].
      destruct (negb _); discriminate.
    + discriminate.
    + intros _. split; [reflexivity|].
      destruct (str_is (lit "MISMATCH") _); [now right|].
      destruct (negb _); [now right|now left].
Qed.

(** *** The repeated-row counter of engine 4 *)

Definition total (m : Contamination.Counts) : Z := fold_right Z.add 0%Z (map snd m).

(** What one pass of the decrement loop leaves. *)
Definition decremented (m : Contamination.Counts) : Contamination.Counts :=
  flat_map (fun kv => if (snd kv - 1 <=? 0)%Z then [] else [(fst kv, (snd kv - 1)%Z)]) m.

Lemma map_get_None (k : jsstring) (m : Contamination.Counts) :
  Contamination.map_get k m = None <-> ~ In k (map fst m).
Proof.
  induction m as [|[k' v] m IH]; cbn [Contamination.map_get map fst In].
  - tauto.
  - destruct (str_eqb k' k) eqn:E.
    + apply str_eqb_eq in E. subst. split; [discriminate|tauto].
    + apply str_eqb_neq in E. rewrite IH. tauto.
Qed.

Lemma map_set_absent (k : jsstring) (v : Z) (m : Contamination.Counts) :
  ~ In k (map fst m) -> Contamination.map_set k v m = m ++ [(k, v)].
Proof.
  induction m as [|[k' v'] m IH]; intros Hnotin; [reflexivity|].
  cbn [Contamination.map_set app]. cbn [map fst In] in Hnotin.
  destruct (str_eqb k' k) eqn:E.
  - apply str_eqb_eq in E. tauto.
  - f_equal. apply IH. tauto.
Qed.

Lemma map_set_keys (k : jsstring) (v v0 : Z) (m : Contamination.Counts) :
  Contamination.map_get k m = Some v0 ->
  map fst (Contamination.map_set k v m) = map fst m /\
  total (Contamination.map_set k v m) = (total m - v0 + v)%Z /\
  (forall P : Z -> Prop, P v -> Forall (fun kv => P (snd kv)) m ->
     Forall (fun kv => P (snd kv)) (Contamination.map_set k v m)).
Proof.
  induction m as [|[k' v'] m IH]; [discriminate|].
  cbn [Contamination.map_get Contamination.map_set].
  destruct (str_eqb k' k) eqn:E.
  - intros H. injection H as ->. unfold total. cbn [map fst snd fold_right].
    split; [reflexivity|split; [lia|]].
    intros P Hv Hall. inversion Hall; subst. now constructor.
  - intros H. destruct (IH H) as (Hk & Ht & HP). unfold total in *.
    cbn [map fst snd fold_right]. split; [now rewrite Hk|split; [lia|]].
    intros P Hv Hall. inversion Hall; subst. constructor; [assumption|now apply HP].
Qed.

Lemma map_get_set (k k' : jsstring) (v : Z) (m : Contamination.Counts) :
  Contamination.map_get k' (Contamination.map_set k v m)
  = if str_eqb k k' then Some v else Contamination.map_get k' m.
Proof.
  induction m as [|[k0 v0] m IH]; cbn [Contamination.map_set Contamination.map_get].
  - reflexivity.
  - destruct (str_eqb k0 k) eqn:E.
    + apply str_eqb_eq in E. subst k0. cbn [Contamination.map_get].
      destruct (str_eqb k k'); reflexivity.
    + cbn [Contamination.map_get]. destruct (str_eqb k0 k') eqn:E'.
      * apply str_eqb_eq in E'. subst k0. apply str_eqb_neq in E.
        destruct (str_eqb k k') eqn:E2; [apply str_eqb_eq in E2; congruence|reflexivity].
      * exact IH.
Qed.

Lemma map_delete_middle (k : jsstring) (v : Z) (a b : Contamination.Counts) :
  ~ In k (map fst a) -> Contamination.map_delete k (a ++ (k, v) :: b) = a ++ b.
Proof.
  induction a as [|[k' v'] a IH]; intros Hnotin; cbn [app Contamination.map_delete].
  - now rewrite str_eqb_refl.
  - cbn [map fst In] in Hnotin. destruct (str_eqb k' k) eqn:E.
    + apply str_eqb_eq in E. tauto.
    + f_equal. apply IH. tauto.
Qed.

Lemma map_set_middle (k : jsstring) (v nv : Z) (a b : Contamination.Counts) :
  ~ In k (map fst a) ->
  Contamination.map_set k nv (a ++ (k, v) :: b) = a ++ (k, nv) :: b.
Proof.
  induction a as [|[k' v'] a IH]; intros Hnotin; cbn [app Contamination.map_set].
  - now rewrite str_eqb_refl.
  - cbn [map fst In] in Hnotin. destruct (str_eqb k' k) eqn:E.
    + apply str_eqb_eq in E. tauto.
    + f_equal. apply IH. tauto.
Qed.

Lemma decremented_keys (m : Contamination.Counts) (k : jsstring) :
  In k (map fst (decremented m)) -> In k (map fst m).
Proof.
  induction m as [|[k' v] m IH]; [now simpl|].
  unfold decremented in *. cbn [flat_map fst snd map].
  destruct (v - 1 <=? 0)%Z; cbn [app map fst In]; intuition.
Qed.

(** The loop that deletes and updates while it iterates leaves what one
    pass over the entries describes. *)
Lemma decrement_all_decremented (m : Contamination.Counts) :
  NoDup (map fst m) -> Contamination.decrement_all m = decremented m.
Proof.
  unfold Contamination.decrement_all.
  assert (H : forall todo done,
             NoDup (map fst (done ++ todo)) ->
             fold_left (fun acc kv =>
                          let nv := (snd kv - 1)%Z in
                          if (nv <=? 0)%Z then Contamination.map_delete (fst kv) acc
                          else Contamination.map_set (fst kv) nv acc)
                       todo (decremented done ++ todo)
             = decremented (done ++ todo)).
  { induction todo as [|[k v] todo IH]; intros done Hnd.
    - cbn [fold_left]. now rewrite !app_nil_r.
    - cbn [fold_left fst snd].
      assert (Hnotin : ~ In k (map fst (decremented done))).
      { intros Hin. apply decremented_keys in Hin.
        rewrite map_app in Hnd. cbn [map fst] in Hnd.
        apply NoDup_remove_2 in Hnd. apply Hnd. apply in_or_app. now left. }
      replace (done ++ (k, v) :: todo) with ((done ++ [(k, v)]) ++ todo) in *
        by (rewrite <- app_assoc; reflexivity).
      rewrite <- (IH (done ++ [(k, v)]) Hnd). f_equal.
      unfold decremented at 3. rewrite flat_map_app. cbn [flat_map fst snd].
      fold (decremented done). rewrite app_nil_r.
      destruct (v - 1 <=? 0)%Z.
      + rewrite app_nil_r. now apply map_delete_middle.
      + rewrite <- app_assoc. now apply map_set_middle. }
  intros Hnd. apply (H m []). exact Hnd.
Qed.

Lemma decremented_NoDup (m : Contamination.Counts) :
  NoDup (map fst m) -> NoDup (map fst (decremented m)).
Proof.
  induction m as [|[k v] m IH]; intros Hnd; [constructor|].
  cbn [map fst] in Hnd. inversion Hnd as [|? ? Hnotin Hnd']; subst.
  unfold decremented in *. cbn [flat_map fst snd].
  destruct (v - 1 <=? 0)%Z; cbn [app map fst]; [now apply IH|].
  constructor; [|now apply IH].
  intros Hin. apply Hnotin. now apply decremented_keys.
Qed.

Lemma decremented_positive (m : Contamination.Counts) :
  Forall (fun kv => 1 <= snd kv)%Z (decremented m).
Proof.
  induction m as [|[k v] m IH]; [constructor|].
  unfold decremented in *. cbn [flat_map fst snd].
  destruct (v - 1 <=? 0)%Z eqn:E; cbn [app]; [exact IH|].
  apply Z.leb_gt in E. constructor; [simpl; lia|exact IH].
Qed.

Lemma decremented_length (m : Contamination.Counts) :
  (length (decremented m) <= length m)%nat.
Proof.
  induction m as [|[k v] m IH]; [simpl; lia|].
  unfold decremented in *. cbn [flat_map fst snd].
  destruct (v - 1 <=? 0)%Z; cbn [app length]; lia.
Qed.

Lemma decremented_total (m : Contamination.Counts) :
  Forall (fun kv => 1 <= snd kv)%Z m ->
  total (decremented m) = (total m - Z.of_nat (length m))%Z.
Proof.
  induction 1 as [|[k v] m Hv Hall IH]; [reflexivity|].
  unfold decremented, total in *. cbn [flat_map fst snd map fold_right length].
  cbn [snd] in Hv.
  destruct (v - 1 <=? 0)%Z eqn:E; cbn [app map snd fold_right].
  - apply Z.leb_le in E. lia.
  - lia.
Qed.

(** The count that the map reports for a row hash: 0 when it has none. *)
Definition reported (m : Contamination.Counts) (hx : jsstring) : Z :=
  match Contamination.map_get hx m with Some c => c | None => 0%Z end.

Lemma reported_absent (m : Contamination.Counts) (hx : jsstring) :
  ~ In hx (map fst m) -> reported m hx = 0%Z.
Proof.
  intros H. apply map_get_None in H. unfold reported. now rewrite H.
Qed.

Lemma decremented_reported (m : Contamination.Counts) (hx : jsstring) :
  NoDup (map fst m) ->
  Forall (fun kv => 1 <= snd kv)%Z m ->
  reported (decremented m) hx = Z.max 0 (reported m hx - 1).
Proof.
  induction m as [|[k v] m IH]; intros Hnd Hall; [reflexivity|].
  cbn [map fst] in Hnd. inversion Hnd as [|? ? Hnotin Hnd']; subst.
  inversion Hall as [|? ? Hv Hall']; subst. cbn [snd] in Hv.
  specialize (IH Hnd' Hall').
  unfold decremented in *. cbn [flat_map fst snd].
  unfold reported at 2. cbn [Contamination.map_get].
  destruct (str_eqb k hx) eqn:E.
  - apply str_eqb_eq in E. subst hx.
    destruct (v - 1 <=? 0)%Z eqn:Ev; cbn [app].
    + apply Z.leb_le in Ev. rewrite reported_absent; [lia|].
      intros Hin. apply Hnotin. now apply decremented_keys.
    + apply Z.leb_gt in Ev. unfold reported. cbn [Contamination.map_get].
      rewrite str_eqb_refl. lia.
  - fold (reported m hx).
    destruct (v - 1 <=? 0)%Z; cbn [app]; [exact IH|].
    unfold reported at 1. cbn [Contamination.map_get]. rewrite E. exact IH.
Qed.

Lemma map_get_Some_In (k : jsstring) (v : Z) (m : Contamination.Counts) :
  Contamination.map_get k m = Some v -> In (k, v) m.
Proof.
  induction m as [|[k' v'] m IH]; [discriminate|].
  cbn [Contamination.map_get]. destruct (str_eqb k' k) eqn:E.
  - apply str_eqb_eq in E. intros H. injection H as ->. subst. now left.
  - intros H. right. now apply IH.
Qed.

(** How often [hx] occurs among the row hashes [hs]. *)
Definition occurrences (hx : jsstring) (hs : list jsstring) : Z :=
  Z.of_nat (length (filter (str_eqb hx) hs)).

Lemma occurrences_snoc (hx h0 : jsstring) (hs : list jsstring) :
  occurrences hx (hs ++ [h0])
  = (occurrences hx hs + if str_eqb hx h0 then 1 else 0)%Z.
Proof.
  unfold occurrences. rewrite filter_app, length_app. cbn [filter].
  destruct (str_eqb hx h0); simpl; lia.
Qed.

Lemma occurrences_In (hx : jsstring) (hs : list jsstring) :
  (1 <= occurrences hx hs)%Z -> In hx hs.
Proof.
  unfold occurrences. intros H.
  destruct (filter (str_eqb hx) hs) as [|y l] eqn:E; [simpl in H; lia|].
  assert (Hy : In y (filter (str_eqb hx) hs)) by (rewrite E; now left).
  apply filter_In in Hy. destruct Hy as [Hy Heq].
  apply str_eqb_eq in Heq. now subst.
Qed.

(** What holds of the counter after the rows with hashes [seen], [d]
    passes of the decrement loop among them. *)
Definition counter_ok (K : Q) (seen : list jsstring) (d : Z)
    (st : Contamination.HeavyHitters) : Prop :=
  let capacity := Z.max 0 (Qceiling K) in
  let m := Contamination.counts st in
  NoDup (map fst m) /\
  Forall (fun kv => 1 <= snd kv)%Z m /\
  (Z.of_nat (length m) <= capacity)%Z /\
  Contamination.rows st = Z.of_nat (length seen) /\
  (Z.of_nat (length m) <= Contamination.approxUnique st <= Z.of_nat (length seen))%Z /\
  (0 <= d)%Z /\
  Z.of_nat (length seen) = (total m + d * (capacity + 1))%Z /\
  (forall hx, occurrences hx seen - d <= reported m hx <= occurrences hx seen)%Z /\
  (forall D : list jsstring,
     incl seen D -> (Z.of_nat (length D) <= capacity)%Z -> d = 0%Z) /\
  (d = 0%Z -> Contamination.approxUnique st = Z.of_nat (length m)).

Lemma counter_keys_seen (K : Q) (seen : list jsstring) (d : Z)
    (st : Contamination.HeavyHitters) :
  counter_ok K seen d st -> incl (map fst (Contamination.counts st)) seen.
Proof.
  intros (Hnd & Hpos & _ & _ & _ & _ & _ & Hrep & _ & _) k Hk.
  apply occurrences_In.
  destruct (Contamination.map_get k (Contamination.counts st)) as [v|] eqn:E.
  - pose proof (map_get_Some_In E) as Hin.
    rewrite Forall_forall in Hpos. specialize (Hpos _ Hin). cbn [snd] in Hpos.
    specialize (Hrep k). unfold reported in Hrep. rewrite E in Hrep. lia.
  - apply map_get_None in E. contradiction.
Qed.

Lemma onRow_counter_ok (K : Q) (seen : list jsstring) (d : Z)
    (st : Contamination.HeavyHitters) (row : CsvRow) :
  counter_ok K seen d st ->
  exists d',
    counter_ok K (seen ++ [Contamination.sha256Hex (Contamination.rowToStableString row)]) d'
      (Contamination.onRow K st row (Z.of_nat (length seen))).
Proof.
  intros Hok. pose proof (counter_keys_seen Hok) as Hkeys.
  destruct Hok as (Hnd & Hpos & Hcap & Hrows & Happrox & Hd & Htotal & Hrep & Hexact & Hfresh).
  cbv zeta in *.
  set (hx0 := Contamination.sha256Hex (Contamination.rowToStableString row)).
  set (m := Contamination.counts st) in *.
  set (capacity := Z.max 0 (Qceiling K)) in *.
  assert (Hlen : Z.of_nat (length (seen ++ [hx0])) = (Z.of_nat (length seen) + 1)%Z)
    by (rewrite length_app; simpl; lia).
  unfold Contamination.onRow. fold hx0 m. unfold Contamination.map_has.
  destruct (Contamination.map_get hx0 m) as [v|] eqn:Eget.
  - (* the hash has a counter *)
    exists d. unfold counter_ok. cbv zeta.
    cbn [Contamination.counts Contamination.rows Contamination.approxUnique].
    destruct (map_set_keys (v + 1)%Z Eget) as (Hk & Ht & HP).
    pose proof (map_get_Some_In Eget) as Hin.
    assert (Hv : (1 <= v)%Z).
    { rewrite Forall_forall in Hpos. apply (Hpos _ Hin). }
    assert (Hsize : length (Contamination.map_set hx0 (v + 1)%Z m) = length m).
    { rewrite <- (length_map fst), Hk, length_map. reflexivity. }
    rewrite Hk, Ht, Hsize, Hlen. fold capacity.
    split; [exact Hnd|].
    split; [apply (HP (fun c => 1 <= c)%Z); [lia|exact Hpos]|].
    split; [lia|]. split; [lia|]. split; [lia|]. split; [lia|].
    split; [lia|].
    + split; [|split].
      * intros hx. rewrite occurrences_snoc. unfold reported.
        rewrite map_get_set. specialize (Hrep hx). unfold reported in Hrep.
        destruct (str_eqb hx hx0) eqn:E.
        -- apply str_eqb_eq in E. subst hx. rewrite str_eqb_refl.
           rewrite Eget in Hrep. lia.
        -- destruct (str_eqb hx0 hx) eqn:E'.
           ++ apply str_eqb_eq in E'. subst hx. rewrite str_eqb_refl in E. discriminate.
           ++ lia.
      * intros D Hincl HD. apply (Hexact D); [|exact HD].
        intros x Hx. apply Hincl. apply in_or_app. now left.
      * exact Hfresh.
  - (* no counter for the hash *)
    assert (Hnotin : ~ In hx0 (map fst m)) by now apply map_get_None.
    rewrite Qle_bool_ceiling.
    destruct (Qceiling K <=? Z.of_nat (length m))%Z eqn:Efull; cbn [negb].
    + (* every counter is in use: one pass of the decrement loop *)
      apply Z.leb_le in Efull.
      assert (Hsize : Z.of_nat (length m) = capacity) by (unfold capacity in *; lia).
      exists (d + 1)%Z. unfold counter_ok. cbv zeta.
      cbn [Contamination.counts Contamination.rows Contamination.approxUnique].
      rewrite (decrement_all_decremented Hnd). fold capacity.
      pose proof (decremented_length m) as Hdl.
      rewrite (decremented_total Hpos), Hlen.
      split; [now apply decremented_NoDup|].
      split; [apply decremented_positive|].
      split; [lia|]. split; [lia|]. split; [lia|]. split; [lia|].
      split; [nia|]. split; [|split].
      * intros hx. rewrite occurrences_snoc, (decremented_reported hx Hnd Hpos).
        specialize (Hrep hx).
        destruct (str_eqb hx hx0) eqn:E.
        -- apply str_eqb_eq in E. subst hx.
           rewrite (reported_absent Hnotin) in *. lia.
        -- assert (0 <= reported m hx)%Z; [|lia].
           unfold reported.
           destruct (Contamination.map_get hx m) as [c|] eqn:Ec; [|lia].
           pose proof (map_get_Some_In Ec) as Hin.
           rewrite Forall_forall in Hpos. specialize (Hpos _ Hin). simpl in Hpos. lia.
      * intros D Hincl HD. exfalso.
        assert (Hsub : incl (hx0 :: map fst m) D).
        { intros x [<-|Hx].
          - apply Hincl. apply in_or_app. right. now left.
          - apply Hincl. apply in_or_app. left. now apply Hkeys. }
        apply NoDup_incl_length in Hsub; [|now constructor].
        cbn [length] in Hsub. rewrite length_map in Hsub. lia.
      * lia.
    + (* a free counter *)
      apply Z.leb_gt in Efull.
      exists d. unfold counter_ok. cbv zeta.
      cbn [Contamination.counts Contamination.rows Contamination.approxUnique].
      rewrite (map_set_absent 1 Hnotin). fold capacity.
      rewrite map_app, length_app, Hlen. cbn [map fst length].
      assert (Htot : total (m ++ [(hx0, 1%Z)]) = (total m + 1)%Z).
      { unfold total. rewrite map_app, fold_right_app. cbn [map snd fold_right].
        clear. induction (map snd m) as [|x l IH]; cbn [fold_right]; lia. }
      rewrite Htot.
      split.
      { apply NoDup_app; [exact Hnd|repeat constructor; simpl; tauto|].
        intros x Hx [Hx0|[]]. subst x. contradiction. }
      split.
      { apply Forall_app. split; [exact Hpos|repeat constructor; simpl; lia]. }
      split; [unfold capacity; lia|]. split; [lia|]. split; [lia|]. split; [lia|].
      split; [lia|]. split; [|split].
      * intros hx. rewrite occurrences_snoc. specialize (Hrep hx).
        assert (Hre : reported (m ++ [(hx0, 1%Z)]) hx
                      = (reported m hx + if str_eqb hx hx0 then 1 else 0)%Z).
        { rewrite <- (map_set_absent 1 Hnotin). unfold reported.
          rewrite map_get_set.
          destruct (str_eqb hx hx0) eqn:E.
          - apply str_eqb_eq in E. subst hx. rewrite str_eqb_refl, Eget. lia.
          - destruct (str_eqb hx0 hx) eqn:E'.
            + apply str_eqb_eq in E'. subst hx. rewrite str_eqb_refl in E. discriminate.
            + destruct (Contamination.map_get hx m); lia. }
        rewrite Hre. lia.
      * intros D Hincl HD. apply (Hexact D); [|exact HD].
        intros x Hx. apply Hincl. apply in_or_app. now left.
      * intros Hd0. specialize (Hfresh Hd0). lia.
Qed.

(** The hashes of the rows, as the callback computes them. *)
Definition row_hashes (rs : list CsvRow) : list jsstring :=
  map (fun r => Contamination.sha256Hex (Contamination.rowToStableString r)) rs.

Lemma feedRows_counter_ok (K : Q) (rs : list CsvRow) :
  forall (seen : list jsstring) (d : Z) (st : Contamination.HeavyHitters),
    counter_ok K seen d st ->
    exists d',
      counter_ok K (seen ++ row_hashes rs) d'
        (Contamination.feedRows K st rs (Z.of_nat (length seen))).
Proof.
  induction rs as [|row rs IH]; intros seen d st Hok.
  - exists d. cbn [row_hashes map Contamination.feedRows]. now rewrite app_nil_r.
  - cbn [Contamination.feedRows row_hashes map].
    destruct (onRow_counter_ok row Hok) as [d1 Hok1].
    destruct (IH _ _ _ Hok1) as [d2 Hok2].
    exists d2. rewrite length_app in Hok2. cbn [length] in Hok2.
    replace (Z.of_nat (length seen + 1)) with (Z.of_nat (length seen) + 1)%Z in Hok2 by lia.
    rewrite <- app_assoc in Hok2. exact Hok2.
Qed.

Lemma counter_ok_start (K : Q) : counter_ok K [] 0 Contamination.heavy_start.
Proof.
  unfold counter_ok. cbv zeta. cbn.
  repeat split; try constructor; try lia.
Qed.

Lemma scanRows_counter_ok (K : Q) (rs : list CsvRow) :
  exists d, counter_ok K (row_hashes rs) d (fst (Contamination.scanRows K rs)).
Proof.
  unfold Contamination.scanRows. cbn [fst].
  apply (feedRows_counter_ok rs (counter_ok_start K)).
Qed.

Lemma total_nonneg (m : Contamination.Counts) :
  Forall (fun kv => 1 <= snd kv)%Z m -> (0 <= total m)%Z.
Proof.
  induction 1 as [|kv m Hv _ IH]; unfold total in *; cbn [map fold_right]; lia.
Qed.

(** X23. The repeated-row counter of engine 4 keeps at most
    [max(0, ceil(K))] distinct hashes with counts of at least 1. A count
    never exceeds the true number of occurrences of its row, and falls
    short of it by at most [d], the number of passes of the decrement loop,
    where [d * (capacity + 1) <= rows]; a row hash without a counter
    occurs at most [d] times. The estimate of duplicates is
    [rows - approxUnique], which is never negative. *)
Theorem heavy_hitter_counts_are_bounded (K : Q) (rs : list CsvRow) :
  let st := fst (Contamination.scanRows K rs) in
  let m := Contamination.counts st in
  let capacity := Z.max 0 (Qceiling K) in
  NoDup (map fst m) /\
  Forall (fun kv => 1 <= snd kv)%Z m /\
  (Z.of_nat (length m) <= capacity)%Z /\
  Contamination.rows st = Z.of_nat (length rs) /\
  (Z.of_nat (length m) <= Contamination.approxUnique st <= Z.of_nat (length rs))%Z /\
  snd (Contamination.scanRows K rs)
  = (Z.of_nat (length rs) - Contamination.approxUnique st)%Z /\
  exists d : Z,
    (0 <= d)%Z /\ (d * (capacity + 1) <= Z.of_nat (length rs))%Z /\
    forall hx,
      (occurrences hx (row_hashes rs) - d <= reported m hx
       <= occurrences hx (row_hashes rs))%Z.
Proof.
  intros st m capacity.
  destruct (scanRows_counter_ok K rs)
    as (d & Hnd & Hpos & Hcap & Hrows & Happrox & Hd & Htotal & Hrep & _ & _).
  cbv zeta in *. fold st in Hnd, Hpos, Hcap, Hrows, Happrox, Htotal, Hrep.
  fold m in Hnd, Hpos, Hcap, Happrox, Htotal, Hrep. fold capacity in Hcap, Htotal.
  unfold row_hashes in Hrows, Happrox, Htotal. rewrite length_map in *.
  repeat (split; [assumption|]).
  split.
  - unfold Contamination.scanRows. cbn [snd]. fold (fst (Contamination.scanRows K rs)).
    unfold Contamination.scanRows in st. cbn [fst] in st. fold st.
    rewrite Hrows. lia.
  - exists d. pose proof (total_nonneg Hpos). repeat split; try lia; apply Hrep.
Qed.

(** X24. When the rows take no more distinct values than the counter has
    room for, nothing is approximate: every count is the true number of
    occurrences and [approxUnique] is the number of distinct rows. *)
Theorem heavy_hitter_counts_exact_within_capacity (K : Q) (rs : list CsvRow)
    (D : list jsstring) :
  incl (row_hashes rs) D ->
  (Z.of_nat (length D) <= Z.max 0 (Qceiling K))%Z ->
  let st := fst (Contamination.scanRows K rs) in
  let m := Contamination.counts st in
  NoDup (map fst m) /\
  (forall hx, reported m hx = occurrences hx (row_hashes rs)) /\
  (forall hx, In hx (map fst m) <-> In hx (row_hashes rs)) /\
  Contamination.approxUnique st = Z.of_nat (length m).
Proof.
  intros Hincl HD st m.
  destruct (scanRows_counter_ok K rs)
    as (d & Hnd & Hpos & _ & _ & _ & _ & _ & Hrep & Hexact & Hfresh).
  cbv zeta in *. fold st in Hnd, Hpos, Hrep, Hfresh. fold m in Hnd, Hpos, Hrep, Hfresh.
  assert (Hd : d = 0%Z) by (apply (Hexact D); assumption).
  subst d.
  assert (Hcount : forall hx, reported m hx = occurrences hx (row_hashes rs)).
  { intros hx. specialize (Hrep hx). lia. }
  split; [exact Hnd|]. split; [exact Hcount|]. split; [|now apply Hfresh].
  intros hx. split.
  - intros Hin. apply occurrences_In. rewrite <- Hcount. unfold reported.
    destruct (Contamination.map_get hx m) as [c|] eqn:E.
    + pose proof (map_get_Some_In E) as Hc.
      rewrite Forall_forall in Hpos. apply (Hpos _ Hc).
    + apply map_get_None in E. contradiction.
  - intros Hin. destruct (Contamination.map_get hx m) as [c|] eqn:E.
    + apply map_get_Some_In in E. apply in_map_iff. exists (hx, c). auto.
    + exfalso. specialize (Hcount hx). unfold reported in Hcount. rewrite E in Hcount.
      unfold occurrences in Hcount.
      assert (Hf : In hx (filter (str_eqb hx) (row_hashes rs)))
        by (apply filter_In; split; [exact Hin|apply str_eqb_refl]).
      destruct (filter (str_eqb hx) (row_hashes rs)); [contradiction|simpl in Hcount; lia].
Qed.

End EngineProperties.

(** ** The replay verdict and the trust score *)

(** [other.dataset[field]] *)
Definition right_value (other_d : JSON) (field : jsstring) : option JSON :=
  match other_d with JObj members => lookup field members | _ => None end.

Definition all_fields_equal (d : Repro.Dataset) (other_d : JSON) : bool :=
  forallb (fun f => Repro.strict_equal (Repro.left_value d f) (right_value other_d f))
          Repro.compared_fields.

Section ReplayProperties.
Context {rt : Runtime}.

Lemma cmp_outcome (d : Repro.Dataset) (other_d : JSON) (fields : list jsstring) :
  forallb fst (map (Repro.cmp d other_d) fields)
  = forallb (fun f => Repro.strict_equal (Repro.left_value d f) (right_value other_d f))
            fields.
Proof.
  induction fields as [|f fields IH]; [reflexivity|].
  cbn [map forallb]. rewrite IH. f_equal.
  unfold Repro.cmp, right_value.
  destruct (Repro.strict_equal _ _); reflexivity.
Qed.

(** X25. The verdict that engine 3 writes and the way engine 7 reads it
    agree. When the six compared fields are strictly equal the verdict is
    MATCH, no [delta] is written and the reproducibility component is 100;
    otherwise the verdict is MISMATCH, a [delta] is written, the
    component is 40, the severity CRITICAL and the trust verdict FAIL. A
    manifest to compare against that has no [dataset] is a [TypeError]. *)
Theorem replay_verdict_drives_trust
    (created_at run_id against_run_id : jsstring) (d : Repro.Dataset)
    (other e5 e8 : JSON) (weighted_at_least_85 : bool) :
  match Repro.other_dataset other with
  | Throw e =>
      e = TypeError /\
      Repro.replayVerdict created_at run_id against_run_id d other = Throw TypeError
  | Ok other_d =>
      exists v,
        Repro.replayVerdict created_at run_id against_run_id d other = Ok v /\
        let t := Trust.runEngine7Trust (Some v) e5 e8 weighted_at_least_85 in
        if all_fields_equal d other_d then
          Trust.chain (Some v) (lit "verdict") = Some (JStr (lit "MATCH")) /\
          Trust.chain (Some v) (lit "delta") = None /\
          Trust.reproducibility t = 100%Z
        else
          Trust.chain (Some v) (lit "verdict") = Some (JStr (lit "MISMATCH")) /\
          Trust.chain (Some v) (lit "delta") <> None /\
          Trust.reproducibility t = 40%Z /\
          Trust.severity t = Trust.CRITICAL /\
          Trust.verdict t = Trust.FAIL
  end.
Proof.
  unfold Repro.replayVerdict.
  destruct (Repro.other_dataset other) as [other_d|e] eqn:Hother.
  - cbn [bind]. eexists. split; [reflexivity|].
    unfold all_fields_equal. rewrite <- cmp_outcome.
    destruct (forallb fst (map (Repro.cmp d other_d) Repro.compared_fields)).
    + repeat split; reflexivity.
    + split; [reflexivity|]. split; [discriminate|].
      repeat split; reflexivity.
  - assert (He : e = TypeError).
    { unfold Repro.other_dataset in Hother.
      destruct (get other (lit "dataset")) as [v|e'] eqn:Hget.
      - cbn [bind] in Hother. destruct v as [[]|]; congruence.
      - cbn [bind] in Hother. destruct other; simpl in Hget; congruence. }
    subst e. split; reflexivity.
Qed.

End ReplayProperties.

(** ** The evidence bundle *)

Section BundleProperties.
Context {rt : Runtime}.

Lemma bundle_members (created_at run_id : jsstring) (i : EvidenceBundle.Inputs) :
  EvidenceBundle.runEngine9Bundle created_at run_id i
  = JObj (EvidenceBundle.bundleCore created_at run_id i
          ++ [(lit "bundle_hash",
               JStr (hashJSON (JObj (EvidenceBundle.bundleCore created_at run_id i))))]).
Proof. reflexivity. Qed.

(** X26. The evidence bundle of engine 9 is its core followed by
    [bundle_hash], the hash of the canonical JSON of the core, so the hash
    can be recomputed from the bundle with that one key removed. The core
    carries the verdict and the score of the trust report that engine 7
    wrote. *)
Theorem evidence_bundle_carries_trust_verdict
    (created_at run_id : jsstring) (i : EvidenceBundle.Inputs) :
  exists core,
    EvidenceBundle.runEngine9Bundle created_at run_id i
    = JObj (core ++ [(lit "bundle_hash", JStr (hashJSON (JObj core)))]) /\
    lookup (lit "bundle_hash") core = None /\
    filter (fun kv => negb (str_eqb (fst kv) (lit "bundle_hash")))
           (core ++ [(lit "bundle_hash", JStr (hashJSON (JObj core)))]) = core /\
    forall (created_at' run_id' reasoning : jsstring) (score contamination : JSNumber)
           (t : Trust.TrustResult),
      EvidenceBundle.e7 i
      = TrustReport.trustResult created_at' run_id' reasoning score contamination t ->
      lookup (lit "verdict") core
      = Some (JStr (TrustReport.verdict_string (Trust.verdict t))) /\
      lookup (lit "trust_score") core = Some (JNum score).
Proof.
  exists (EvidenceBundle.bundleCore created_at run_id i).
  split; [apply bundle_members|]. split; [reflexivity|]. split; [reflexivity|].
  intros created_at' run_id' reasoning score contamination t He7.
  unfold EvidenceBundle.bundleCore. rewrite He7.
  split.
  - unfold TrustReport.trustResult. destruct (Trust.verdict t); reflexivity.
  - reflexivity.
Qed.

(** X27. In a pipeline run the trust report is computed from the bundle
    of engine 8, and the evidence bundle from that trust report: whatever
    the data set and the other reports are, the verdict in the evidence
    bundle is FAIL. *)
Theorem pipeline_verdict_is_FAIL
    (created_at8 run_id rootHex : jsstring) (leafHex : list jsstring)
    (sampleCount : Q) (draws : list Z) (e8doc : JSON)
    (e3v : option JSON) (e5doc : JSON) (weighted_at_least_85 : bool)
    (created_at7 reasoning : jsstring) (score contamination : JSNumber)
    (created_at9 : jsstring) (i : EvidenceBundle.Inputs) :
  Forall (fun d => 0 <= d < Z.of_nat (length leafHex))%Z draws ->
  ProofSampler.runEngine8ProofSampler created_at8 run_id leafHex rootHex
    sampleCount draws = Some (Ok e8doc) ->
  EvidenceBundle.e7 i
  = TrustReport.trustResult created_at7 run_id reasoning score contamination
      (Trust.runEngine7Trust e3v e5doc e8doc weighted_at_least_85) ->
  Trust.chain (Some (EvidenceBundle.runEngine9Bundle created_at9 run_id i)) (lit "verdict")
  = Some (JStr (lit "FAIL")).
Proof.
  intros Hdraws Hrun He7.
  destruct (runEngine8ProofSampler_result Hdraws Hrun) as [proofs Hr].
  injection Hr as ->.
  destruct (runEngine7Trust_proofBundle created_at8 run_id rootHex proofs e3v e5doc
              weighted_at_least_85) as (_ & _ & Hverdict).
  cbv zeta in Hverdict.
  rewrite bundle_members. unfold EvidenceBundle.bundleCore. rewrite He7.
  unfold TrustReport.trustResult. rewrite Hverdict. reflexivity.
Qed.

End BundleProperties.

(** * The properties on concrete inputs *)

#[local] Existing Instance Demo.runtime.

Lemma C1_witness :
  Demo.three_leaves <> [] /\
  (0 <= 2 < Z.of_nat (length Demo.three_leaves))%Z /\
  exists proof,
    merkleProof Demo.three_leaves 2 = Ok proof /\
    index proof = 2%Z /\
    verifyProof (root_hex (merkleRootFromLeafHex Demo.three_leaves)) proof = true.
Proof.
  assert (Hne : Demo.three_leaves <> []) by discriminate.
  assert (Hi : (0 <= 2 < Z.of_nat (length Demo.three_leaves))%Z) by (simpl; lia).
  split; [exact Hne|]. split; [exact Hi|].
  exact (C1_proof_verifies_against_root Hne Hi).
Defined.

Lemma C3_witness :
  is_file Demo.five_bytes = true /\
  stream_error Demo.five_bytes = None /\
  (0 < 2)%Z /\
  (length (concat (data_events Demo.five_bytes)) < 10)%nat /\
  exists r,
    streamDigestsAndLeaves 10 Demo.five_bytes (inject_Z 2) = Some (Ok r) /\
    length (leaf_hexes r) = 3%nat.
Proof.
  assert (H1 : is_file Demo.five_bytes = true) by reflexivity.
  assert (H2 : stream_error Demo.five_bytes = None) by reflexivity.
  assert (H3 : (0 < 2)%Z) by lia.
  assert (H4 : (length (concat (data_events Demo.five_bytes)) < 10)%nat)
    by (simpl; lia).
  repeat (split; [assumption|]).
  destruct (C3_fingerprint_leaves (file := Demo.five_bytes) H1 H2 H3 H4)
    as (r & Hrun & Hcount & _).
  exists r. split; [exact Hrun|].
  change ((Z.of_nat (length (concat (data_events Demo.five_bytes))) + 2 - 1) / 2)%Z
    with 3%Z in Hcount.
  lia.
Defined.

Lemma C5_witness :
  last_entry_hash (Some Demo.one_line_log) (lit "cd") /\
  let '(content, r) :=
    appendTransparencyLog (Some Demo.one_line_log) (lit "ef") (Some (lit "T2")) [] in
  prev_hash r = lit "cd" /\
  content = Demo.one_line_log ++ log_line (lit "T2") (lit "ef") (lit "cd") (entry_hash r).
Proof.
  assert (Hlast : last_entry_hash (Some Demo.one_line_log) (lit "cd")).
  { apply (last_line (pre := [])); [left|..]; reflexivity. }
  split; [exact Hlast|].
  pose proof (C5_append_chains_entry (lit "ef") (Some (lit "T2")) [] Hlast) as H.
  destruct (appendTransparencyLog _ _ _ _) as [content r].
  destruct H as (Hprev & _ & Hcontent & _).
  split; [exact Hprev|]. rewrite Hcontent. reflexivity.
Defined.

Lemma demo_attest_run :
  attest_core (Demo.world (Throw TypeError)) (lit "data.bin") (lit "out")
    (Some (lit "keys")) 5 Demo.core
  = Ok (Completed (AttestOutput (lit "out/attestation.json") Demo.attestation)).
Proof. vm_compute. reflexivity. Qed.

Lemma demo_core_run :
  streamDigestsAndLeaves 10 Demo.five_bytes (inject_Z 2) = Some (Ok Demo.core).
Proof. vm_compute. reflexivity. Qed.

Lemma demo_attest_main :
  main 10 (Demo.world (Throw TypeError))
    [lit "attest"; lit "data.bin"; lit "--chunk"; lit "2"]
  = Some (Completed (AttestOutput (lit "out/attestation.json") Demo.attestation)).
Proof. vm_compute. reflexivity. Qed.

Lemma C6_witness :
  main 10 (Demo.world (Throw TypeError))
    [lit "attest"; lit "data.bin"; lit "--chunk"; lit "2"]
  = Some (Completed (AttestOutput (lit "out/attestation.json") Demo.attestation)) /\
  sampleIndices (length (leaf_hexes Demo.core)) = [0; 1; 2]%Z /\
  streamDigestsAndLeaves 10 Demo.five_bytes (inject_Z 2) = Some (Ok Demo.core) /\
  attest_core (Demo.world (Throw TypeError)) (lit "data.bin") (lit "out")
    (Some (lit "keys")) 5 Demo.core
  = Ok (Completed (AttestOutput (lit "out/attestation.json") Demo.attestation)) /\
  map sp_index (sampled (proofs Demo.attestation)) = [0; 1; 2]%Z /\
  Forall (fun p => verifies p = true) (sampled (proofs Demo.attestation)).
Proof.
  split; [exact demo_attest_main|].
  split; [reflexivity|]. split; [exact demo_core_run|]. split; [exact demo_attest_run|].
  destruct (C6_deterministic_sampling Demo.core)
    as (_ & _ & _ & (ps & _ & Hidx & _ & Hflags & Hattest) & Hroot & _).
  destruct (Hattest _ _ _ _ _ _ _ demo_attest_run) as [E _].
  rewrite E. split; [exact Hidx|].
  exact (Hflags (proj1 (Hroot _ _ _ demo_core_run))).
Defined.









(** An object whose member [x] is an object that contains itself, and
    an object that contains itself next to an [undefined] member. *)
Definition nested_heap : Heap :=
  [HRecord [(lit "x", HRef 1)]; HRecord [(lit "self", HRef 1)]].

Definition undefined_heap : Heap :=
  [HRecord [(lit "self", HRef 0); (lit "a", HUndefined)]].

Lemma nested_heap_closed : closed_heap nested_heap.
Proof. repeat constructor. Qed.

Lemma nested_heap_reaches : reaches nested_heap 0 1.
Proof.
  apply reaches_step with (b := 1%nat); [|constructor].
  exists (lit "x"). reflexivity.
Qed.

Lemma nested_heap_cycle : on_cycle nested_heap 1.
Proof.
  exists 1%nat. split; [|constructor].
  exists (lit "self"). reflexivity.
Qed.

Lemma C8_witness :
  reaches nested_heap 0 1 /\
  on_cycle nested_heap 1 /\
  Number_isFinite NaN = false /\
  closed_heap nested_heap /\
  stableStringifyH 1000 nested_heap (HRef 0) = Throw RangeError /\
  stableStringify (JNum NaN) = lit "null".
Proof.
  split; [exact nested_heap_reaches|]. split; [exact nested_heap_cycle|].
  split; [reflexivity|]. split; [exact nested_heap_closed|].
  destruct (@C8_cycle_exhausts_stack_nonfinite_is_null _ nested_heap 1000 0 1 NaN
              nested_heap_reaches nested_heap_cycle eq_refl) as (_ & Hcycle & _ & Hnan).
  split; [exact (Hcycle nested_heap_closed)|exact Hnan].
Defined.

(** C8 as stated fails: non-finite numbers are serialized, as [null], and
    the failure on a structure that contains itself is the exhausted call
    stack, at any stack size, or, behind an [undefined] member, the
    TypeError of [Object.keys]. *)
Lemma C8_counterexample :
  stableStringify (JNum NaN) = lit "null" /\
  stableStringify (JArr [JNum PosInfinity; JNum NegInfinity]) = lit "[null,null]" /\
  stableStringifyH 8 [] (HNum NaN) = Ok (lit "null") /\
  stableStringifyH 8 Demo.self_heap (HRef 0) = Throw RangeError /\
  stableStringifyH 8 undefined_heap (HRef 0) = Throw TypeError.
Proof. repeat split. Qed.

Lemma demo_same_map : same_map Demo.ab_object Demo.ba_object.
Proof.
  constructor.
  - repeat constructor; simpl; intuition discriminate.
  - repeat constructor; simpl; intuition discriminate.
  - intros k. cbn [lookup].
    destruct (str_eqb (lit "a") k) eqn:Ea, (str_eqb (lit "b") k) eqn:Eb;
      repeat constructor.
    apply str_eqb_eq in Ea, Eb. subst k. discriminate.
Qed.

Lemma C10_witness :
  same_map Demo.ab_object Demo.ba_object /\
  stableStringify Demo.ab_object = stableStringify Demo.ba_object /\
  hashJSON Demo.ab_object = hashJSON Demo.ba_object.
Proof.
  split; [exact demo_same_map|].
  destruct (C10_key_order_independent demo_same_map) as (Hs & Hh & _).
  split; [exact Hs|exact Hh].
Defined.

(** C9 on the code: a chunk value that is positive but not an integer is
    not refused. With [--chunk 2.5] the [hash] command fingerprints the
    five-byte file into three leaves; with [--chunk 0.5] it enters the
    chunking loop and never leaves it. *)
Theorem C9_fractional_chunk_is_accepted :
  invalid_chunk (NumberOfFlag (Some (lit "2.5"))) = false /\
  invalid_chunk (NumberOfFlag (Some (lit "0.5"))) = false /\
  (exists r,
     main 10 (Demo.world (Throw TypeError)) (Demo.hash_args (lit "2.5"))
       = Some (Completed (HashOutput (lit "data.bin") r)) /\
     length (leaf_hexes r) = 3%nat) /\
  (forall fuel,
     main fuel (Demo.world (Throw TypeError)) (Demo.hash_args (lit "0.5")) = None).
Proof.
  split; [reflexivity|]. split; [reflexivity|]. split.
  - eexists. split; vm_compute; reflexivity.
  - intros fuel.
    rewrite (@main_hash _ fuel (Demo.world (Throw TypeError))
               (Demo.hash_args (lit "0.5")) (lit "data.bin") (5 # 10));
      try reflexivity; try discriminate.
    change (files (Demo.world (Throw TypeError)) (lit "data.bin"))
      with (Some Demo.five_bytes).
    unfold streamDigestsAndLeaves.
    change (is_file Demo.five_bytes) with true. cbn [negb].
    change (data_events Demo.five_bytes) with [[x61; x62; x63]; [x64; x65]].
    cbn [runStream]. unfold onData.
    rewrite drain_stuck; reflexivity.
Qed.

(** * The further properties on concrete inputs *)

(** A runtime whose digests have fixed lengths, two bytes for BLAKE2b and
    one for SHA-256, and so collide. *)
Module DemoFixed.

Definition runtime : Runtime := {|
  blake2b512 := fun _ => [x00; x00];
  sha512 := fun b => x02 :: b;
  sha256 := fun _ => [x00];
  crypto_sign := fun message _ => Ok (x04 :: message);
  crypto_verify := fun _ _ _ => Ok true;
  base64_encode := toHex;
  base64_decode := fromHex;
  Number_toString := Demo.number_toString;
  StringToNumber := Demo.stringToNumber
|}.

Definition two_leaves : list jsstring := [lit "0a"; lit "0b"].

(** What the sampler records for both leaves against the SHA-256 root. *)
Definition sampled_proofs : list SampledProof :=
  Eval vm_compute in
    match ProofSampler.sampled (rt := runtime) two_leaves
            (buildMerkleRoot (rt := runtime) two_leaves) [0; 1]%Z with
    | Ok ps => ps
    | Throw _ => []
    end.

End DemoFixed.

Module Demo2.

Definition proof_1 : MerkleProof :=
  Eval vm_compute in
    match merkleProof (rt := Demo.runtime) Demo.three_leaves 1 with
    | Ok p => p
    | Throw _ => {| index := 0; leaf_hex := []; siblings_hex := [] |}
    end.

(** The five bytes of [Demo.five_bytes] in a single read. *)
Definition five_bytes_one_read : InputFile :=
  {| is_file := true; file_size := 5;
     data_events := [[x61; x62; x63; x64; x65]];
     stream_error := None |}.

Definition manifest_digest : jsstring :=
  Eval vm_compute in
    sha512Hex (rt := Demo.runtime)
      (JSON_stringify (rt := Demo.runtime) (manifest Demo.attestation)).

(** What [verifyBundle] returns for the attestation of [Demo.five_bytes]. *)
Definition attestation_verify_result : VerifyResult :=
  Eval vm_compute in
    match verifyBundle (rt := Demo.runtime) 10
            (Ok (attestation_json Demo.attestation)) Demo.five_bytes with
    | Some (Ok res) => res
    | _ => Demo.verify_result
    end.

Definition log_entries : list (jsstring * jsstring) :=
  [(lit "ab", lit "T1"); (lit "cd", lit "T2")].

Definition row_ab : CsvRow := ObjectRow [(lit "a", Some (lit "1")); (lit "b", Some (lit "2"))].
Definition row_ba : CsvRow := ObjectRow [(lit "b", Some (lit "2")); (lit "a", Some (lit "1"))].

Definition cells (s : jsstring) : CsvRow := ArrayRow [Some s].

Definition xyx_rows : list CsvRow := [cells (lit "x"); cells (lit "y"); cells (lit "x")].

Definition xy_hashes : list jsstring :=
  Eval vm_compute in
    map (fun r => Contamination.sha256Hex (rt := Demo.runtime)
                    (Contamination.rowToStableString r))
        [cells (lit "x"); cells (lit "y")].

(** The bundle of engine 8 for three leaves and the draws 0, 1, 2. *)
Definition sampler_bundle : JSON :=
  Eval vm_compute in
    match ProofSampler.runEngine8ProofSampler (rt := Demo.runtime)
            (lit "2025-01-01T00:00:00.000Z") (lit "run_1") Demo.three_leaves
            (lit "00") 8 [0; 1; 2]%Z with
    | Some (Ok b) => b
    | _ => JNull
    end.

(** The trust report on that bundle, and the inputs of engine 9. *)
Definition trust_report : JSON :=
  TrustReport.trustResult (lit "2025-01-01T00:00:01.000Z") (lit "run_1") (lit "r")
    (Finite 50) (Finite 100)
    (Trust.runEngine7Trust (rt := Demo.runtime) None JNull sampler_bundle true).

Definition bundle_inputs : EvidenceBundle.Inputs :=
  {| EvidenceBundle.e2_name := lit "e2.chunk_index.json"; EvidenceBundle.e2 := JNull;
     EvidenceBundle.e3_manifest_name := lit "e3.run_manifest.json";
     EvidenceBundle.e3m := JNull;
     EvidenceBundle.e3_verdict_file := None;
     EvidenceBundle.e4_name := lit "e4.contamination.json"; EvidenceBundle.e4 := JNull;
     EvidenceBundle.e5_name := lit "e5.policy.json"; EvidenceBundle.e5 := JNull;
     EvidenceBundle.e6_file := None;
     EvidenceBundle.e7_name := lit "e7.trust_score.json";
     EvidenceBundle.e7 := trust_report;
     EvidenceBundle.e8_name := lit "e8.proofs.json";
     EvidenceBundle.e8 := sampler_bundle;
     EvidenceBundle.receipts := [] |}.

End Demo2.

Lemma demo_proof_1 : merkleProof Demo.three_leaves 1 = Ok Demo2.proof_1.
Proof. vm_compute. reflexivity. Qed.

Lemma X2_witness :
  merkleProof Demo.three_leaves 1 = Ok Demo2.proof_1 /\
  length (siblings_hex Demo2.proof_1) = 2%nat.
Proof.
  split; [exact demo_proof_1|].
  exact (proof_size_logarithmic demo_proof_1).
Defined.

Lemma X3_witness :
  DemoFixed.two_leaves <> [] /\
  Nat.even (length DemoFixed.two_leaves) = true /\
  root_hex (merkleRootFromLeafHex (DemoFixed.two_leaves ++ [lit "0c"; lit "0c"]))
  = root_hex (merkleRootFromLeafHex (DemoFixed.two_leaves ++ [lit "0c"])).
Proof.
  assert (Hne : DemoFixed.two_leaves <> []) by discriminate.
  assert (Heven : Nat.even (length DemoFixed.two_leaves) = true) by reflexivity.
  split; [exact Hne|]. split; [exact Heven|].
  exact (proj1 (@duplicated_last_leaf_same_root _ DemoFixed.two_leaves (lit "0c") Hne Heven)).
Defined.

Lemma X4_witness :
  verifyProof (rt := DemoFixed.runtime) (lit "0000")
    {| index := 0; leaf_hex := lit "0a"; siblings_hex := [] ++ lit "0b" :: [] |} = true /\
  verifyProof (rt := DemoFixed.runtime) (lit "0000")
    {| index := 0; leaf_hex := lit "0a"; siblings_hex := [] ++ lit "0c" :: [] |} = true /\
  fromHex (lit "0b") <> fromHex (lit "0c") /\
  exists x y, x <> y /\ @blake2b512 DemoFixed.runtime x = @blake2b512 DemoFixed.runtime y.
Proof.
  assert (H1 : verifyProof (rt := DemoFixed.runtime) (lit "0000")
                 {| index := 0; leaf_hex := lit "0a";
                    siblings_hex := [] ++ lit "0b" :: [] |} = true) by reflexivity.
  assert (H2 : verifyProof (rt := DemoFixed.runtime) (lit "0000")
                 {| index := 0; leaf_hex := lit "0a";
                    siblings_hex := [] ++ lit "0c" :: [] |} = true) by reflexivity.
  assert (H3 : fromHex (lit "0b") <> fromHex (lit "0c")) by (simpl; discriminate).
  split; [exact H1|]. split; [exact H2|]. split; [exact H3|].
  exact (@tampered_sibling_needs_collision DemoFixed.runtime _ _ _ _ _ _ _ H1 H2 H3).
Defined.

Lemma X5_witness :
  is_file Demo.five_bytes = true /\ stream_error Demo.five_bytes = None /\
  is_file Demo2.five_bytes_one_read = true /\
  stream_error Demo2.five_bytes_one_read = None /\
  concat (data_events Demo2.five_bytes_one_read) = concat (data_events Demo.five_bytes) /\
  (0 < 2)%Z /\
  (length (concat (data_events Demo.five_bytes)) < 10)%nat /\
  exists r,
    streamDigestsAndLeaves 10 Demo.five_bytes (inject_Z 2) = Some (Ok r) /\
    streamDigestsAndLeaves 10 Demo2.five_bytes_one_read (inject_Z 2) = Some (Ok r).
Proof.
  assert (H1 : is_file Demo.five_bytes = true) by reflexivity.
  assert (H2 : stream_error Demo.five_bytes = None) by reflexivity.
  assert (H3 : is_file Demo2.five_bytes_one_read = true) by reflexivity.
  assert (H4 : stream_error Demo2.five_bytes_one_read = None) by reflexivity.
  assert (H5 : concat (data_events Demo2.five_bytes_one_read)
               = concat (data_events Demo.five_bytes)) by reflexivity.
  assert (H6 : (0 < 2)%Z) by lia.
  assert (H7 : (length (concat (data_events Demo.five_bytes)) < 10)%nat) by (simpl; lia).
  repeat (split; [assumption|]).
  destruct (@fingerprint_ignores_read_boundaries _ 10 Demo.five_bytes
              Demo2.five_bytes_one_read 2 H1 H2 H3 H4 H5 H6 H7)
    as (r & Hr1 & Hr2 & _).
  exists r. split; assumption.
Defined.

Lemma demo_signature_law :
  forall dir kp message s,
    loadOrCreateEd25519Keypair (Demo.world (Throw TypeError)) dir = Ok kp ->
    crypto_sign message (privateKeyPem kp) = Ok s ->
    crypto_verify message (publicKeyPem kp) (base64_decode (base64_encode s)) = Ok true.
Proof.
  intros dir kp message s _ Hsign. simpl in *.
  injection Hsign as <-. rewrite fromHex_toHex.
  destruct (list_eq_dec _ _ _); congruence.
Qed.

Lemma X6_witness :
  is_file Demo.five_bytes = true /\
  stream_error Demo.five_bytes = None /\
  streamDigestsAndLeaves 10 Demo.five_bytes (inject_Z 2) = Some (Ok Demo.core) /\
  attest_core (Demo.world (Throw TypeError)) (lit "data.bin") (lit "out")
    (Some (lit "keys")) (file_size Demo.five_bytes) Demo.core
  = Ok (Completed (AttestOutput (lit "out/attestation.json") Demo.attestation)) /\
  exists res,
    verifyBundle 10 (Ok (attestation_json Demo.attestation)) Demo.five_bytes
    = Some (Ok res) /\
    ok res = true.
Proof.
  assert (H1 : is_file Demo.five_bytes = true) by reflexivity.
  assert (H2 : stream_error Demo.five_bytes = None) by reflexivity.
  assert (H3 : (0 < 2)%Z) by lia.
  assert (H4 : (length (concat (data_events Demo.five_bytes)) < 10)%nat) by (simpl; lia).
  split; [exact H1|]. split; [exact H2|]. split; [exact demo_core_run|].
  split; [exact demo_attest_run|].
  destruct (@attest_then_verify_ok _ 10 (Demo.world (Throw TypeError)) Demo.five_bytes 2
              (lit "data.bin") (lit "out") (lit "out/attestation.json")
              (Some (lit "keys")) Demo.core Demo.attestation
              H1 H2 H3 H4 demo_signature_law demo_core_run demo_attest_run)
    as (res & Hres & Hok & _).
  exists res. split; assumption.
Defined.

Lemma demo_attestation_verify :
  verifyBundle 10 (Ok (attestation_json Demo.attestation)) Demo.five_bytes
  = Some (Ok Demo2.attestation_verify_result).
Proof. vm_compute. reflexivity. Qed.

Lemma X7_witness :
  claims Demo.attestation = signedPayload_of Demo2.manifest_digest Demo.core /\
  ok Demo2.attestation_verify_result = true /\
  blake2b512 (concat (data_events Demo.five_bytes))
  = blake2b512 [x61; x62; x63; x64; x65].
Proof.
  assert (H1 : claims Demo.attestation = signedPayload_of Demo2.manifest_digest Demo.core)
    by (vm_compute; reflexivity).
  assert (H2 : blake2b_512 (file_digests Demo.core)
               = toHex (blake2b512 [x61; x62; x63; x64; x65])) by (vm_compute; reflexivity).
  assert (H3 : sha512_hex (file_digests Demo.core)
               = toHex (sha512 [x61; x62; x63; x64; x65])) by (vm_compute; reflexivity).
  assert (H4 : ok Demo2.attestation_verify_result = true) by reflexivity.
  split; [exact H1|]. split; [exact H4|].
  exact (proj1 (@verified_file_has_claimed_digests _ 10 Demo.attestation
                  Demo2.manifest_digest Demo.core [x61; x62; x63; x64; x65]
                  Demo.five_bytes Demo2.attestation_verify_result
                  H1 H2 H3 demo_attestation_verify H4)).
Defined.

Lemma demo_verify_exit :
  main 10 (Demo.world (Ok Demo.bundle)) Demo.verify_args = Some (Exit 0).
Proof. vm_compute. reflexivity. Qed.

Lemma demo_hash_run :
  main 10 (Demo.world (Throw TypeError)) (Demo.hash_args (lit "2"))
  = Some (Completed (HashOutput (lit "data.bin") Demo.core)).
Proof. vm_compute. reflexivity. Qed.

Lemma X8_witness :
  main 10 (Demo.world (Throw TypeError)) (Demo.hash_args (lit "2"))
  = Some (Completed (HashOutput (lit "data.bin") Demo.core)) /\
  exit_status (Completed (HashOutput (lit "data.bin") Demo.core)) = 0%Z /\
  main 10 (Demo.world (Ok Demo.bundle)) Demo.verify_args = Some (Exit 0) /\
  nth_error Demo.verify_args 0 = Some (lit "verify").
Proof.
  split; [exact demo_hash_run|].
  split; [reflexivity|].
  split; [exact demo_verify_exit|].
  destruct (main_exit_codes demo_verify_exit) as (_ & _ & Hzero).
  destruct (Hzero eq_refl) as [[Hverify _]|[[Hhash _]|[Hattest _]]];
    [exact Hverify|discriminate Hhash|discriminate Hattest].
Defined.

Lemma X9_witness :
  (forall cmd, nth_error [lit "frobnicate"] 0 = Some cmd ->
     cmd <> lit "verify" /\ cmd <> lit "hash" /\ cmd <> lit "attest") /\
  main 10 (Demo.world (Throw TypeError)) [lit "frobnicate"] = Some (Exit 1).
Proof.
  assert (H : forall cmd, nth_error [lit "frobnicate"] 0 = Some cmd ->
                cmd <> lit "verify" /\ cmd <> lit "hash" /\ cmd <> lit "attest").
  { intros cmd Hcmd. injection Hcmd as <-. repeat split; discriminate. }
  split; [exact H|].
  exact (@unknown_command_exits_1 _ 10 (Demo.world (Throw TypeError)) _ H).
Defined.

Lemma X10_witness :
  nth_error [lit "hash"; lit "missing.bin"] 0 = Some (lit "hash") /\
  files (Demo.world (Throw TypeError)) (lit "missing.bin") = None /\
  main 10 (Demo.world (Throw TypeError)) [lit "hash"; lit "missing.bin"] = Some (Exit 2).
Proof.
  assert (H1 : nth_error [lit "hash"; lit "missing.bin"] 0 = Some (lit "hash"))
    by reflexivity.
  assert (H2 : nth_error [lit "hash"; lit "missing.bin"] 1 = Some (lit "missing.bin"))
    by reflexivity.
  assert (H3 : lit "missing.bin" <> []) by discriminate.
  assert (H4 : NumberOfFlag (getFlag [lit "hash"; lit "missing.bin"] (lit "--chunk")
                               (Some (lit "4194304")))
               = Finite (inject_Z 4194304)) by (vm_compute; reflexivity).
  assert (H5 : (0 < inject_Z 4194304)%Q) by reflexivity.
  assert (H6 : match files (Demo.world (Throw TypeError)) (lit "missing.bin") with
               | None => True
               | Some file => is_file file = false
               end) by exact I.
  split; [exact H1|]. split; [reflexivity|].
  exact (@hash_on_non_file_exits_2 _ 10 (Demo.world (Throw TypeError)) _ _ _
           H1 H2 H3 H4 H5 H6).
Defined.

Lemma X11_witness :
  nth_error Demo.verify_args 0 = Some (lit "verify") /\
  bundles (Demo.world (Ok JNull)) (lit "attestation.json") = Ok JNull /\
  main 10 (Demo.world (Ok JNull)) Demo.verify_args = Some (Exit 2).
Proof.
  assert (H1 : nth_error Demo.verify_args 0 = Some (lit "verify")) by reflexivity.
  assert (H2 : getFlag Demo.verify_args (lit "--bundle") None
               = Some (lit "attestation.json")) by reflexivity.
  assert (H3 : getFlag Demo.verify_args (lit "--file") None
               = Some (lit "data.bin")) by reflexivity.
  assert (H4 : lit "attestation.json" <> []) by discriminate.
  assert (H5 : lit "data.bin" <> []) by discriminate.
  assert (H6 : match bundles (Demo.world (Ok JNull)) (lit "attestation.json") with
               | Throw _ | Ok JNull => True
               | Ok (JObj members) => lookup (lit "claims") members = None
               | Ok _ => True
               end) by exact I.
  split; [exact H1|]. split; [reflexivity|].
  exact (proj2 (@malformed_bundle_is_an_error _ 10 (Demo.world (Ok JNull)) _ _ _
                  H1 H2 H3 H4 H5 H6)).
Defined.

Lemma demo_keys_in_order : keys_in_order Demo.ab_object.
Proof.
  constructor.
  - repeat constructor.
  - repeat constructor; simpl; intuition discriminate.
  - repeat constructor.
Qed.

Lemma X12_witness :
  keys_in_order Demo.ab_object /\
  stableStringify Demo.ab_object = JSON_stringify Demo.ab_object.
Proof.
  split; [exact demo_keys_in_order|].
  exact (stableStringify_sorted_is_JSON_stringify demo_keys_in_order).
Defined.

Lemma X13_witness :
  NoDup (Object_keys [(lit "engine", JStr (lit "e0"))]) /\
  createReceipt [(lit "engine", JStr (lit "e0"))]
  = [(lit "receipt_version", JStr (lit "1")); (lit "engine", JStr (lit "e0"));
     (lit "receipt_hash",
      JStr (hashJSON (JObj [(lit "receipt_version", JStr (lit "1"));
                            (lit "engine", JStr (lit "e0"))])))].
Proof.
  assert (H1 : NoDup (Object_keys [(lit "engine", JStr (lit "e0"))]))
    by (repeat constructor; simpl; tauto).
  assert (H2 : lookup (lit "receipt_version") [(lit "engine", JStr (lit "e0"))] = None)
    by reflexivity.
  assert (H3 : lookup (lit "receipt_hash") [(lit "engine", JStr (lit "e0"))] = None)
    by reflexivity.
  split; [exact H1|].
  destruct (@createReceipt_shape _ _ H1 H2 H3) as [Hshape Hwithout].
  rewrite Hshape at 1. rewrite Hwithout. reflexivity.
Defined.

Lemma X14_witness :
  (forall b, sha256 b <> []) /\
  Demo2.log_entries <> [] /\
  appendAll None Demo2.log_entries = Some (chain_lines GENESIS Demo2.log_entries).
Proof.
  assert (H1 : forall b, sha256 b <> []) by (intros b; discriminate).
  assert (H2 : Forall (fun e => cleanb (fst e) = true /\ cleanb (snd e) = true)
                 Demo2.log_entries) by (repeat constructor).
  assert (H3 : Demo2.log_entries <> []) by discriminate.
  split; [exact H1|]. split; [exact H3|].
  exact (log_replays_from_genesis H1 H2 H3).
Defined.

Lemma X16_witness :
  Forall2 same_columns [Demo2.row_ab] [Demo2.row_ba] /\
  chunkRows 5000 [Demo2.row_ab] = chunkRows 5000 [Demo2.row_ba].
Proof.
  assert (H : Forall2 same_columns [Demo2.row_ab] [Demo2.row_ba]).
  { constructor; [|constructor]. split.
    - repeat constructor; simpl; intuition discriminate.
    - apply perm_swap. }
  split; [exact H|].
  exact (@chunk_index_ignores_column_order _ 5000 _ _ H).
Defined.

Lemma X18_witness :
  length [Demo2.cells (lit "x"); Demo2.cells (lit "y")]
  = (2 * 1 * effective_chunk_rows 1)%nat /\
  length [Demo2.cells (lit "z")] = effective_chunk_rows 1 /\
  snd (chunkRows 1 ([Demo2.cells (lit "x"); Demo2.cells (lit "y")]
                      ++ [Demo2.cells (lit "z")] ++ [Demo2.cells (lit "z")]))
  = snd (chunkRows 1 ([Demo2.cells (lit "x"); Demo2.cells (lit "y")]
                        ++ [Demo2.cells (lit "z")])).
Proof.
  assert (H1 : length [Demo2.cells (lit "x"); Demo2.cells (lit "y")]
               = (2 * 1 * effective_chunk_rows 1)%nat) by reflexivity.
  assert (H2 : length [Demo2.cells (lit "z")] = effective_chunk_rows 1) by reflexivity.
  split; [exact H1|]. split; [exact H2|].
  exact (proj1 (@repeated_last_chunk_keeps_root _ 1 _ _ 0%nat H1 H2)).
Defined.

Lemma demo_fixed_sampled :
  ProofSampler.sampled (rt := DemoFixed.runtime) DemoFixed.two_leaves
    (buildMerkleRoot (rt := DemoFixed.runtime) DemoFixed.two_leaves) [0; 1]%Z
  = Ok DemoFixed.sampled_proofs.
Proof. vm_compute. reflexivity. Qed.

Lemma X19_witness :
  (forall a b, length (@blake2b512 DemoFixed.runtime a)
               <> length (@sha256 DemoFixed.runtime b)) /\
  (2 <= length DemoFixed.two_leaves)%nat /\
  length DemoFixed.sampled_proofs = 2%nat /\
  Forall (fun p => verifies p = false) DemoFixed.sampled_proofs.
Proof.
  assert (H1 : forall a b, length (@blake2b512 DemoFixed.runtime a)
                           <> length (@sha256 DemoFixed.runtime b))
    by (intros a b; simpl; lia).
  assert (H2 : (2 <= length DemoFixed.two_leaves)%nat) by (simpl; lia).
  split; [exact H1|]. split; [exact H2|]. split; [reflexivity|].
  exact (@sampled_proofs_never_verify DemoFixed.runtime _ _ _ H1 H2 demo_fixed_sampled).
Defined.

Lemma X20_witness :
  Forall (fun d => 0 <= d < Z.of_nat 3)%Z [1; 1; 0; 2]%Z /\
  ProofSampler.sampleIndices (Z.of_nat 3) 2 [1; 1; 0; 2]%Z = Some [0; 1]%Z /\
  StronglySorted Z.lt [0; 1]%Z.
Proof.
  assert (H : Forall (fun d => 0 <= d < Z.of_nat 3)%Z [1; 1; 0; 2]%Z)
    by (repeat constructor; simpl; lia).
  assert (Hrun : ProofSampler.sampleIndices (Z.of_nat 3) 2 [1; 1; 0; 2]%Z = Some [0; 1]%Z)
    by reflexivity.
  split; [exact H|]. split; [exact Hrun|].
  exact (proj1 (proj1 (@sampler_indices_sorted_distinct_in_range 3 2 _ H) _ Hrun)).
Defined.

Lemma demo_sampler_run :
  ProofSampler.runEngine8ProofSampler (lit "2025-01-01T00:00:00.000Z") (lit "run_1")
    Demo.three_leaves (lit "00") 8 [0; 1; 2]%Z
  = Some (Ok Demo2.sampler_bundle).
Proof. vm_compute. reflexivity. Qed.

Lemma X21_witness :
  Forall (fun d => 0 <= d < Z.of_nat (length Demo.three_leaves))%Z [0; 1; 2]%Z /\
  ProofSampler.runEngine8ProofSampler (lit "2025-01-01T00:00:00.000Z") (lit "run_1")
    Demo.three_leaves (lit "00") 8 [0; 1; 2]%Z
  = Some (Ok Demo2.sampler_bundle) /\
  Trust.verdict (Trust.runEngine7Trust None JNull Demo2.sampler_bundle true) = Trust.FAIL.
Proof.
  assert (H : Forall (fun d => 0 <= d < Z.of_nat (length Demo.three_leaves))%Z [0; 1; 2]%Z)
    by (repeat constructor; simpl; lia).
  split; [exact H|]. split; [exact demo_sampler_run|].
  destruct (@trust_verdict_fails_on_sampler_bundles _ _ _ _ _ _ _ _ H demo_sampler_run)
    as (bundle & Hbundle & Htrust).
  assert (Hb : Demo2.sampler_bundle = bundle) by congruence.
  rewrite Hb. exact (proj2 (proj2 (Htrust None JNull true))).
Defined.

Lemma X24_witness :
  incl (row_hashes Demo2.xyx_rows) Demo2.xy_hashes /\
  (Z.of_nat (length Demo2.xy_hashes) <= Z.max 0 (Qceiling 2))%Z /\
  Contamination.approxUnique (fst (Contamination.scanRows 2 Demo2.xyx_rows)) = 2%Z.
Proof.
  assert (H1 : incl (row_hashes Demo2.xyx_rows) Demo2.xy_hashes).
  { intros a Ha. vm_compute in Ha. vm_compute.
    destruct Ha as [<-|[<-|[<-|[]]]]; auto. }
  assert (H2 : (Z.of_nat (length Demo2.xy_hashes) <= Z.max 0 (Qceiling 2))%Z)
    by (vm_compute; discriminate).
  split; [exact H1|]. split; [exact H2|].
  destruct (@heavy_hitter_counts_exact_within_capacity _ 2 _ _ H1 H2)
    as (_ & _ & _ & Happrox).
  rewrite Happrox. reflexivity.
Defined.

Lemma X27_witness :
  Forall (fun d => 0 <= d < Z.of_nat (length Demo.three_leaves))%Z [0; 1; 2]%Z /\
  ProofSampler.runEngine8ProofSampler (lit "2025-01-01T00:00:00.000Z") (lit "run_1")
    Demo.three_leaves (lit "00") 8 [0; 1; 2]%Z
  = Some (Ok Demo2.sampler_bundle) /\
  Trust.chain
    (Some (EvidenceBundle.runEngine9Bundle (lit "2025-01-01T00:00:02.000Z") (lit "run_1")
             Demo2.bundle_inputs))
    (lit "verdict")
  = Some (JStr (lit "FAIL")).
Proof.
  assert (H : Forall (fun d => 0 <= d < Z.of_nat (length Demo.three_leaves))%Z [0; 1; 2]%Z)
    by (repeat constructor; simpl; lia).
  assert (He7 : EvidenceBundle.e7 Demo2.bundle_inputs
                = TrustReport.trustResult (lit "2025-01-01T00:00:01.000Z") (lit "run_1")
                    (lit "r") (Finite 50) (Finite 100)
                    (Trust.runEngine7Trust None JNull Demo2.sampler_bundle true))
    by reflexivity.
  split; [exact H|]. split; [exact demo_sampler_run|].
  exact (@pipeline_verdict_is_FAIL _ _ _ _ _ _ _ _ None JNull true _ _ _ _
           (lit "2025-01-01T00:00:02.000Z") _ H demo_sampler_run He7).
Defined.

Lemma X1_witness :
  Demo.three_leaves <> [] /\
  (5 < 0 \/ Z.of_nat (length Demo.three_leaves) <= 5)%Z /\
  merkleProof Demo.three_leaves 5 = Throw (Error (lit "Proof index out of range")).
Proof.
  assert (H1 : Demo.three_leaves <> []) by discriminate.
  assert (H2 : (5 < 0 \/ Z.of_nat (length Demo.three_leaves) <= 5)%Z)
    by (right; simpl; lia).
  split; [exact H1|]. split; [exact H2|].
  exact (proj1 (proj2 (merkleProof_errors Demo.three_leaves 5)) H1 H2).
Defined.

Lemma X22_witness :
  Policy.dataset_risk 0 7 = lit "MEDIUM" /\
  Trust.policy
    (Trust.runEngine7Trust None
       (Policy.policyReport (lit "2025-01-01T00:00:00.000Z") (lit "run_1") (lit "data.csv")
          10 7 0 (JObj []) [])
       JNull true) = 95%Z.
Proof.
  split; [reflexivity|].
  exact (proj1 (proj2 (proj2
           (@medium_policy_risk_counts_as_low _ (lit "2025-01-01T00:00:00.000Z")
              (lit "run_1") (lit "data.csv") 10 7 0 (JObj []) [] None JNull true))
           eq_refl)).
Defined.

Lemma X26_witness :
  exists core,
    EvidenceBundle.runEngine9Bundle (lit "2025-01-01T00:00:02.000Z") (lit "run_1")
      Demo2.bundle_inputs
    = JObj (core ++ [(lit "bundle_hash", JStr (hashJSON (JObj core)))]) /\
    lookup (lit "verdict") core = Some (JStr (lit "FAIL")) /\
    lookup (lit "trust_score") core = Some (JNum (Finite 50)).
Proof.
  destruct (@evidence_bundle_carries_trust_verdict _ (lit "2025-01-01T00:00:02.000Z")
              (lit "run_1") Demo2.bundle_inputs) as (core & Hbundle & _ & _ & Hread).
  exists core. split; [exact Hbundle|].
  exact (Hread (lit "2025-01-01T00:00:01.000Z") (lit "run_1") (lit "r")
           (Finite 50) (Finite 100)
           (Trust.runEngine7Trust None JNull Demo2.sampler_bundle true) eq_refl).
Defined.
